(** * neffint: Fourier integrals on a fixed frequency grid

    A shallow embedding of [neffint/fixed_grid_fourier_integral.py].

    Modelling conventions.
    - NumPy [float64] values are idealised as real numbers ([R]) and
      [complex128] values as pairs of reals; rounding, overflow, underflow,
      infinities and NaN are outside the model.
    - A NumPy array handed to an element-wise kernel is its flat list of
      elements (row-major); the kernels never look at the shape.
    - Python exceptions are values of [exn]; code that may raise returns
      a [result].
    - SciPy's [pchip_interpolate] is not part of the repository: it is a
      parameter of the development. *)

From Stdlib Require Import String DecimalString.
From Stdlib Require Import Reals Lra Lia List Bool Arith.
Import ListNotations.

Open Scope R_scope.

(** * Part I: the program *)

(** ** Python exceptions and fallible computations *)

(** The built-in exception classes this module can raise, and
    [UserDefined] for a class a package would declare itself. *)
Inductive exn_class : Type :=
| RuntimeError
| ValueError
| IndexError
| UserDefined (name : string).

Record exn : Type := mk_exn { exn_cls : exn_class; exn_msg : string }.

Inductive result (A : Type) : Type :=
| Ok (a : A)
| Raise (e : exn).
Arguments Ok {A} a.
Arguments Raise {A} e.

Definition bind {A B : Type} (m : result A) (k : A -> result B) : result B :=
  match m with
  | Ok a => k a
  | Raise e => Raise e
  end.

Notation "x <- m ;; k" := (bind m (fun x => k))
  (at level 61, m at next level, right associativity).
Notation "' p <- m ;; k" := (bind m (fun p => k))
  (at level 61, p pattern, m at next level, right associativity).

Definition is_ok {A : Type} (m : result A) : bool :=
  match m with Ok _ => true | Raise _ => false end.

(** ** Complex numbers as NumPy computes with them *)

Definition C : Type := (R * R)%type.

Definition RtoC (x : R) : C := (x, 0).
Definition Ci : C := (0, 1).
Definition C0 : C := (0, 0).
Definition C1 : C := (1, 0).

Definition Cre (z : C) : R := fst z.
Definition Cim (z : C) : R := snd z.

Definition Cadd (z w : C) : C := (fst z + fst w, snd z + snd w).
Definition Copp (z : C) : C := (- fst z, - snd z).
Definition Csub (z w : C) : C := (fst z - fst w, snd z - snd w).
Definition Cmul (z w : C) : C :=
  (fst z * fst w - snd z * snd w, fst z * snd w + snd z * fst w).
Definition Cdiv (z w : C) : C :=
  ((fst z * fst w + snd z * snd w) / (fst w * fst w + snd w * snd w),
   (snd z * fst w - fst z * snd w) / (fst w * fst w + snd w * snd w)).
Definition Cexp (z : C) : C := (exp (fst z) * cos (snd z), exp (fst z) * sin (snd z)).

Declare Scope cplx_scope.
Delimit Scope cplx_scope with C.
Bind Scope cplx_scope with C.
Infix "+" := Cadd : cplx_scope.
Infix "-" := Csub : cplx_scope.
Infix "*" := Cmul : cplx_scope.
Infix "/" := Cdiv : cplx_scope.
Notation "- z" := (Copp z) : cplx_scope.

(** [x < y] as the boolean NumPy produces. *)
Definition Rltb (x y : R) : bool := if Rlt_dec x y then true else false.

(** ** NumPy array helpers on flat lists *)

(** Element-wise binary operation on arrays of one shape. *)
Fixpoint map2 {A B D : Type} (f : A -> B -> D) (a : list A) (b : list B) : list D :=
  match a, b with
  | x :: a', y :: b' => f x y :: map2 f a' b'
  | _, _ => []
  end.

(** [a[mask]]: boolean-mask selection (a copy). *)
Fixpoint np_select {A : Type} (mask : list bool) (a : list A) : list A :=
  match mask, a with
  | m :: mask', v :: a' =>
      if m then v :: np_select mask' a' else np_select mask' a'
  | _, _ => []
  end.

(** [a[mask] = vals]: boolean-mask assignment. *)
Fixpoint np_put {A : Type} (mask : list bool) (a vals : list A) : list A :=
  match mask, a with
  | m :: mask', v :: a' =>
      if m then
        match vals with
        | w :: vals' => w :: np_put mask' a' vals'
        | [] => v :: np_put mask' a' []
        end
      else v :: np_put mask' a' vals
  | _, _ => a
  end.

(** [np.all]. *)
Definition np_all (b : list bool) : bool := forallb (fun v => v) b.

(** [bool(a)] for a boolean array, as the [if] statement asks for it
    (NumPy 1.x: an empty array is false, with a deprecation warning; from
    NumPy 2.2 on the empty case raises as well). *)
Definition array_truth (b : list bool) : result bool :=
  match b with
  | [] => Ok false
  | [v] => Ok v
  | _ => Raise (mk_exn ValueError
           "The truth value of an array with more than one element is ambiguous. Use a.any() or a.all()")
  end.

(** [np.min([a, b], axis=0)]. *)
Definition np_min2 (a b : list R) : list R := map2 Rmin a b.

(** ** Module constants *)

Definition MAX_TAYLOR_ITERATIONS : nat := 1000.

(** [np.finfo(float64).eps] *)
Definition float64_eps : R := / 2 ^ 52.

Definition nat_to_string (n : nat) : string :=
  NilEmpty.string_of_uint (Nat.to_uint n).

(** ** [_lambda] *)

Definition lambda_closed (xx : R) : C :=
  let exp_jx := Cexp (Ci * RtoC xx) in
  ((- Ci) * exp_jx / RtoC xx + (exp_jx - RtoC 1) / RtoC (xx ^ 2))%C.

Record lambda_state : Type := mk_lambda_state {
  l_result : list C;
  l_jx_to_n : list C;
  l_abs_x_to_n_plus_1 : list R;
  l_inv_factorial : R
}.

(** The three steps of a pass [n] of the loop: add the next term, build
    the comparison array of the convergence test, update the variables. *)
Definition lambda_add_term (taylor_mask : list bool) (n : nat)
    (st : lambda_state) : list C :=
  np_put taylor_mask (l_result st)
    (map2 Cadd (np_select taylor_mask (l_result st))
       (map (fun j => RtoC (1 / (INR n + 2)) * j
                      * RtoC (l_inv_factorial st))%C (l_jx_to_n st))).

Definition lambda_test (taylor_mask : list bool) (exp_abs_x : list R) (n : nat)
    (st : lambda_state) (result1 : list C) : list bool :=
  let min_component :=
    np_min2 (map (fun z => Rabs (Cre z)) (np_select taylor_mask result1))
            (map (fun z => Rabs (Cim z)) (np_select taylor_mask result1)) in
  let remaining_term_bound :=
    map2 (fun a e => a * e * l_inv_factorial st * 1
                     / ((INR n + 3) * (INR n + 1)))
         (l_abs_x_to_n_plus_1 st) exp_abs_x in
  map2 (fun b m => Rltb b (float64_eps * m)) remaining_term_bound min_component.

Definition lambda_update (xx : list R) (n : nat) (st : lambda_state)
    (result1 : list C) : lambda_state :=
  mk_lambda_state result1
    (map2 Cmul (l_jx_to_n st) (map (fun v => Ci * RtoC v)%C xx))
    (map2 Rmult (l_abs_x_to_n_plus_1 st) (map Rabs xx))
    (l_inv_factorial st / (INR n + 1)).

(** [for n in range(...)]: the test is
    [if remaining_term_bound < rel_tolerance * min_component: break], on the
    comparison array itself.  The loop hands back the last value bound to
    [n] together with the accumulated array. *)
Fixpoint lambda_loop (taylor_mask : list bool) (xx exp_abs_x : list R)
    (ns : list nat) (last_n : nat) (st : lambda_state)
  : result (nat * list C) :=
  match ns with
  | [] => Ok (last_n, l_result st)
  | n :: ns' =>
      let result1 := lambda_add_term taylor_mask n st in
      brk <- array_truth (lambda_test taylor_mask exp_abs_x n st result1) ;;
      if brk then Ok (n, result1)
      else lambda_loop taylor_mask xx exp_abs_x ns' n
             (lambda_update xx n st result1)
  end.

Definition lambda_error : exn :=
  mk_exn RuntimeError
    ("Lambda calculation failed to converge after "
     ++ nat_to_string MAX_TAYLOR_ITERATIONS ++ " iterations").

Definition _lambda (x : list R) : result (list C) :=
  let result0 := map (fun _ => C0) x in
  let taylor_mask := map (fun v => Rltb (Rabs v) 1) x in
  let not_mask := map negb taylor_mask in
  let xx := np_select not_mask x in
  let result1 := np_put not_mask result0 (map lambda_closed xx) in
  let xx := np_select taylor_mask x in
  '(n, result2) <- lambda_loop taylor_mask xx (map (fun v => exp (Rabs v)) xx)
                (seq 0 (MAX_TAYLOR_ITERATIONS + 1)) 0%nat
                (mk_lambda_state result1 (map (fun _ => C1) xx) (map Rabs xx) 1) ;;
  if Nat.eqb n MAX_TAYLOR_ITERATIONS then Raise lambda_error
  else Ok result2.

(** ** Arrays with a leading axis

    A complex array of shape [(n, X1, X2, ...)] is kept as its [n] rows
    along axis 0, each row the flattened block of shape [(X1, X2, ...)];
    [trailing] is that block shape.  A block on its own (such as
    [func_values[-1]]) is a [trail]. *)

Record ndarray : Type := mk_ndarray { trailing : list nat; rows : list (list C) }.
Record trail : Type := mk_trail { t_shape : list nat; t_data : list C }.

Definition shape (a : ndarray) : list nat := length (rows a) :: trailing a.

(** Number of elements of a block of the given shape. *)
Definition np_prod (s : list nat) : nat := fold_right Nat.mul 1%nat s.

(** The rows all have the size their block shape announces. *)
Definition well_shaped (k : nat) (r : list (list C)) : Prop :=
  Forall (fun row => length row = k) r.

Definition index_error : exn :=
  mk_exn IndexError "index out of bounds for axis 0 with size 0".

(** [a[-1]] and [a[0]]. *)
Definition get_last {A : Type} (a : list A) : result A :=
  match rev a with
  | v :: _ => Ok v
  | [] => Raise index_error
  end.

Definition get_first {A : Type} (a : list A) : result A :=
  match a with
  | v :: _ => Ok v
  | [] => Raise index_error
  end.

(** [np.diff] of a 1-D array. *)
Definition np_diff (a : list R) : list R := map2 Rminus (tl a) a.

(** ** [complex_pchip]

    The real interpolation primitive is SciPy's [pchip_interpolate
    (xi, yi, x, der, axis)]; [yi] and the value returned are arrays with a
    leading axis, given by their rows.  Only an integer [derivative_order]
    is modelled. *)

Definition pchip_primitive : Type :=
  list R -> list (list R) -> list R -> nat -> nat -> result (list (list R)).

Definition complex_pchip (pchip_interpolate : pchip_primitive)
    (xi : list R) (zi : list (list C)) (x : list R)
    (derivative_order axis : nat) : result (list (list C)) :=
  re <- pchip_interpolate xi (map (map Cre) zi) x derivative_order axis ;;
  im <- pchip_interpolate xi (map (map Cim) zi) x derivative_order axis ;;
  Ok (map2 (map2 (fun a b => RtoC a + Ci * RtoC b)%C) re im).

(** ** [_phi_and_psi] *)

Definition phi_closed (xx : R) : C :=
  let exp_jx := Cexp (Ci * RtoC xx) in
  ((- Ci) * RtoC (xx ^ 3) * exp_jx
   - (0, 6) * RtoC xx * (exp_jx + RtoC 1)
   + RtoC 12 * (exp_jx - RtoC 1)) / RtoC (xx ^ 4).

Definition psi_closed (xx : R) : C :=
  let exp_jx := Cexp (Ci * RtoC xx) in
  (RtoC (xx ^ 2) * exp_jx
   + (0, 2) * RtoC xx * (RtoC 2 * exp_jx + RtoC 1)
   - RtoC 6 * (exp_jx - RtoC 1)) / RtoC (xx ^ 4).

(** The variables of the convergence loop. *)
Record taylor_state : Type := mk_taylor_state {
  phi : list C;
  psi : list C;
  phi_converged : bool;
  psi_converged : bool;
  jx_to_n : list C;
  abs_x_to_n_plus_1 : list R;
  inv_factorial : R
}.

Section PhiPsiLoop.

Variable taylor_mask : list bool.
Variable xx : list R.
Variable exp_abs_x : list R.
Let rel_tolerance : R := float64_eps.

(** One pass of the loop body for index [n], after the [break] test. *)
Definition phi_psi_body (n : nat) (st : taylor_state) : taylor_state :=
  let '(phi1, phi_conv1) :=
    if negb (phi_converged st) then
      let phi1 :=
        np_put taylor_mask (phi st)
          (map2 Cadd (np_select taylor_mask (phi st))
             (map (fun j => RtoC ((INR n + 6) / ((INR n + 3) * (INR n + 4))) * j
                            * RtoC (inv_factorial st))%C (jx_to_n st))) in
      let min_phi_component :=
        np_min2 (map (fun z => Rabs (Cre z)) (np_select taylor_mask phi1))
                (map (fun z => Rabs (Cim z)) (np_select taylor_mask phi1)) in
      let phi_remaining_terms_bound :=
        map2 (fun a e => 2 * a * e * inv_factorial st / ((INR n + 1) * (INR n + 5)))
             (abs_x_to_n_plus_1 st) exp_abs_x in
      (phi1,
       np_all (map2 (fun b m => Rltb b (rel_tolerance * m))
                    phi_remaining_terms_bound min_phi_component))
    else (phi st, phi_converged st) in
  let '(psi1, psi_conv1) :=
    if negb (psi_converged st) then
      let psi1 :=
        np_put taylor_mask (psi st)
          (map2 Cadd (np_select taylor_mask (psi st))
             (map (fun j => RtoC (- 1 / ((INR n + 3) * (INR n + 4))) * j
                            * RtoC (inv_factorial st))%C (jx_to_n st))) in
      let min_psi_component :=
        np_min2 (map (fun z => Rabs (Cre z)) (np_select taylor_mask psi1))
                (map (fun z => Rabs (Cim z)) (np_select taylor_mask psi1)) in
      let psi_remaining_terms_bound :=
        map2 (fun a e => a * e * inv_factorial st
                         / ((INR n + 1) * (INR n + 4) * (INR n + 5)))
             (abs_x_to_n_plus_1 st) exp_abs_x in
      (psi1,
       np_all (map2 (fun b m => Rltb b (rel_tolerance * m))
                    psi_remaining_terms_bound min_psi_component))
    else (psi st, psi_converged st) in
  mk_taylor_state phi1 psi1 phi_conv1 psi_conv1
    (map2 Cmul (jx_to_n st) (map (fun v => Ci * RtoC v)%C xx))
    (map2 Rmult (abs_x_to_n_plus_1 st) (map Rabs xx))
    (inv_factorial st / (INR n + 1)).

(** [for n in range(...)], with the [break] at the head of the body. *)
Fixpoint phi_psi_loop (ns : list nat) (st : taylor_state) : taylor_state :=
  match ns with
  | [] => st
  | n :: ns' =>
      if phi_converged st && psi_converged st then st
      else phi_psi_loop ns' (phi_psi_body n st)
  end.

End PhiPsiLoop.

Definition phi_psi_error : exn :=
  mk_exn RuntimeError
    ("Phi and Psi calculation failed to converge after "
     ++ nat_to_string MAX_TAYLOR_ITERATIONS ++ " iterations").

Definition _phi_and_psi (x : list R) : result (list C * list C) :=
  let phi0 := map (fun _ => C0) x in
  let psi0 := map (fun _ => C0) phi0 in
  let taylor_mask := map (fun v => Rltb (Rabs v) 1) x in
  let not_mask := map negb taylor_mask in
  let xx := np_select not_mask x in
  let phi1 := np_put not_mask phi0 (map phi_closed xx) in
  let psi1 := np_put not_mask psi0 (map psi_closed xx) in
  let xx := np_select taylor_mask x in
  let st0 :=
    mk_taylor_state phi1 psi1 false false
      (map (fun _ => C1) xx) (map Rabs xx) 1 in
  let st :=
    phi_psi_loop taylor_mask xx (map (fun v => exp (Rabs v)) xx)
      (seq 0 (MAX_TAYLOR_ITERATIONS + 1)) st0 in
  if negb (phi_converged st && psi_converged st) then Raise phi_psi_error
  else Ok (phi st, psi st).

(** ** [fourier_integral_inf_correction] *)

Definition broadcast_error : exn :=
  mk_exn ValueError "operands could not be broadcast together".

(** The pairs [(value, derivative)] over the trailing block: blocks of one
    shape pair up element by element, a 0-d derivative (the default [0.])
    is repeated.  Two different non-scalar shapes are not modelled beyond
    the failure NumPy reports when they are incompatible. *)
Definition pair_trailing (v d : trail) : result (list (C * C)) :=
  if list_eq_dec Nat.eq_dec (t_shape v) (t_shape d) then
    Ok (combine (t_data v) (t_data d))
  else
    match t_shape d, t_data d with
    | [], [d0] => Ok (map (fun a => (a, d0)) (t_data v))
    | _, _ => Raise broadcast_error
    end.

Definition fourier_integral_inf_correction (times : list R) (omega_end : R)
    (func_value_end func_derivative_end : trail) (positive_inf : bool)
  : result ndarray :=
  let sign := if positive_inf then 1 else -1 in
  vd <- pair_trailing func_value_end func_derivative_end ;;
  Ok (mk_ndarray (t_shape func_value_end)
        (map (fun t =>
                map (fun p : C * C =>
                       RtoC sign * Cexp (Ci * RtoC t * RtoC omega_end)
                       * (Ci * fst p / RtoC t - snd p / RtoC (t ^ 2)))%C vd)
             times)).

(** ** [fourier_integral_fixed_sampling_pchip]

    Axes, as the source fixes them: axis 0 times, axis 1 frequencies,
    axes 2+ the function output dims (one flattened block).  The helpers
    below are the broadcasts the expression of the sum performs. *)

(** [(1,F,K) op (M,F,1)] *)
Definition bc_f_t (op : C -> C -> C) (f : list (list C)) (s : list (list C))
  : list (list (list C)) :=
  map (fun srow => map2 (fun frow sc => map (fun fj => op fj sc) frow) f srow) s.

(** [(M,F,K) op (M,F,1)] *)
Definition bc_g_t (op : C -> C -> C) (a : list (list (list C)))
    (s : list (list C)) : list (list (list C)) :=
  map2 (map2 (fun arow sc => map (fun aj => op aj sc) arow)) a s.

(** [(M,F,1) op (M,F,K)] *)
Definition bc_t_g (op : C -> C -> C) (s : list (list C))
    (a : list (list (list C))) : list (list (list C)) :=
  map2 (map2 (fun sc arow => map (fun aj => op sc aj) arow)) s a.

(** [(1,F,1) * (1,F,K)], a real array times a complex one *)
Definition bc_d_f (d : list R) (f : list (list C)) : list (list C) :=
  map2 (fun dw frow => map (fun fj => RtoC dw * fj)%C frow) d f.

(** [(1,F,1) * (M,F,1)], a real array times a complex one *)
Definition bc_d_t (d : list R) (s : list (list C)) : list (list C) :=
  map (fun srow => map2 (fun dw sc => RtoC dw * sc)%C d srow) s.

(** [(M,F,K) op (M,F,K)] *)
Definition bc_g_g (op : C -> C -> C) (a b : list (list (list C)))
  : list (list (list C)) :=
  map2 (map2 (map2 op)) a b.

(** [np.sum(a, axis=1)] of an array of shape [(M,F,K)]. *)
Definition np_sum_axis1 (k : nat) (a : list (list (list C))) : list (list C) :=
  map (fun per_freq => fold_left (map2 Cadd) per_freq (repeat C0 k)) a.

(** An element-wise result brought back to the shape of the 2-D argument
    whose flattening it was computed from. *)
Fixpoint reshape_like {A B : Type} (like : list (list A)) (flat : list B)
  : list (list B) :=
  match like with
  | [] => []
  | r :: like' =>
      firstn (length r) flat :: reshape_like like' (skipn (length r) flat)
  end.

(** [_phi_and_psi] on an array of shape [(M,F)]. *)
Definition _phi_and_psi_2d (x : list (list R))
  : result (list (list C) * list (list C)) :=
  '(p, q) <- _phi_and_psi (concat x) ;;
  Ok (reshape_like x p, reshape_like x q).

(** [result += term] on arrays of one shape. *)
Definition iadd (a b : ndarray) : ndarray :=
  mk_ndarray (trailing a) (map2 (map2 Cadd) (rows a) (rows b)).

(** The array expression summed over the frequency axis, from the arrays
    it combines. *)
Definition filon_summand (delta_omegas : list R)
    (exp_omegas exp_x phi_x psi_x phi_minus_x psi_minus_x : list (list C))
    (func_values func_derivatives : list (list C)) : list (list (list C)) :=
  let fv_lo := removelast func_values in
  let fv_hi := tl func_values in
  let fd_lo := removelast func_derivatives in
  let fd_hi := tl func_derivatives in
  bc_t_g Cmul (bc_d_t delta_omegas exp_omegas)
    (bc_g_g Cadd
       (bc_g_g Csub
          (bc_g_g Cadd
             (bc_g_t Cmul (bc_f_t Cmul fv_lo phi_minus_x) exp_x)
             (bc_f_t Cmul fv_hi phi_x))
          (bc_g_t Cmul
             (bc_f_t Cmul (bc_d_f delta_omegas fd_lo) psi_minus_x)
             exp_x))
       (bc_f_t Cmul (bc_d_f delta_omegas fd_hi) psi_x)).

(** The kernel arguments [x = delta_omegas * times], of shape [(M,F)]. *)
Definition kernel_argument_grid (times omegas : list R) : list (list R) :=
  map (fun t => map (fun dw => dw * t) (np_diff omegas)) times.

(** The sum over the frequency axis (the [np.sum(..., axis=1)] expression
    and the arrays it is built from). *)
Definition filon_sum (times omegas : list R)
    (func_values func_derivatives : list (list C)) (k : nat)
  : result (list (list C)) :=
  let delta_omegas := np_diff omegas in
  let exp_omegas :=
    map (fun t => map (fun w => Cexp (Ci * RtoC w * RtoC t)) (removelast omegas))
        times in
  let x := kernel_argument_grid times omegas in
  let exp_x := map (map (fun v => Cexp (Ci * RtoC v))) x in
  '(phi_x, psi_x) <- _phi_and_psi_2d x ;;
  '(phi_minus_x, psi_minus_x) <- _phi_and_psi_2d (map (map Ropp) x) ;;
  Ok (np_sum_axis1 k
        (filon_summand delta_omegas exp_omegas exp_x
           phi_x psi_x phi_minus_x psi_minus_x func_values func_derivatives)).

Definition fourier_integral_fixed_sampling_pchip
    (pchip_interpolate : pchip_primitive)
    (times frequencies : list R) (func_values : ndarray)
    (pos_inf_correction_term neg_inf_correction_term : bool) : result ndarray :=
  let omegas := map (fun f => 2 * PI * f) frequencies in
  let k := np_prod (trailing func_values) in
  let result0 :=
    mk_ndarray (trailing func_values) (map (fun _ => repeat C0 k) times) in
  func_derivatives <-
    complex_pchip pchip_interpolate omegas (rows func_values) omegas 1 0 ;;
  result1 <-
    (if pos_inf_correction_term then
       omega_end <- get_last omegas ;;
       value_end <- get_last (rows func_values) ;;
       derivative_end <- get_last func_derivatives ;;
       corr <- fourier_integral_inf_correction times omega_end
                 (mk_trail (trailing func_values) value_end)
                 (mk_trail (trailing func_values) derivative_end) true ;;
       Ok (iadd result0 corr)
     else Ok result0) ;;
  result2 <-
    (if neg_inf_correction_term then
       omega_end <- get_first omegas ;;
       value_end <- get_first (rows func_values) ;;
       derivative_end <- get_first func_derivatives ;;
       corr <- fourier_integral_inf_correction times omega_end
                 (mk_trail (trailing func_values) value_end)
                 (mk_trail (trailing func_values) derivative_end) false ;;
       Ok (iadd result1 corr)
     else Ok result1) ;;
  base <- filon_sum times omegas (rows func_values) func_derivatives k ;;
  Ok (iadd result2 (mk_ndarray (trailing func_values) base)).

(** ** A concrete interpolation primitive

    An instance of the primitive for instantiating the development: it
    makes SciPy's input checks ([xi] of at least two points, as many as
    [yi] has rows, strictly increasing) and, the evaluation points being
    the nodes, returns the samples at order 0 and at order 1 the slope of
    the segment to the right of each node (to the left of the last one) --
    SciPy's estimate on a grid of two nodes. *)

Definition strictly_increasing (xi : list R) : bool :=
  forallb (fun d => Rltb 0 d) (np_diff xi).

Definition segment_slopes (xi : list R) (yi : list (list R)) : list (list R) :=
  map2 (fun h (p : list R * list R) =>
          map2 (fun a b => (b - a) / h) (fst p) (snd p))
       (np_diff xi) (combine (removelast yi) (tl yi)).

Definition secant_pchip : pchip_primitive :=
  fun xi yi x der axis =>
    if Nat.ltb (length xi) 2 then
      Raise (mk_exn ValueError "`x` must contain at least 2 elements.")
    else if negb (Nat.eqb (length xi) (length yi)) then
      Raise (mk_exn ValueError
               "The length of `y` along `axis`=0 doesn't match the length of `x`")
    else if negb (strictly_increasing xi) then
      Raise (mk_exn ValueError "`x` must be strictly increasing sequence.")
    else
      match der with
      | O => Ok yi
      | S O =>
          let s := segment_slopes xi yi in
          Ok (s ++ [List.last s []])
      | S (S _) => Ok (map (map (fun _ => 0)) yi)
      end.

(** ** Arrays as mutable buffers

    For the claims about mutation and shared state the arrays live in a
    store: a variable holds the location of a buffer, [np.asarray] of an
    array and the arguments of a call share the caller's buffer, the
    allocating operations ([np.zeros], [zeros_like], [ones_like],
    arithmetic, boolean-mask selection) return a new buffer, and the
    in-place statements ([a[mask] = v], [a += b], [a *= b]) overwrite the
    buffer of their target.  The interpolation primitive reads its
    arguments and returns a new array. *)

Inductive buffer : Type :=
| BReal (v : list R)
| BCplx (v : list C)
| BNd (a : ndarray).

Definition store : Type := list buffer.
Definition loc : Type := nat.
Bind Scope nat_scope with loc.

Definition as_real (b : buffer) : list R :=
  match b with BReal v => v | _ => [] end.
Definition as_cplx (b : buffer) : list C :=
  match b with BCplx v => v | _ => [] end.
Definition as_nd (b : buffer) : ndarray :=
  match b with BNd a => a | _ => mk_ndarray [] [] end.

Definition ST (A : Type) : Type := store -> result A * store.

Definition st_ret {A : Type} (a : A) : ST A := fun s => (Ok a, s).
Definition st_raise {A : Type} (e : exn) : ST A := fun s => (Raise e, s).
Definition st_lift {A : Type} (r : result A) : ST A := fun s => (r, s).
Definition st_bind {A B : Type} (m : ST A) (k : A -> ST B) : ST B :=
  fun s =>
    match m s with
    | (Ok a, s') => k a s'
    | (Raise e, s') => (Raise e, s')
    end.

Notation "x <~ m ;; k" := (st_bind m (fun x => k))
  (at level 61, m at next level, right associativity).

Fixpoint replace_nth {A : Type} (n : nat) (a : A) (l : list A) : list A :=
  match l, n with
  | [], _ => []
  | _ :: l', O => a :: l'
  | b :: l', S n' => b :: replace_nth n' a l'
  end.

(** A new buffer, the buffer at a location, overwriting a buffer. *)
Definition alloc (b : buffer) : ST loc := fun s => (Ok (length s), s ++ [b]).
Definition get (l : loc) : ST buffer := fun s => (Ok (nth l s (BReal [])), s).
Definition put (l : loc) (b : buffer) : ST unit :=
  fun s => (Ok tt, replace_nth l b s).

(** *** [_phi_and_psi] on buffers *)

Section StatefulKernel.

Variable taylor_mask : list bool.
Variables phi psi xx jx_to_n abs_x_to_n_plus_1 exp_abs_x : loc.

(** One kernel of a pass: [acc[taylor_mask] += coef * jx_to_n *
    inv_factorial] in place, then the test. *)
Definition st_accumulate (acc : loc) (coef : R) (bound : R -> R -> R)
    (inv_factorial : R) : ST bool :=
  a <~ get acc ;;
  j <~ get jx_to_n ;;
  _ <~ put acc
        (BCplx (np_put taylor_mask (as_cplx a)
                  (map2 Cadd (np_select taylor_mask (as_cplx a))
                     (map (fun z => RtoC coef * z * RtoC inv_factorial)%C
                          (as_cplx j))))) ;;
  a1 <~ get acc ;;
  ab <~ get abs_x_to_n_plus_1 ;;
  ex <~ get exp_abs_x ;;
  st_ret
    (np_all
       (map2 (fun b m => Rltb b (float64_eps * m))
          (map2 bound (as_real ab) (as_real ex))
          (np_min2
             (map (fun z => Rabs (Cre z)) (np_select taylor_mask (as_cplx a1)))
             (map (fun z => Rabs (Cim z)) (np_select taylor_mask (as_cplx a1)))))).

Definition st_phi_psi_body (n : nat) (phi_converged psi_converged : bool)
    (inv_factorial : R) : ST (bool * bool) :=
  pc <~ (if negb phi_converged then
           st_accumulate phi ((INR n + 6) / ((INR n + 3) * (INR n + 4)))
             (fun a e => 2 * a * e * inv_factorial / ((INR n + 1) * (INR n + 5)))
             inv_factorial
         else st_ret phi_converged) ;;
  qc <~ (if negb psi_converged then
           st_accumulate psi (- 1 / ((INR n + 3) * (INR n + 4)))
             (fun a e => a * e * inv_factorial
                         / ((INR n + 1) * (INR n + 4) * (INR n + 5)))
             inv_factorial
         else st_ret psi_converged) ;;
  x <~ get xx ;;
  j <~ get jx_to_n ;;
  _ <~ put jx_to_n
        (BCplx (map2 Cmul (as_cplx j) (map (fun v => Ci * RtoC v)%C (as_real x)))) ;;
  a <~ get abs_x_to_n_plus_1 ;;
  _ <~ put abs_x_to_n_plus_1
        (BReal (map2 Rmult (as_real a) (map Rabs (as_real x)))) ;;
  st_ret (pc, qc).

Fixpoint st_phi_psi_loop (ns : list nat) (phi_converged psi_converged : bool)
    (inv_factorial : R) : ST (bool * bool) :=
  match ns with
  | [] => st_ret (phi_converged, psi_converged)
  | n :: ns' =>
      if phi_converged && psi_converged then
        st_ret (phi_converged, psi_converged)
      else
        c <~ st_phi_psi_body n phi_converged psi_converged inv_factorial ;;
        st_phi_psi_loop ns' (fst c) (snd c) (inv_factorial / (INR n + 1))
  end.

End StatefulKernel.

Definition st_phi_and_psi (x : loc) : ST (loc * loc) :=
  xb <~ get x ;;
  let xv := as_real xb in
  phi <~ alloc (BCplx (map (fun _ => C0) xv)) ;;
  psi <~ alloc (BCplx (map (fun _ => C0) (map (fun _ : R => C0) xv))) ;;
  let taylor_mask := map (fun v => Rltb (Rabs v) 1) xv in
  let not_mask := map negb taylor_mask in
  xx <~ alloc (BReal (np_select not_mask xv)) ;;
  xxb <~ get xx ;;
  p <~ get phi ;;
  _ <~ put phi (BCplx (np_put not_mask (as_cplx p) (map phi_closed (as_real xxb)))) ;;
  q <~ get psi ;;
  _ <~ put psi (BCplx (np_put not_mask (as_cplx q) (map psi_closed (as_real xxb)))) ;;
  xx <~ alloc (BReal (np_select taylor_mask xv)) ;;
  xxb <~ get xx ;;
  jx_to_n <~ alloc (BCplx (map (fun _ => C1) (as_real xxb))) ;;
  abs_x_to_n_plus_1 <~ alloc (BReal (map Rabs (as_real xxb))) ;;
  exp_abs_x <~ alloc (BReal (map (fun v => exp (Rabs v)) (as_real xxb))) ;;
  c <~ st_phi_psi_loop taylor_mask phi psi xx jx_to_n abs_x_to_n_plus_1 exp_abs_x
         (seq 0 (MAX_TAYLOR_ITERATIONS + 1)) false false 1 ;;
  if negb (fst c && snd c) then st_raise phi_psi_error
  else st_ret (phi, psi).

(** *** [fourier_integral_fixed_sampling_pchip] on buffers

    [times], [frequencies] and [func_values] are the locations of the
    caller's arrays.  The new axes and the slices taken of them are views,
    which are only read. *)

Definition st_filon_sum (tv ov : list R) (func_values func_derivatives : list (list C))
    (k : nat) : ST (list (list C)) :=
  let delta_omegas := np_diff ov in
  let exp_omegas :=
    map (fun t => map (fun w => Cexp (Ci * RtoC w * RtoC t)) (removelast ov)) tv in
  let grid := kernel_argument_grid tv ov in
  x <~ alloc (BReal (concat grid)) ;;
  let exp_x := map (map (fun v => Cexp (Ci * RtoC v))) grid in
  pq <~ st_phi_and_psi x ;;
  phi_x <~ get (fst pq) ;;
  psi_x <~ get (snd pq) ;;
  minus_x <~ alloc (BReal (concat (map (map Ropp) grid))) ;;
  pqm <~ st_phi_and_psi minus_x ;;
  phi_minus_x <~ get (fst pqm) ;;
  psi_minus_x <~ get (snd pqm) ;;
  st_ret (np_sum_axis1 k
            (filon_summand delta_omegas exp_omegas exp_x
               (reshape_like grid (as_cplx phi_x))
               (reshape_like grid (as_cplx psi_x))
               (reshape_like (map (map Ropp) grid) (as_cplx phi_minus_x))
               (reshape_like (map (map Ropp) grid) (as_cplx psi_minus_x))
               func_values func_derivatives)).

Definition st_fourier_integral (pchip_interpolate : pchip_primitive)
    (times frequencies func_values : loc)
    (pos_inf_correction_term neg_inf_correction_term : bool) : ST loc :=
  fb <~ get frequencies ;;
  omegas <~ alloc (BReal (map (fun f => 2 * PI * f) (as_real fb))) ;;
  fvb <~ get func_values ;;
  tb <~ get times ;;
  let fv := as_nd fvb in
  let tv := as_real tb in
  let k := np_prod (trailing fv) in
  result <~ alloc (BNd (mk_ndarray (trailing fv) (map (fun _ => repeat C0 k) tv))) ;;
  ob <~ get omegas ;;
  let ov := as_real ob in
  fd <~ st_lift (complex_pchip pchip_interpolate ov (rows fv) ov 1 0) ;;
  func_derivatives <~ alloc (BNd (mk_ndarray (trailing fv) fd)) ;;
  _ <~ (if pos_inf_correction_term then
          omega_end <~ st_lift (get_last ov) ;;
          value_end <~ st_lift (get_last (rows fv)) ;;
          derivative_end <~ st_lift (get_last fd) ;;
          corr <~ st_lift (fourier_integral_inf_correction tv omega_end
                             (mk_trail (trailing fv) value_end)
                             (mk_trail (trailing fv) derivative_end) true) ;;
          r <~ get result ;;
          put result (BNd (iadd (as_nd r) corr))
        else st_ret tt) ;;
  _ <~ (if neg_inf_correction_term then
          omega_end <~ st_lift (get_first ov) ;;
          value_end <~ st_lift (get_first (rows fv)) ;;
          derivative_end <~ st_lift (get_first fd) ;;
          corr <~ st_lift (fourier_integral_inf_correction tv omega_end
                             (mk_trail (trailing fv) value_end)
                             (mk_trail (trailing fv) derivative_end) false) ;;
          r <~ get result ;;
          put result (BNd (iadd (as_nd r) corr))
        else st_ret tt) ;;
  base <~ st_filon_sum tv ov (rows fv) fd k ;;
  r <~ get result ;;
  _ <~ put result (BNd (iadd (as_nd r) (mk_ndarray (trailing fv) base))) ;;
  st_ret result.

(** * Part II: closed forms and statements *)

(** ** Closed forms of the loop variables

    [Cpow (1j*x) n] is [jx_to_n] on entry to pass [n], [/ n!] is
    [inv_factorial], [|x|^(n+1)] is [abs_x_to_n_plus_1]; [taylor_partial]
    is the accumulated sum, [taylor_term coef n] the term
    [coef n * (ix)^n / n!] added in pass [n]. *)

Fixpoint Cpow (z : C) (n : nat) : C :=
  match n with
  | O => C1
  | S m => (Cpow z m * z)%C
  end.

Definition taylor_term (coef : nat -> R) (n : nat) (x : R) : C :=
  (RtoC (coef n) * Cpow (Ci * RtoC x) n * RtoC (/ INR (fact n)))%C.

(** The sum of the terms of index [< n], starting from the zero the
    output array is initialised with. *)
Fixpoint taylor_partial (coef : nat -> R) (n : nat) (x : R) : C :=
  match n with
  | O => C0
  | S m => (taylor_partial coef m x + taylor_term coef m x)%C
  end.

Definition phi_coef (n : nat) : R := (INR n + 6) / ((INR n + 3) * (INR n + 4)).
Definition psi_coef (n : nat) : R := - 1 / ((INR n + 3) * (INR n + 4)).

Definition phi_bound (n : nat) (x : R) : R :=
  2 * Rabs x ^ S n * exp (Rabs x) * / INR (fact n) / ((INR n + 1) * (INR n + 5)).
Definition psi_bound (n : nat) (x : R) : R :=
  Rabs x ^ S n * exp (Rabs x) * / INR (fact n)
  / ((INR n + 1) * (INR n + 4) * (INR n + 5)).

Definition lambda_coef (n : nat) : R := 1 / (INR n + 2).
Definition lambda_bound (n : nat) (x : R) : R :=
  Rabs x ^ S n * exp (Rabs x) * / INR (fact n) * 1 / ((INR n + 3) * (INR n + 1)).

(** The convergence test of pass [n] on one element, the sum holding
    the terms of index [0..n]. *)
Definition converged_at (coef : nat -> R) (bound : nat -> R -> R)
    (n : nat) (x : R) : bool :=
  let s := taylor_partial coef (S n) x in
  Rltb (bound n x) (float64_eps * Rmin (Rabs (Cre s)) (Rabs (Cim s))).

(** The Taylor branch is taken where [|x| < 1]. *)
Definition in_taylor (x : R) : bool := Rltb (Rabs x) 1.

(** The first pass at which the whole Taylor sub-batch passes the test. *)
Definition batch_converged (coef : nat -> R) (bound : nat -> R -> R)
    (xx : list R) (n : nat) : bool :=
  forallb (converged_at coef bound n) xx.

Definition first_converged (coef : nat -> R) (bound : nat -> R -> R)
    (xx : list R) (ns : list nat) : option nat :=
  find (batch_converged coef bound xx) ns.

(** Element-wise merge of the two branches into one array. *)
Definition merge_branches (closed taylor : R -> C) (x : list R) : list C :=
  map (fun v => if in_taylor v then taylor v else closed v) x.

(** The kernel as a batch evaluates it when its test passed at pass [n]. *)
Definition kernel_value (closed : R -> C) (coef : nat -> R) (n : nat) (x : R) : C :=
  if in_taylor x then taylor_partial coef (S n) x else closed x.

(** The passes at which the Phi and Psi tests of a batch pass, if both do. *)
Definition kernel_passes (x : list R) : option (nat * nat) :=
  let xx := np_select (map in_taylor x) x in
  let ns := seq 0 (MAX_TAYLOR_ITERATIONS + 1) in
  match first_converged phi_coef phi_bound xx ns,
        first_converged psi_coef psi_bound xx ns with
  | Some np, Some nq => Some (np, nq)
  | _, _ => None
  end.

(** ** The kernels in closed form *)

(** Number of terms an accumulator holds on entry to pass [n]: frozen
    at [S k] once it converged in pass [k]. *)
Definition terms_summed (n : nat) (conv : option nat) : nat :=
  match conv with Some k => S k | None => n end.

Definition is_some {A : Type} (o : option A) : bool :=
  match o with Some _ => true | None => false end.

(** The loop state of [_phi_and_psi x] on entry to pass [n], given the
    passes (if any) at which Phi and Psi converged. *)
Definition loop_state (x : list R) (n : nat) (fp fq : option nat)
  : taylor_state :=
  mk_taylor_state
    (merge_branches phi_closed (taylor_partial phi_coef (terms_summed n fp)) x)
    (merge_branches psi_closed (taylor_partial psi_coef (terms_summed n fq)) x)
    (is_some fp) (is_some fq)
    (map (fun v => Cpow (Ci * RtoC v) n) (np_select (map in_taylor x) x))
    (map (fun v => Rabs v ^ S n) (np_select (map in_taylor x) x))
    (/ INR (fact n)).

Definition advance (x : list R) (coef : nat -> R) (bound : nat -> R -> R)
    (n : nat) (conv : option nat) : option nat :=
  match conv with
  | Some k => Some k
  | None =>
      if batch_converged coef bound (np_select (map in_taylor x) x) n
      then Some n else None
  end.

Definition or_else (o1 o2 : option nat) : option nat :=
  match o1 with Some k => Some k | None => o2 end.

(** [_phi_and_psi] in closed form: it returns exactly when both batch
    tests pass at some pass [<= MAX_TAYLOR_ITERATIONS]; each Taylor-branch
    element then holds the terms up to the pass at which the whole
    sub-batch converged. *)
Definition phi_psi_closed_form (x : list R) : result (list C * list C) :=
  let xx := np_select (map in_taylor x) x in
  let ns := seq 0 (MAX_TAYLOR_ITERATIONS + 1) in
  match first_converged phi_coef phi_bound xx ns,
        first_converged psi_coef psi_bound xx ns with
  | Some np, Some nq =>
      Ok (merge_branches phi_closed (taylor_partial phi_coef (S np)) x,
          merge_branches psi_closed (taylor_partial psi_coef (S nq)) x)
  | _, _ => Raise phi_psi_error
  end.

Definition ambiguous_truth_error : exn :=
  mk_exn ValueError
    "The truth value of an array with more than one element is ambiguous. Use a.any() or a.all()".

(** [_lambda] in closed form, by the number of Taylor-branch elements. *)
Definition lambda_closed_form (x : list R) : result (list C) :=
  match np_select (map in_taylor x) x with
  | [] => Raise lambda_error
  | [v] =>
      match find (fun n => converged_at lambda_coef lambda_bound n v)
                 (seq 0 (MAX_TAYLOR_ITERATIONS + 1)) with
      | Some n =>
          if Nat.eqb n MAX_TAYLOR_ITERATIONS then Raise lambda_error
          else Ok (merge_branches lambda_closed
                     (taylor_partial lambda_coef (S n)) x)
      | None => Raise lambda_error
      end
  | _ :: _ :: _ => Raise ambiguous_truth_error
  end.

(** The loop state of [_lambda x] on entry to pass [n]. *)
Definition lambda_loop_state (x : list R) (n : nat) : lambda_state :=
  mk_lambda_state
    (merge_branches lambda_closed (taylor_partial lambda_coef n) x)
    (map (fun v => Cpow (Ci * RtoC v) n) (np_select (map in_taylor x) x))
    (map (fun v => Rabs v ^ S n) (np_select (map in_taylor x) x))
    (/ INR (fact n)).

(** What the loop of [_lambda x] returns from pass [n] on, by the size of
    the Taylor sub-batch. *)
Definition lambda_loop_outcome (x : list R) (ns : list nat) (last_n n_end : nat)
  : result (nat * list C) :=
  let unbroken :=
    Ok (List.last ns last_n,
        merge_branches lambda_closed (taylor_partial lambda_coef n_end) x) in
  match np_select (map in_taylor x) x with
  | [] => unbroken
  | [v] =>
      match find (fun k => converged_at lambda_coef lambda_bound k v) ns with
      | Some k =>
          Ok (k, merge_branches lambda_closed (taylor_partial lambda_coef (S k)) x)
      | None => unbroken
      end
  | _ :: _ :: _ =>
      match ns with
      | [] => unbroken
      | _ :: _ => Raise ambiguous_truth_error
      end
  end.

(** ** The formulas of the integral *)

(** [e^{i theta}], a complex number over a real, a real multiple. *)
Definition Cis (theta : R) : C := (cos theta, sin theta).
Definition Cdiv_real (z : C) (r : R) : C := (fst z / r, snd z / r).
Definition Cscale (r : R) (z : C) : C := (r * fst z, r * snd z).

(** [sign * e^{i t w} * (i v / t - d / t^2)] *)
Definition correction_formula (sign t w : R) (v d : C) : C :=
  Cscale sign (Cis (t * w) * (Cdiv_real (Ci * v) t - Cdiv_real d (t * t)))%C.

(** The sum of a list of complex numbers, accumulated from zero. *)
Definition Csum (l : list C) : C := fold_left Cadd l C0.

(** The contribution of the sub-interval [[w_k, w_k1]] at time [t]:
    [dw e^{i w_k t} (f_k Phi(-x) e^{ix} + f_k1 Phi(x)
                     - dw f'_k Psi(-x) e^{ix} + dw f'_k1 Psi(x))],
    with [dw = w_k1 - w_k] and [x = dw t]. *)
Definition filon_contribution (t w_k w_k1 : R) (f_k f_k1 d_k d_k1 : C)
    (Phi_x Psi_x Phi_minus_x Psi_minus_x : C) : C :=
  let dw := w_k1 - w_k in
  let x := dw * t in
  (RtoC dw * Cis (w_k * t)
   * (f_k * Phi_minus_x * Cis x + f_k1 * Phi_x
      - RtoC dw * d_k * Psi_minus_x * Cis x
      + RtoC dw * d_k1 * Psi_x))%C.

(** The kernel arguments [x = dw * t] of a grid of [n] nodes [W], one row
    per time. *)
Definition kernel_arguments (times : list R) (n : nat) (W : nat -> R)
  : list (list R) :=
  map (fun t => map (fun i => (W (S i) - W i) * t) (seq 0 (n - 1))) times.

(** The sum over the [n - 1] sub-intervals for time [t] and trailing
    position [j], the kernels having converged at the given passes. *)
Definition filon_sum_at (n : nat) (W : nat -> R) (F D : nat -> nat -> C)
    (np nq np' nq' : nat) (t : R) (j : nat) : C :=
  Csum (map (fun i =>
               let x := (W (S i) - W i) * t in
               filon_contribution t (W i) (W (S i))
                 (F i j) (F (S i) j) (D i j) (D (S i) j)
                 (kernel_value phi_closed phi_coef np x)
                 (kernel_value psi_closed psi_coef nq x)
                 (kernel_value phi_closed phi_coef np' (- x))
                 (kernel_value psi_closed psi_coef nq' (- x)))
            (seq 0 (n - 1))).

(** [acc += corr] when the flag is set. *)
Definition add_if (flag : bool) (acc corr : C) : C :=
  if flag then (acc + corr)%C else acc.

(** The entry of the integral for time [t] and trailing position [j]:
    the correction terms asked for, added in turn to zero, and the sum over
    the sub-intervals. *)
Definition integral_at (frequencies : list R) (F D : nat -> nat -> C)
    (pos neg : bool) (np nq np' nq' : nat) (t : R) (j : nat) : C :=
  let N := length frequencies in
  let W := fun i => 2 * PI * nth i frequencies 0 in
  (add_if neg
     (add_if pos C0
        (correction_formula 1 t (W (N - 1)%nat) (F (N - 1)%nat j) (D (N - 1)%nat j)))
     (correction_formula (-1) t (W 0%nat) (F 0%nat j) (D 0%nat j))
   + filon_sum_at N W F D np nq np' nq' t j)%C.

(** ** Claims as the specification states them *)

(** An array with elements in both branches. *)
Definition mixes_branches (x : list R) : Prop :=
  (exists v, In v x /\ in_taylor v = true)
  /\ (exists v, In v x /\ in_taylor v = false).




(** Every element of the Taylor branch has a magnitude of [2^-500] at
    least.  Below about [1e-307] the products of the convergence tests
    underflow in binary64 and the tests cannot pass; the idealisation by
    real numbers does not show this, so the statements that a call returns
    are made away from that range. *)
Definition clear_of_underflow (x : list R) : Prop :=
  forall v, In v x -> Rabs v < 1 -> / 2 ^ 500 <= Rabs v.

(** ** Auxiliary definitions of the proofs *)

(** The argument [eps / 256], about [8.7e-19]. *)
Definition tiny : R := float64_eps / 256.

(** The buffers a call of [_phi_and_psi] allocates, in order. *)
Definition kernel_frame (p q : list C) (xc xt : list R) (j : list C)
    (a e : list R) : store :=
  [BCplx p; BCplx q; BReal xc; BReal xt; BCplx j; BReal a; BReal e].

Definition frame_of (xc xt e : list R) (st : taylor_state) : store :=
  kernel_frame (phi st) (psi st) xc xt (jx_to_n st) (abs_x_to_n_plus_1 st) e.

(** ** Further definitions for the properties of the code *)

(** The complex conjugate, [np.conj]. *)
Definition Cconj (z : C) : C := (fst z, - snd z).

(** The partial sum [sum_{m<M} (ix)^m / m!] of the exponential series. *)
Definition exp_partial (M : nat) (x : R) : C := taylor_partial (fun _ => 1) M x.

(** The numerators of the closed forms, the exponential of each of their
    three terms being a parameter:
    [Phi(x) x^4 = -i x^3 e - 6i x (e + 1) + 12 (e - 1)] and
    [Psi(x) x^4 = x^2 e + 2i x (2e + 1) - 6 (e - 1)] at [e = e^{ix}]. *)
Definition phi_numerator (x : R) (e1 e2 e3 : C) : C :=
  ((- Ci) * RtoC (x ^ 3) * e1
   - (0, 6) * RtoC x * (e2 + RtoC 1)
   + RtoC 12 * (e3 - RtoC 1))%C.

Definition psi_numerator (x : R) (e1 e2 e3 : C) : C :=
  (RtoC (x ^ 2) * e1
   + (0, 2) * RtoC x * (RtoC 2 * e2 + RtoC 1)
   - RtoC 6 * (e3 - RtoC 1))%C.

(** * Part III: proofs *)

(** ** List lemmas for the array helpers *)

Lemma map2_map_map {A B D E : Type} (f : B -> D -> E) (g : A -> B) (h : A -> D) l :
  map2 f (map g l) (map h l) = map (fun v => f (g v) (h v)) l.
Proof. induction l as [|a l IH]; simpl; [reflexivity | now rewrite IH]. Qed.

Lemma np_select_map {A B : Type} (F : A -> B) mask (a : list A) :
  np_select mask (map F a) = map F (np_select mask a).
Proof.
  revert a; induction mask as [|m mask IH]; intros [|v a]; simpl; try reflexivity.
  destruct m; simpl; now rewrite IH.
Qed.

Lemma np_put_map {A B : Type} (t : A -> bool) (F G : A -> B) (x : list A) :
  np_put (map t x) (map F x) (map G (np_select (map t x) x))
  = map (fun v => if t v then G v else F v) x.
Proof.
  induction x as [|v x IH]; simpl; [reflexivity|].
  destruct (t v); simpl; now rewrite IH.
Qed.

Lemma np_select_In {A : Type} (t : A -> bool) (x : list A) v :
  In v (np_select (map t x) x) <-> In v x /\ t v = true.
Proof.
  induction x as [|a x IH]; simpl; [tauto|].
  destruct (t a) eqn:Ha; simpl; rewrite IH; split.
  - intros [->|[H1 H2]]; auto.
  - intros [[->|H1] H2]; auto.
  - intros [H1 H2]; auto.
  - intros [[->|H1] H2]; [congruence | auto].
Qed.

Lemma np_all_map {A : Type} (h : A -> bool) l :
  np_all (map h l) = forallb h l.
Proof. unfold np_all. induction l; simpl; [reflexivity | now rewrite IHl]. Qed.

Lemma forallb_ext_in {A : Type} (f g : A -> bool) l :
  (forall v, In v l -> f v = g v) -> forallb f l = forallb g l.
Proof.
  induction l as [|a l IH]; simpl; intros H; [reflexivity|].
  rewrite (H a) by auto. rewrite IH; auto.
Qed.

(** ** Complex arithmetic facts *)

Lemma C_eq (a b c d : R) : a = c -> b = d -> ((a, b) : C) = (c, d).
Proof. now intros -> ->. Qed.

Ltac csimpl :=
  unfold Cadd, Csub, Cmul, Copp, Cdiv, RtoC, Ci, C0, C1, Cre, Cim in *; simpl in *.

Ltac cring := csimpl; apply C_eq; ring.

Lemma Cadd_0_l z : (C0 + z)%C = z.
Proof. destruct z; cring. Qed.

Lemma INR_fact_neq_0' n : INR (fact n) <> 0.
Proof. apply INR_fact_neq_0. Qed.

Lemma inv_fact_step n : / INR (fact n) / (INR n + 1) = / INR (fact (S n)).
Proof.
  change (fact (S n)) with (S n * fact n)%nat.
  rewrite mult_INR, S_INR.
  pose proof (INR_fact_neq_0 n). pose proof (pos_INR n).
  field. split; lra.
Qed.

(** ** The convergence loop in closed form *)

Section LoopClosedForm.

Variable x : list R.
Let mask : list bool := map in_taylor x.
Let xx : list R := np_select mask x.
Let exp_abs_x : list R := map (fun v => exp (Rabs v)) xx.

Lemma accumulate_step (closed : R -> C) (coef : nat -> R) (c : R) (n : nat) :
  c = coef n ->
  np_put mask (merge_branches closed (taylor_partial coef n) x)
    (map2 Cadd
       (np_select mask (merge_branches closed (taylor_partial coef n) x))
       (map (fun j => RtoC c * j * RtoC (/ INR (fact n)))%C
            (map (fun v => Cpow (Ci * RtoC v) n) xx)))
  = merge_branches closed (taylor_partial coef (S n)) x.
Proof.
  intros ->. unfold merge_branches, xx, mask.
  rewrite np_select_map, map_map, map2_map_map, np_put_map.
  apply map_ext; intros v. destruct (in_taylor v); reflexivity.
Qed.

Lemma test_step (closed : R -> C) (coef : nat -> R) (bound : nat -> R -> R)
    (bf : R -> R -> R) (n : nat) :
  (forall v, bf (Rabs v ^ S n) (exp (Rabs v)) = bound n v) ->
  np_all
    (map2 (fun b m => Rltb b (float64_eps * m))
       (map2 bf (map (fun v => Rabs v ^ S n) xx) exp_abs_x)
       (np_min2
          (map (fun z => Rabs (Cre z))
             (np_select mask (merge_branches closed (taylor_partial coef (S n)) x)))
          (map (fun z => Rabs (Cim z))
             (np_select mask (merge_branches closed (taylor_partial coef (S n)) x)))))
  = batch_converged coef bound xx n.
Proof.
  intros Hb. unfold merge_branches, np_min2, exp_abs_x.
  rewrite np_select_map. fold xx.
  rewrite !map_map, !map2_map_map, np_all_map.
  unfold batch_converged. apply forallb_ext_in; intros v Hv.
  apply np_select_In in Hv. destruct Hv as [_ Hv].
  rewrite Hv, Hb. reflexivity.
Qed.

Lemma phi_psi_body_closed (n : nat) (fp fq : option nat) :
  phi_psi_body mask xx exp_abs_x n (loop_state x n fp fq)
  = loop_state x (S n) (advance x phi_coef phi_bound n fp)
                       (advance x psi_coef psi_bound n fq).
Proof.
  unfold phi_psi_body, loop_state, advance.
  change (np_select (map in_taylor x) x) with xx.
  cbn [phi psi phi_converged psi_converged jx_to_n abs_x_to_n_plus_1 inv_factorial].
  assert (Hjx : map2 Cmul (map (fun v => Cpow (Ci * RtoC v) n) xx)
                  (map (fun v => (Ci * RtoC v)%C) xx)
                = map (fun v => Cpow (Ci * RtoC v) (S n)) xx).
  { rewrite map2_map_map. reflexivity. }
  assert (Habs : map2 Rmult (map (fun v => Rabs v ^ S n) xx) (map Rabs xx)
                 = map (fun v => Rabs v ^ S (S n)) xx).
  { rewrite map2_map_map. apply map_ext; intros v. simpl. ring. }
  rewrite Hjx, Habs, inv_fact_step.
  assert (Hphi : forall v,
             2 * Rabs v ^ S n * exp (Rabs v) * / INR (fact n)
             / ((INR n + 1) * (INR n + 5)) = phi_bound n v) by reflexivity.
  assert (Hpsi : forall v,
             Rabs v ^ S n * exp (Rabs v) * / INR (fact n)
             / ((INR n + 1) * (INR n + 4) * (INR n + 5)) = psi_bound n v)
    by reflexivity.
  change ((INR n + 6) / ((INR n + 3) * (INR n + 4))) with (phi_coef n).
  change (- 1 / ((INR n + 3) * (INR n + 4))) with (psi_coef n).
  destruct fp as [kp|], fq as [kq|];
    cbn [is_some negb terms_summed];
    rewrite ?(accumulate_step phi_closed phi_coef _ n eq_refl);
    rewrite ?(accumulate_step psi_closed psi_coef _ n eq_refl);
    rewrite ?(test_step phi_closed phi_coef phi_bound
                (fun a e => 2 * a * e * / INR (fact n) / ((INR n + 1) * (INR n + 5)))
                n Hphi);
    rewrite ?(test_step psi_closed psi_coef psi_bound
                (fun a e => a * e * / INR (fact n)
                            / ((INR n + 1) * (INR n + 4) * (INR n + 5)))
                n Hpsi);
    repeat match goal with
           | |- context [batch_converged ?c ?b xx n] =>
               destruct (batch_converged c b xx n)
           end; reflexivity.
Qed.

End LoopClosedForm.

Lemma phi_psi_loop_closed (x : list R) (len : nat) :
  forall n fp fq,
    let xx := np_select (map in_taylor x) x in
    let st := phi_psi_loop (map in_taylor x) xx (map (fun v => exp (Rabs v)) xx)
                (seq n len) (loop_state x n fp fq) in
    let fp' := or_else fp (first_converged phi_coef phi_bound xx (seq n len)) in
    let fq' := or_else fq (first_converged psi_coef psi_bound xx (seq n len)) in
    phi st = merge_branches phi_closed
               (taylor_partial phi_coef (terms_summed (n + len) fp')) x
    /\ psi st = merge_branches psi_closed
                  (taylor_partial psi_coef (terms_summed (n + len) fq')) x
    /\ phi_converged st = is_some fp'
    /\ psi_converged st = is_some fq'.
Proof.
  induction len as [|len IH]; intros n fp fq; cbv zeta.
  - cbn [seq phi_psi_loop first_converged find].
    replace (n + 0)%nat with n by lia.
    destruct fp, fq; cbn; auto.
  - cbn [seq phi_psi_loop].
    destruct (phi_converged (loop_state x n fp fq)
              && psi_converged (loop_state x n fp fq)) eqn:Hbrk.
    + cbn in Hbrk. destruct fp, fq; try discriminate. cbn. auto.
    + rewrite phi_psi_body_closed.
      specialize (IH (S n) (advance x phi_coef phi_bound n fp)
                     (advance x psi_coef psi_bound n fq)).
      cbv zeta in IH.
      replace (n + S len)%nat with (S n + len)%nat by lia.
      assert (Hadv : forall coef bound f,
                 or_else (advance x coef bound n f)
                   (first_converged coef bound
                      (np_select (map in_taylor x) x) (seq (S n) len))
                 = or_else f
                     (first_converged coef bound
                        (np_select (map in_taylor x) x) (n :: seq (S n) len))).
      { intros coef bound [k|]; cbn; [reflexivity|].
        destruct (batch_converged coef bound _ n); reflexivity. }
      rewrite !Hadv in IH. exact IH.
Qed.

Lemma initial_state_closed (x : list R) :
  let not_mask := map negb (map in_taylor x) in
  let xx := np_select (map in_taylor x) x in
  mk_taylor_state
    (np_put not_mask (map (fun _ => C0) x) (map phi_closed (np_select not_mask x)))
    (np_put not_mask (map (fun _ => C0) (map (fun _ : R => C0) x))
       (map psi_closed (np_select not_mask x)))
    false false (map (fun _ => C1) xx) (map Rabs xx) 1
  = loop_state x 0 None None.
Proof.
  cbv zeta. unfold loop_state. cbn [terms_summed is_some].
  rewrite !map_map. rewrite !np_put_map.
  f_equal.
  - apply map_ext; intros v. destruct (in_taylor v); reflexivity.
  - apply map_ext; intros v. destruct (in_taylor v); reflexivity.
  - apply map_ext; intros v. simpl. ring.
  - simpl. now rewrite Rinv_1.
Qed.

Lemma phi_and_psi_closed (x : list R) :
  _phi_and_psi x = phi_psi_closed_form x.
Proof.
  unfold _phi_and_psi, phi_psi_closed_form.
  change (map (fun v => Rltb (Rabs v) 1) x) with (map in_taylor x).
  rewrite initial_state_closed.
  generalize (MAX_TAYLOR_ITERATIONS + 1)%nat; intros len.
  pose proof (phi_psi_loop_closed x len 0 None None) as H.
  cbv zeta in H. destruct H as (Hp & Hq & Hcp & Hcq).
  rewrite Hp, Hq, Hcp, Hcq. cbn [or_else].
  destruct (first_converged phi_coef phi_bound _ (seq 0 len)),
           (first_converged psi_coef psi_bound _ (seq 0 len)); reflexivity.
Qed.

(** ** The kernels at [x = 0] *)

Lemma Rltb_irrefl r : Rltb r r = false.
Proof. unfold Rltb. destruct (Rlt_dec r r) as [H|H]; [lra | reflexivity]. Qed.

Lemma in_taylor_0 : in_taylor 0 = true.
Proof.
  unfold in_taylor, Rltb. rewrite Rabs_R0.
  destruct (Rlt_dec 0 1); [reflexivity | lra].
Qed.

Lemma Cpow_zero_im n : Cim (Cpow (Ci * RtoC 0) n) = 0.
Proof.
  induction n as [|n IH]; [reflexivity|].
  cbn [Cpow]. csimpl. ring.
Qed.

Lemma taylor_term_zero_im coef n : Cim (taylor_term coef n 0) = 0.
Proof.
  unfold taylor_term. pose proof (Cpow_zero_im n) as H.
  destruct (Cpow (Ci * RtoC 0) n) as [a b]. csimpl. subst b. ring.
Qed.

Lemma taylor_partial_zero_im coef n : Cim (taylor_partial coef n 0) = 0.
Proof.
  induction n as [|n IH]; [reflexivity|].
  cbn [taylor_partial]. pose proof (taylor_term_zero_im coef n) as Ht.
  destruct (taylor_partial coef n 0), (taylor_term coef n 0).
  csimpl. subst. ring.
Qed.

(** At [x = 0] the test of every pass compares [0 < 0]. *)
Lemma never_converged_at_zero coef bound n :
  bound n 0 = 0 -> converged_at coef bound n 0 = false.
Proof.
  intros Hb. unfold converged_at. cbv zeta.
  rewrite Hb, taylor_partial_zero_im, Rabs_R0.
  rewrite Rmin_right by apply Rabs_pos.
  rewrite Rmult_0_r. apply Rltb_irrefl.
Qed.

Lemma phi_bound_zero n : phi_bound n 0 = 0.
Proof. unfold phi_bound. rewrite Rabs_R0. simpl. unfold Rdiv. ring. Qed.

Lemma psi_bound_zero n : psi_bound n 0 = 0.
Proof. unfold psi_bound. rewrite Rabs_R0. simpl. unfold Rdiv. ring. Qed.

Lemma forallb_false_in {A : Type} (f : A -> bool) l v :
  In v l -> f v = false -> forallb f l = false.
Proof.
  induction l as [|a l IH]; simpl; [tauto|].
  intros [->|H] Hf.
  - now rewrite Hf.
  - rewrite IH by assumption. apply andb_false_r.
Qed.

Lemma find_none_all {A : Type} (f : A -> bool) l :
  (forall a, f a = false) -> find f l = None.
Proof.
  intros H. induction l as [|a l IH]; simpl; [reflexivity|].
  now rewrite H.
Qed.

Lemma phi_psi_error_message :
  phi_psi_error
  = mk_exn RuntimeError
      "Phi and Psi calculation failed to converge after 1000 iterations".
Proof. reflexivity. Qed.

(** C10. An input array holding an element equal to [0] makes
    [_phi_and_psi] raise its non-convergence [RuntimeError]: the element
    goes to the Taylor branch, the imaginary part of its sum stays [0] and
    its remaining-term bound is [0], so the strict test of every one of
    the passes compares [0 < 0]; the loop runs out and the error is
    raised. *)
Theorem phi_and_psi_raises_at_zero (x : list R) :
  In 0 x ->
  _phi_and_psi x = Raise phi_psi_error
  /\ (forall n, batch_converged phi_coef phi_bound
                  (np_select (map in_taylor x) x) n = false)
  /\ exn_cls phi_psi_error = RuntimeError.
Proof.
  intros H0.
  assert (Hin : In 0 (np_select (map in_taylor x) x)).
  { apply np_select_In. split; [assumption | apply in_taylor_0]. }
  assert (Hphi : forall n, batch_converged phi_coef phi_bound
                             (np_select (map in_taylor x) x) n = false).
  { intros n. unfold batch_converged.
    apply forallb_false_in with (v := 0); [assumption|].
    apply never_converged_at_zero, phi_bound_zero. }
  split; [|split; [exact Hphi | reflexivity]].
  rewrite phi_and_psi_closed. unfold phi_psi_closed_form. cbv zeta.
  unfold first_converged at 1.
  rewrite (find_none_all _ _ Hphi). reflexivity.
Qed.

Lemma phi_and_psi_raises_at_zero_witness :
  In 0 [0]
  /\ _phi_and_psi [0] = Raise phi_psi_error.
Proof.
  split; [simpl; auto|].
  apply (phi_and_psi_raises_at_zero [0]). simpl; auto.
Defined.

Section LambdaClosedForm.

Variable x : list R.
Let mask : list bool := map in_taylor x.
Let xx : list R := np_select mask x.
Let exp_abs_x : list R := map (fun v => exp (Rabs v)) xx.

Lemma lambda_add_term_closed n :
  lambda_add_term mask n (lambda_loop_state x n)
  = merge_branches lambda_closed (taylor_partial lambda_coef (S n)) x.
Proof.
  unfold lambda_add_term, lambda_loop_state.
  change (np_select (map in_taylor x) x) with xx.
  cbn [l_result l_jx_to_n l_inv_factorial].
  apply (accumulate_step x lambda_closed lambda_coef). reflexivity.
Qed.

Lemma lambda_test_closed n :
  lambda_test mask exp_abs_x n (lambda_loop_state x n)
    (merge_branches lambda_closed (taylor_partial lambda_coef (S n)) x)
  = map (converged_at lambda_coef lambda_bound n) xx.
Proof.
  unfold lambda_test, lambda_loop_state, merge_branches, np_min2, exp_abs_x.
  change (np_select (map in_taylor x) x) with xx.
  cbn [l_abs_x_to_n_plus_1 l_inv_factorial].
  unfold mask. rewrite np_select_map. fold mask. fold xx.
  rewrite !map_map, !map2_map_map.
  apply map_ext_in; intros v Hv.
  apply np_select_In in Hv. destruct Hv as [_ Hv].
  rewrite Hv. reflexivity.
Qed.

Lemma lambda_update_closed n :
  lambda_update xx n (lambda_loop_state x n)
    (merge_branches lambda_closed (taylor_partial lambda_coef (S n)) x)
  = lambda_loop_state x (S n).
Proof.
  unfold lambda_update, lambda_loop_state.
  change (np_select (map in_taylor x) x) with xx.
  cbn [l_jx_to_n l_abs_x_to_n_plus_1 l_inv_factorial].
  rewrite !map2_map_map, inv_fact_step. f_equal.
  apply map_ext; intros v. simpl. ring.
Qed.

Lemma lambda_loop_closed len :
  forall n last_n,
    lambda_loop mask xx exp_abs_x (seq n len) last_n (lambda_loop_state x n)
    = lambda_loop_outcome x (seq n len) last_n (n + len).
Proof.
  induction len as [|len IH]; intros n last_n.
  - cbn [seq lambda_loop]. unfold lambda_loop_outcome.
    change (np_select (map in_taylor x) x) with xx.
    replace (n + 0)%nat with n by lia. cbn [List.last find].
    destruct xx as [|v [|w l]]; reflexivity.
  - cbn [seq lambda_loop]. cbv zeta.
    rewrite lambda_add_term_closed, lambda_test_closed, lambda_update_closed.
    rewrite IH. unfold lambda_loop_outcome.
    change (np_select (map in_taylor x) x) with xx.
    replace (S n + len)%nat with (n + S len)%nat by lia.
    assert (Hlast : forall (l : list nat) a d,
               List.last (a :: l) d = List.last l a).
    { intros l; induction l as [|b l IHl]; intros a d; [reflexivity|].
      change (List.last (a :: b :: l) d) with (List.last (b :: l) d).
      rewrite !IHl. reflexivity. }
    rewrite Hlast.
    destruct xx as [|v [|w l]]; cbn [map array_truth bind find].
    + reflexivity.
    + destruct (converged_at lambda_coef lambda_bound n v); reflexivity.
    + reflexivity.
Qed.

End LambdaClosedForm.

Lemma last_seq_0 len d : List.last (seq 0 (len + 1)) d = len.
Proof. rewrite Nat.add_1_r, seq_S, last_last. reflexivity. Qed.


Lemma lambda_closed_form_correct (x : list R) :
  _lambda x = lambda_closed_form x.
Proof.
  unfold _lambda, lambda_closed_form.
  change (map (fun v => Rltb (Rabs v) 1) x) with (map in_taylor x).
  assert (Hinit :
    mk_lambda_state
      (np_put (map negb (map in_taylor x)) (map (fun _ => C0) x)
         (map lambda_closed (np_select (map negb (map in_taylor x)) x)))
      (map (fun _ => C1) (np_select (map in_taylor x) x))
      (map Rabs (np_select (map in_taylor x) x)) 1
    = lambda_loop_state x 0).
  { unfold lambda_loop_state. rewrite !map_map, np_put_map. f_equal.
    - apply map_ext; intros v. destruct (in_taylor v); reflexivity.
    - apply map_ext; intros v. simpl. ring.
    - simpl. now rewrite Rinv_1. }
  rewrite Hinit, lambda_loop_closed. unfold lambda_loop_outcome.
  rewrite last_seq_0. cbn [Nat.add].
  destruct (np_select (map in_taylor x) x) as [|v [|w l]].
  - cbn [bind]. rewrite Nat.eqb_refl. reflexivity.
  - destruct (find _ _) as [k|]; cbn [bind].
    + reflexivity.
    + rewrite Nat.eqb_refl. reflexivity.
  - rewrite Nat.add_1_r. cbn [seq bind]. reflexivity.
Qed.

(** ** The asymptotic correction *)

Lemma Cdiv_RtoC (z : C) (r : R) : (z / RtoC r)%C = Cdiv_real z r.
Proof.
  destruct z as [a b]. unfold Cdiv, Cdiv_real, RtoC. simpl.
  destruct (Req_dec r 0) as [->|Hr].
  - replace (0 * 0 + 0 * 0) with 0 by ring.
    unfold Rdiv. rewrite Rinv_0. apply C_eq; ring.
  - apply C_eq; field; assumption.
Qed.

Lemma Cexp_imaginary (t w : R) : Cexp (Ci * RtoC t * RtoC w) = Cis (t * w).
Proof.
  replace (Ci * RtoC t * RtoC w)%C with ((0, t * w) : C) by cring.
  unfold Cexp, Cis. simpl. rewrite exp_0. apply C_eq; ring.
Qed.

Lemma correction_element (sign t w : R) (v d : C) :
  (RtoC sign * Cexp (Ci * RtoC t * RtoC w)
   * (Ci * v / RtoC t - d / RtoC (t ^ 2)))%C
  = correction_formula sign t w v d.
Proof.
  rewrite Cexp_imaginary, !Cdiv_RtoC.
  replace (t ^ 2) with (t * t) by ring.
  unfold correction_formula, Cscale.
  destruct (Cis (t * w)) as [c s], (Cdiv_real (Ci * v) t) as [a b],
           (Cdiv_real d (t * t)) as [p q].
  cring.
Qed.

Lemma map_combine_map2 {A B D : Type} (f : A -> B -> D) a b :
  map (fun p : A * B => f (fst p) (snd p)) (combine a b) = map2 f a b.
Proof.
  revert b; induction a as [|u a IH]; intros [|v b]; simpl; try reflexivity.
  now rewrite IH.
Qed.

(** C4. For times of shape [(M,)], a scalar [omega_end] and value and
    derivative blocks of one trailing shape, the correction is the array
    of shape [(M, ...trailing...)] whose entry for time [t] and trailing
    position [j] is [sign * e^{i t omega_end} * (i value_end[j] / t -
    derivative_end[j] / t^2)], with [sign = 1] towards plus infinity and
    [-1] towards minus infinity. *)
Theorem inf_correction_formula (times : list R) (omega_end : R)
    (value_end derivative_end : trail) (positive_inf : bool) :
  t_shape value_end = t_shape derivative_end ->
  exists a,
    fourier_integral_inf_correction times omega_end value_end derivative_end
      positive_inf = Ok a
    /\ shape a = length times :: t_shape value_end
    /\ rows a =
       map (fun t =>
              map2 (correction_formula (if positive_inf then 1 else -1) t omega_end)
                   (t_data value_end) (t_data derivative_end))
           times.
Proof.
  intros Hshape.
  unfold fourier_integral_inf_correction, pair_trailing.
  destruct (list_eq_dec Nat.eq_dec (t_shape value_end) (t_shape derivative_end))
    as [_|Hne]; [|contradiction].
  cbn [bind]. eexists. split; [reflexivity|]. split.
  - unfold shape. cbn [rows trailing]. now rewrite length_map.
  - cbn [rows]. apply map_ext; intros t.
    rewrite <- map_combine_map2. apply map_ext; intros [v d].
    cbn [fst snd]. apply correction_element.
Qed.

Lemma inf_correction_formula_witness :
  exists a,
    fourier_integral_inf_correction [1; 2] 3
      (mk_trail [2; 2]%nat [C1; Ci; C0; C1])
      (mk_trail [2; 2]%nat [C0; C1; Ci; C1]) false = Ok a
    /\ shape a = [2; 2; 2]%nat.
Proof.
  destruct (inf_correction_formula [1; 2] 3
              (mk_trail [2; 2]%nat [C1; Ci; C0; C1])
              (mk_trail [2; 2]%nat [C0; C1; Ci; C1]) false eq_refl)
    as (a & Ha & Hs & _).
  exists a. split; assumption.
Defined.

Lemma Rltb_true a b : a < b -> Rltb a b = true.
Proof. intros H. unfold Rltb. destruct (Rlt_dec a b); [reflexivity | contradiction]. Qed.

Lemma Rltb_false a b : ~ a < b -> Rltb a b = false.
Proof. intros H. unfold Rltb. destruct (Rlt_dec a b); [contradiction | reflexivity]. Qed.

(** ** [complex_pchip] recombines the two real results *)

Lemma recombine_re_im (re im : list (list R)) :
  Forall2 (fun r i => length r = length i) re im ->
  let out := map2 (map2 (fun a b => RtoC a + Ci * RtoC b)%C) re im in
  map (map Cre) out = re /\ map (map Cim) out = im.
Proof.
  intros H. cbv zeta.
  induction H as [|r i re im Hlen _ [IHre IHim]]; [split; reflexivity|].
  cbn [map2 map]. rewrite IHre, IHim.
  assert (Hrow : map Cre (map2 (fun a b => RtoC a + Ci * RtoC b)%C r i) = r
                 /\ map Cim (map2 (fun a b => RtoC a + Ci * RtoC b)%C r i) = i).
  { clear -Hlen. revert i Hlen.
    induction r as [|a r IH]; intros [|b i] Hlen; try discriminate;
      [split; reflexivity|].
    injection Hlen as Hlen. destruct (IH i Hlen) as [H1 H2].
    cbn [map2 map]. rewrite H1, H2. split; f_equal; csimpl; ring. }
  destruct Hrow as [-> ->]. split; reflexivity.
Qed.

(** C5. [complex_pchip] hands [Re(zi)] and [Im(zi)] to the real
    primitive with the same nodes, evaluation points, derivative order and
    axis, and returns the first result plus [i] times the second: the real
    part of what it returns is exactly the primitive's result on [Re(zi)]
    and the imaginary part the primitive's result on [Im(zi)]; with
    [derivative_order = 1] these are the primitive's first derivatives. *)
Theorem complex_pchip_recombines (pchip_interpolate : pchip_primitive)
    (xi : list R) (zi : list (list C)) (x : list R)
    (derivative_order axis : nat) (re im : list (list R)) :
  pchip_interpolate xi (map (map Cre) zi) x derivative_order axis = Ok re ->
  pchip_interpolate xi (map (map Cim) zi) x derivative_order axis = Ok im ->
  Forall2 (fun r i => length r = length i) re im ->
  exists out,
    complex_pchip pchip_interpolate xi zi x derivative_order axis = Ok out
    /\ out = map2 (map2 (fun a b => RtoC a + Ci * RtoC b)%C) re im
    /\ map (map Cre) out = re
    /\ map (map Cim) out = im.
Proof.
  intros Hre Him Hshape. unfold complex_pchip. rewrite Hre, Him. cbn [bind].
  eexists. split; [reflexivity|]. split; [reflexivity|].
  apply recombine_re_im; assumption.
Qed.

Lemma secant_pchip_unit_interval (a b : R) :
  secant_pchip [0; 1] [[a]; [b]] [0; 1] 1%nat 0%nat = Ok [[b - a]; [b - a]].
Proof.
  unfold secant_pchip, strictly_increasing, segment_slopes, np_diff.
  cbn [length Nat.ltb Nat.leb Nat.eqb negb tl map2 forallb removelast combine
       fst snd app List.last].
  rewrite Rltb_true by lra. cbn [andb negb].
  replace ((b - a) / (1 - 0)) with (b - a) by (field; lra).
  reflexivity.
Qed.

Lemma complex_pchip_recombines_witness :
  exists out,
    complex_pchip secant_pchip [0; 1] [[(1, 2)]; [(3, 5)]] [0; 1] 1 0 = Ok out
    /\ map (map Cre) out = [[3 - 1]; [3 - 1]]
    /\ map (map Cim) out = [[5 - 2]; [5 - 2]].
Proof.
  destruct (complex_pchip_recombines secant_pchip [0; 1]
              [[(1, 2)]; [(3, 5)]] [0; 1] 1 0
              [[3 - 1]; [3 - 1]] [[5 - 2]; [5 - 2]]
              (secant_pchip_unit_interval 1 3)
              (secant_pchip_unit_interval 2 5))
    as (out & Hout & _ & Hre & Him).
  - repeat constructor.
  - exists out. repeat split; assumption.
Defined.

(** ** Outcomes of the kernels *)

Lemma np_select_none {A : Type} (t : A -> bool) (x : list A) :
  (forall v, In v x -> t v = false) -> np_select (map t x) x = [].
Proof.
  induction x as [|a x IH]; intros H; simpl; [reflexivity|].
  rewrite (H a) by (left; reflexivity). apply IH.
  intros v Hv. apply H. right; assumption.
Qed.

Lemma in_taylor_2 : in_taylor 2 = false.
Proof.
  unfold in_taylor. apply Rltb_false.
  rewrite Rabs_right by lra. lra.
Qed.

Lemma lambda_error_message :
  lambda_error
  = mk_exn RuntimeError
      "Lambda calculation failed to converge after 1000 iterations".
Proof. reflexivity. Qed.


(** C2. [_lambda] evaluated where no element has [|x| < 1] (for
    instance at the scalar [2.0]): the closed form is computed, but the
    convergence loop then runs over an empty Taylor selection, its test is
    the truth value of an empty comparison array, the loop never breaks
    and the function raises its non-convergence [RuntimeError] instead of
    returning the closed form. *)
Theorem lambda_raises_without_taylor_element (x : list R) :
  (forall v, In v x -> in_taylor v = false) ->
  _lambda x
  = Raise (mk_exn RuntimeError
             "Lambda calculation failed to converge after 1000 iterations").
Proof.
  intros H. rewrite lambda_closed_form_correct. unfold lambda_closed_form.
  rewrite (np_select_none in_taylor x H). reflexivity.
Qed.

Lemma lambda_raises_without_taylor_element_witness :
  in_taylor 2 = false
  /\ _lambda [2]
     = Raise (mk_exn RuntimeError
                "Lambda calculation failed to converge after 1000 iterations").
Proof.
  split; [apply in_taylor_2|].
  apply (lambda_raises_without_taylor_element [2]).
  intros v [<-|[]]. apply in_taylor_2.
Defined.

(** *** The claim of C6 as stated, and where it fails *)




(** ** A small argument evaluated through the Taylor branch *)

Lemma float64_eps_bounds : 0 < float64_eps < 1.
Proof.
  unfold float64_eps.
  assert (H1 : 1 < 2 ^ 52) by (apply Rlt_pow_R1; [lra | lia]).
  assert (H2 : 0 < / 2 ^ 52) by (apply Rinv_0_lt_compat; lra).
  assert (H3 : 2 ^ 52 * / 2 ^ 52 = 1) by (apply Rinv_r; lra).
  split; [assumption | nra].
Qed.

Lemma taylor_partial_two (coef : nat -> R) (v : R) :
  taylor_partial coef 2 v = (coef 0%nat, coef 1%nat * v).
Proof.
  cbn [taylor_partial]. unfold taylor_term. cbn [Cpow fact Nat.mul Nat.add INR].
  csimpl. rewrite Rinv_1. apply C_eq; ring.
Qed.

(** The sum after the first pass is real, so the first test never
    passes. *)
Lemma first_pass_not_converged (coef : nat -> R) (bound : nat -> R -> R) (v : R) :
  0 <= bound 0%nat v -> converged_at coef bound 0 v = false.
Proof.
  intros Hb. unfold converged_at. cbv zeta.
  assert (Him : Cim (taylor_partial coef 1 v) = 0).
  { cbn [taylor_partial]. unfold taylor_term. cbn [Cpow fact INR].
    csimpl. ring. }
  rewrite Him, Rabs_R0, Rmin_right by apply Rabs_pos.
  rewrite Rmult_0_r. apply Rltb_false. lra.
Qed.

Lemma tiny_facts : 0 < tiny < 1 /\ Rabs tiny = tiny /\ exp tiny < 3.
Proof.
  pose proof float64_eps_bounds as [He0 He1].
  assert (Ht : 0 < tiny < 1) by (unfold tiny; lra).
  split; [assumption|]. split.
  - apply Rabs_right. lra.
  - apply Rlt_le_trans with (exp 1); [apply exp_increasing; lra | apply exp_le_3].
Qed.

Lemma in_taylor_tiny : in_taylor tiny = true.
Proof.
  destruct tiny_facts as (Ht & Habs & _).
  unfold in_taylor. rewrite Habs. apply Rltb_true. lra.
Qed.

Lemma passes_from_zero :
  seq 0 (MAX_TAYLOR_ITERATIONS + 1)
  = 0%nat :: 1%nat :: seq 2 (MAX_TAYLOR_ITERATIONS - 1).
Proof. reflexivity. Qed.

Lemma find_second (f : nat -> bool) (l : list nat) :
  f 0%nat = false -> f 1%nat = true -> find f (0%nat :: 1%nat :: l) = Some 1%nat.
Proof. intros H0 H1. cbn [find]. now rewrite H0, H1. Qed.

(** ** Index forms of the array operations *)

Lemma list_index {A : Type} (l : list A) (d : A) :
  l = map (fun k => nth k l d) (seq 0 (length l)).
Proof.
  induction l as [|a l IH]; [reflexivity|].
  cbn [length seq map nth]. f_equal.
  rewrite <- seq_shift, map_map. exact IH.
Qed.

Lemma tl_index {A : Type} (l : list A) (d : A) :
  tl l = map (fun k => nth (S k) l d) (seq 0 (length l - 1)).
Proof.
  destruct l as [|a l]; [reflexivity|].
  cbn [tl length]. rewrite Nat.sub_succ, Nat.sub_0_r.
  cbn [nth]. apply list_index.
Qed.

Lemma removelast_index {A : Type} (l : list A) (d : A) :
  removelast l = map (fun k => nth k l d) (seq 0 (length l - 1)).
Proof.
  induction l as [|a l IH]; [reflexivity|].
  destruct l as [|b l]; [reflexivity|].
  change (removelast (a :: b :: l)) with (a :: removelast (b :: l)).
  rewrite IH. cbn [length]. rewrite !Nat.sub_succ, !Nat.sub_0_r.
  cbn [seq map nth]. f_equal.
  rewrite <- seq_shift, map_map. reflexivity.
Qed.

Lemma np_diff_index (l : list R) :
  np_diff l = map (fun k => nth (S k) l 0 - nth k l 0) (seq 0 (length l - 1)).
Proof.
  unfold np_diff. induction l as [|a l IH]; [reflexivity|].
  destruct l as [|b l]; [reflexivity|].
  cbn [tl length] in *. rewrite !Nat.sub_succ, !Nat.sub_0_r in *.
  cbn [map2 seq map nth]. f_equal.
  rewrite <- seq_shift, map_map. exact IH.
Qed.

Lemma rows_index (k : nat) (r : list (list C)) (ks : list nat) (sh : nat -> nat) :
  well_shaped k r ->
  (forall i, In i ks -> (sh i < length r)%nat) ->
  map (fun i => nth (sh i) r []) ks
  = map (fun i => map (fun j => nth j (nth (sh i) r []) C0) (seq 0 k)) ks.
Proof.
  intros Hw Hks. apply map_ext_in; intros i Hi.
  assert (Hlen : length (nth (sh i) r []) = k).
  { unfold well_shaped in Hw. rewrite Forall_forall in Hw.
    apply Hw, nth_In, Hks, Hi. }
  pose proof (list_index (nth (sh i) r []) C0) as E.
  rewrite Hlen in E. exact E.
Qed.

Lemma repeat_index {A : Type} (a : A) (k : nat) :
  repeat a k = map (fun _ => a) (seq 0 k).
Proof.
  induction k as [|k IH]; [reflexivity|].
  cbn [repeat seq map]. f_equal.
  rewrite <- seq_shift, map_map. exact IH.
Qed.

Section Broadcasts.

Variables (times : list R) (ks js : list nat).

Lemma bc_f_t_index (op : C -> C -> C) (F : nat -> nat -> C) (S2 : R -> nat -> C) :
  bc_f_t op (map (fun k => map (F k) js) ks)
            (map (fun t => map (S2 t) ks) times)
  = map (fun t => map (fun k => map (fun j => op (F k j) (S2 t k)) js) ks) times.
Proof.
  unfold bc_f_t. rewrite map_map. apply map_ext; intros t.
  rewrite map2_map_map. apply map_ext; intros k.
  rewrite map_map. reflexivity.
Qed.

Lemma bc_g_t_index (op : C -> C -> C) (T : R -> nat -> nat -> C)
    (S2 : R -> nat -> C) :
  bc_g_t op (map (fun t => map (fun k => map (T t k) js) ks) times)
            (map (fun t => map (S2 t) ks) times)
  = map (fun t => map (fun k => map (fun j => op (T t k j) (S2 t k)) js) ks) times.
Proof.
  unfold bc_g_t. rewrite map2_map_map. apply map_ext; intros t.
  rewrite map2_map_map. apply map_ext; intros k.
  rewrite map_map. reflexivity.
Qed.

Lemma bc_t_g_index (op : C -> C -> C) (S2 : R -> nat -> C)
    (T : R -> nat -> nat -> C) :
  bc_t_g op (map (fun t => map (S2 t) ks) times)
            (map (fun t => map (fun k => map (T t k) js) ks) times)
  = map (fun t => map (fun k => map (fun j => op (S2 t k) (T t k j)) js) ks) times.
Proof.
  unfold bc_t_g. rewrite map2_map_map. apply map_ext; intros t.
  rewrite map2_map_map. apply map_ext; intros k.
  rewrite map_map. reflexivity.
Qed.

Lemma bc_g_g_index (op : C -> C -> C) (T T' : R -> nat -> nat -> C) :
  bc_g_g op (map (fun t => map (fun k => map (T t k) js) ks) times)
            (map (fun t => map (fun k => map (T' t k) js) ks) times)
  = map (fun t => map (fun k => map (fun j => op (T t k j) (T' t k j)) js) ks) times.
Proof.
  unfold bc_g_g. rewrite map2_map_map. apply map_ext; intros t.
  rewrite map2_map_map. apply map_ext; intros k.
  rewrite map2_map_map. reflexivity.
Qed.

Lemma bc_d_f_index (d : nat -> R) (F : nat -> nat -> C) :
  bc_d_f (map d ks) (map (fun k => map (F k) js) ks)
  = map (fun k => map (fun j => RtoC (d k) * F k j)%C js) ks.
Proof.
  unfold bc_d_f. rewrite map2_map_map. apply map_ext; intros k.
  rewrite map_map. reflexivity.
Qed.

Lemma bc_d_t_index (d : nat -> R) (S2 : R -> nat -> C) :
  bc_d_t (map d ks) (map (fun t => map (S2 t) ks) times)
  = map (fun t => map (fun k => RtoC (d k) * S2 t k)%C ks) times.
Proof.
  unfold bc_d_t. rewrite map_map. apply map_ext; intros t.
  rewrite map2_map_map. reflexivity.
Qed.

Lemma map_grid {A B : Type} (E : A -> B) (g : R -> nat -> A) :
  map (map E) (map (fun t => map (g t) ks) times)
  = map (fun t => map (fun k => E (g t k)) ks) times.
Proof.
  rewrite map_map. apply map_ext; intros t. rewrite map_map. reflexivity.
Qed.

End Broadcasts.

Lemma fold_rows_index (T : nat -> nat -> C) (ks js : list nat) (a : nat -> C) :
  fold_left (map2 Cadd) (map (fun k => map (T k) js) ks) (map a js)
  = map (fun j => fold_left Cadd (map (fun k => T k j) ks) (a j)) js.
Proof.
  revert a. induction ks as [|k ks IH]; intros a; [reflexivity|].
  cbn [map fold_left]. rewrite map2_map_map.
  rewrite (IH (fun j => (a j + T k j)%C)). reflexivity.
Qed.

Lemma np_sum_axis1_index (k : nat) (times : list R) (ks : list nat)
    (T : R -> nat -> nat -> C) :
  np_sum_axis1 k
    (map (fun t => map (fun i => map (T t i) (seq 0 k)) ks) times)
  = map (fun t => map (fun j => Csum (map (fun i => T t i j) ks)) (seq 0 k)) times.
Proof.
  unfold np_sum_axis1. rewrite map_map. apply map_ext; intros t.
  rewrite repeat_index. apply fold_rows_index.
Qed.

Lemma reshape_like_map {A B : Type} (F : A -> B) (x : list (list A)) :
  reshape_like x (map F (concat x)) = map (map F) x.
Proof.
  induction x as [|r x IH]; [reflexivity|].
  cbn [concat reshape_like map]. rewrite map_app.
  rewrite <- (length_map F r) at 1 2.
  rewrite firstn_app, Nat.sub_diag, firstn_all, firstn_O, app_nil_r.
  rewrite skipn_app, Nat.sub_diag, skipn_all, skipn_O. cbn [app].
  now rewrite IH.
Qed.

(** ** The frequency-axis sum in index form *)

Lemma phi_and_psi_2d_closed (x : list (list R)) :
  _phi_and_psi_2d x
  = match kernel_passes (concat x) with
    | Some (np, nq) =>
        Ok (map (map (kernel_value phi_closed phi_coef np)) x,
            map (map (kernel_value psi_closed psi_coef nq)) x)
    | None => Raise phi_psi_error
    end.
Proof.
  unfold _phi_and_psi_2d, kernel_passes. rewrite phi_and_psi_closed.
  unfold phi_psi_closed_form. cbv zeta.
  destruct (first_converged phi_coef phi_bound _ _) as [np|]; [|reflexivity].
  destruct (first_converged psi_coef psi_bound _ _) as [nq|]; [|reflexivity].
  cbn [bind]. unfold merge_branches.
  change (fun v => if in_taylor v then taylor_partial phi_coef (S np) v
                   else phi_closed v)
    with (kernel_value phi_closed phi_coef np).
  change (fun v => if in_taylor v then taylor_partial psi_coef (S nq) v
                   else psi_closed v)
    with (kernel_value psi_closed psi_coef nq).
  rewrite !reshape_like_map. reflexivity.
Qed.

Lemma nth_map_seq {A : Type} (f : nat -> A) (n i : nat) (d : A) :
  (i < n)%nat -> nth i (map f (seq 0 n)) d = f i.
Proof.
  intros H. rewrite (nth_indep _ d (f 0%nat)) by now rewrite length_map, length_seq.
  rewrite map_nth, seq_nth by assumption. reflexivity.
Qed.

Lemma removelast_map_seq {A : Type} (f : nat -> A) (n : nat) :
  removelast (map f (seq 0 n)) = map f (seq 0 (n - 1)).
Proof.
  destruct n as [|n]; [reflexivity|].
  rewrite (removelast_index _ (f 0%nat)), length_map, length_seq.
  apply map_ext_in; intros i Hi. apply in_seq in Hi.
  apply nth_map_seq. lia.
Qed.

Lemma tl_map_seq {A : Type} (f : nat -> A) (n : nat) :
  tl (map f (seq 0 n)) = map (fun i => f (S i)) (seq 0 (n - 1)).
Proof.
  destruct n as [|n]; [reflexivity|].
  rewrite (tl_index _ (f 0%nat)), length_map, length_seq.
  apply map_ext_in; intros i Hi. apply in_seq in Hi.
  apply nth_map_seq. lia.
Qed.

Lemma np_diff_map_seq (W : nat -> R) (n : nat) :
  np_diff (map W (seq 0 n)) = map (fun i => W (S i) - W i) (seq 0 (n - 1)).
Proof.
  rewrite np_diff_index, length_map, length_seq.
  apply map_ext_in; intros i Hi. apply in_seq in Hi.
  rewrite !nth_map_seq by lia. reflexivity.
Qed.

Section FilonSum.

Variables (times : list R) (n k : nat).
Variables (W : nat -> R) (F D : nat -> nat -> C).

Lemma Cexp_i (v : R) : Cexp (Ci * RtoC v) = Cis v.
Proof.
  replace (Ci * RtoC v)%C with ((0, v) : C) by cring.
  unfold Cexp, Cis. simpl. rewrite exp_0. apply C_eq; ring.
Qed.

Lemma filon_sum_closed :
  filon_sum times (map W (seq 0 n))
    (map (fun i => map (F i) (seq 0 k)) (seq 0 n))
    (map (fun i => map (D i) (seq 0 k)) (seq 0 n)) k
  = match kernel_passes (concat (kernel_arguments times n W)),
          kernel_passes (concat (map (map Ropp) (kernel_arguments times n W))) with
    | Some (np, nq), Some (np', nq') =>
        Ok (map (fun t => map (filon_sum_at n W F D np nq np' nq' t) (seq 0 k))
                times)
    | _, _ => Raise phi_psi_error
    end.
Proof.
  unfold filon_sum, filon_summand, kernel_argument_grid. cbv zeta.
  rewrite np_diff_map_seq, !removelast_map_seq, !tl_map_seq.
  assert (Hx : map (fun t => map (fun dw => dw * t)
                              (map (fun i => W (S i) - W i) (seq 0 (n - 1)))) times
               = kernel_arguments times n W).
  { unfold kernel_arguments. apply map_ext; intros t. apply map_map. }
  rewrite Hx. clear Hx.
  assert (He : map (fun t => map (fun w => Cexp (Ci * RtoC w * RtoC t))
                              (map W (seq 0 (n - 1)))) times
               = map (fun t => map (fun i => Cis (W i * t)) (seq 0 (n - 1))) times).
  { apply map_ext; intros t. rewrite map_map. apply map_ext; intros i.
    apply Cexp_imaginary. }
  rewrite He. clear He.
  rewrite !phi_and_psi_2d_closed.
  destruct (kernel_passes (concat (kernel_arguments times n W))) as [[np nq]|];
    [|reflexivity].
  cbn [bind].
  destruct (kernel_passes (concat (map (map Ropp) (kernel_arguments times n W))))
    as [[np' nq']|]; [|reflexivity].
  cbn [bind]. f_equal.
  unfold kernel_arguments. rewrite !map_grid.
  rewrite !bc_d_f_index, !bc_f_t_index, !bc_g_t_index, bc_d_t_index.
  rewrite !bc_g_g_index, bc_t_g_index, np_sum_axis1_index.
  apply map_ext; intros t. apply map_ext; intros j.
  unfold filon_sum_at. f_equal. apply map_ext; intros i.
  unfold filon_contribution. cbv zeta. rewrite Cexp_i. reflexivity.
Qed.

End FilonSum.

(** ** The integral without correction terms *)

Lemma omegas_index (frequencies : list R) :
  map (fun f => 2 * PI * f) frequencies
  = map (fun i => 2 * PI * nth i frequencies 0) (seq 0 (length frequencies)).
Proof.
  rewrite (list_index frequencies 0) at 1. rewrite map_map. reflexivity.
Qed.

Lemma rows_index_full (k : nat) (r : list (list C)) :
  well_shaped k r ->
  r = map (fun i => map (fun j => nth j (nth i r []) C0) (seq 0 k))
          (seq 0 (length r)).
Proof.
  intros Hw. rewrite (list_index r []) at 1.
  apply (rows_index k r (seq 0 (length r)) (fun i => i) Hw).
  intros i Hi. apply in_seq in Hi. lia.
Qed.

Lemma add_to_zeros (k : nat) (times : list R) (g : R -> nat -> C) :
  map2 (map2 Cadd) (map (fun _ => repeat C0 k) times)
       (map (fun t => map (g t) (seq 0 k)) times)
  = map (fun t => map (g t) (seq 0 k)) times.
Proof.
  rewrite map2_map_map. apply map_ext; intros t.
  rewrite repeat_index, map2_map_map. apply map_ext; intros j.
  apply Cadd_0_l.
Qed.

(** C1. With both correction flags off, the array returned for a
    frequency grid of [N] nodes is, for every time [t] and every trailing
    position [j], the sum over the [N - 1] sub-intervals of
    [dw_k e^{i w_k t} (f_k Phi(-x) e^{ix} + f_{k+1} Phi(x)
       - dw_k f'_k Psi(-x) e^{ix} + dw_k f'_{k+1} Psi(x))], [x = dw_k t],
    where [w = 2 pi f], [f_k] is the sample and [f'_k] the derivative
    [complex_pchip] returns at node [k], and Phi, Psi are the kernels as
    evaluated on the batches [x] and [-x] (which must converge). *)
Theorem base_integral_is_filon_sum (pchip_interpolate : pchip_primitive)
    (times frequencies : list R) (func_values : ndarray)
    (func_derivatives : list (list C)) (np nq np' nq' : nat) :
  let N := length frequencies in
  let K := np_prod (trailing func_values) in
  let omegas := map (fun f => 2 * PI * f) frequencies in
  let w := fun i => 2 * PI * nth i frequencies 0 in
  let f := fun i j => nth j (nth i (rows func_values) []) C0 in
  let f' := fun i j => nth j (nth i func_derivatives []) C0 in
  let x := kernel_arguments times N w in
  length (rows func_values) = N ->
  well_shaped K (rows func_values) ->
  complex_pchip pchip_interpolate omegas (rows func_values) omegas 1 0
  = Ok func_derivatives ->
  length func_derivatives = N ->
  well_shaped K func_derivatives ->
  kernel_passes (concat x) = Some (np, nq) ->
  kernel_passes (concat (map (map Ropp) x)) = Some (np', nq') ->
  fourier_integral_fixed_sampling_pchip pchip_interpolate times frequencies
    func_values false false
  = Ok (mk_ndarray (trailing func_values)
          (map (fun t => map (filon_sum_at N w f f' np nq np' nq' t) (seq 0 K))
               times)).
Proof.
  cbv zeta. intros Hlen Hw Hpchip Hdlen Hdw Hk Hk'.
  unfold fourier_integral_fixed_sampling_pchip. cbv zeta.
  rewrite Hpchip. cbn [bind].
  rewrite omegas_index.
  rewrite (rows_index_full _ _ Hw) at 1. rewrite Hlen.
  rewrite (rows_index_full _ _ Hdw) at 1. rewrite Hdlen.
  rewrite filon_sum_closed, Hk, Hk'. cbn [bind].
  unfold iadd. cbn [rows trailing]. f_equal. f_equal.
  apply add_to_zeros.
Qed.

Lemma secant_pchip_two_nodes (a b u v : R) :
  a < b ->
  secant_pchip [a; b] [[u]; [v]] [a; b] 1%nat 0%nat
  = Ok [[(v - u) / (b - a)]; [(v - u) / (b - a)]].
Proof.
  intros Hab.
  unfold secant_pchip, strictly_increasing, segment_slopes, np_diff.
  cbn [length Nat.ltb Nat.leb Nat.eqb negb tl map2 forallb removelast combine
       fst snd app List.last].
  rewrite Rltb_true by lra. reflexivity.
Qed.

Lemma two_pi_gt_1 : 1 < 2 * PI * 2 - 2 * PI * 1.
Proof. pose proof PI2_3_2. lra. Qed.

(** A batch without Taylor-branch element passes both tests at once. *)
Lemma kernel_passes_closed_only (x : list R) :
  (forall v, In v x -> in_taylor v = false) -> kernel_passes x = Some (0%nat, 0%nat).
Proof.
  intros H. unfold kernel_passes. cbv zeta.
  rewrite (np_select_none in_taylor x H), passes_from_zero. reflexivity.
Qed.

Lemma base_integral_is_filon_sum_witness :
  exists d0 : C,
    fourier_integral_fixed_sampling_pchip secant_pchip [1] [1; 2]
      (mk_ndarray [] [[C1]; [Ci]]) false false
    = Ok (mk_ndarray []
            [[filon_sum_at 2 (fun i => 2 * PI * nth i [1; 2] 0)
                (fun i j => nth j (nth i [[C1]; [Ci]] []) C0)
                (fun i j => nth j (nth i [[d0]; [d0]] []) C0)
                0 0 0 0 1 0]]).
Proof.
  pose proof two_pi_gt_1 as Hpi.
  set (d := (0 - 1) / (2 * PI * 2 - 2 * PI * 1)).
  set (e := (1 - 0) / (2 * PI * 2 - 2 * PI * 1)).
  exists (RtoC d + Ci * RtoC e)%C.
  apply (base_integral_is_filon_sum secant_pchip [1] [1; 2]
           (mk_ndarray [] [[C1]; [Ci]])
           [[(RtoC d + Ci * RtoC e)%C]; [(RtoC d + Ci * RtoC e)%C]]
           0 0 0 0).
  - reflexivity.
  - repeat constructor.
  - unfold complex_pchip. cbn [rows map Cre Cim C1 Ci fst snd].
    rewrite !secant_pchip_two_nodes by lra. reflexivity.
  - reflexivity.
  - repeat constructor.
  - apply kernel_passes_closed_only. cbn.
    intros v [<-|[]]. unfold in_taylor. apply Rltb_false.
    rewrite Rabs_right by lra. lra.
  - apply kernel_passes_closed_only. cbn.
    intros v [<-|[]]. unfold in_taylor. apply Rltb_false.
    rewrite Rabs_Ropp, Rabs_right by lra. lra.
Defined.

(** ** The integral with its correction terms, in index form *)

Lemma get_last_map_seq {A : Type} (f : nat -> A) (n : nat) :
  (1 <= n)%nat -> get_last (map f (seq 0 n)) = Ok (f (n - 1)%nat).
Proof.
  intros H. destruct n as [|n]; [lia|].
  unfold get_last. rewrite seq_S, map_app, rev_app_distr. cbn.
  now rewrite Nat.sub_0_r.
Qed.

Lemma get_first_map_seq {A : Type} (f : nat -> A) (n : nat) :
  (1 <= n)%nat -> get_first (map f (seq 0 n)) = Ok (f 0%nat).
Proof. intros H. destruct n as [|n]; [lia | reflexivity]. Qed.

Lemma combine_map_map {A B D : Type} (f : A -> B) (g : A -> D) (l : list A) :
  combine (map f l) (map g l) = map (fun a => (f a, g a)) l.
Proof. induction l as [|a l IH]; [reflexivity | cbn; now rewrite IH]. Qed.

Section IntegralClosedForm.

Variable pchip_interpolate : pchip_primitive.
Variables (times frequencies : list R) (shp : list nat).
Variables (F D : nat -> nat -> C).

Let N : nat := length frequencies.
Let K : nat := np_prod shp.
Let W : nat -> R := fun i => 2 * PI * nth i frequencies 0.
Let omegas : list R := map (fun f => 2 * PI * f) frequencies.

Lemma correction_closed (i : nat) (positive_inf : bool) :
  fourier_integral_inf_correction times (W i)
    (mk_trail shp (map (F i) (seq 0 K)))
    (mk_trail shp (map (D i) (seq 0 K))) positive_inf
  = Ok (mk_ndarray shp
          (map (fun t =>
                  map (fun j =>
                         correction_formula (if positive_inf then 1 else -1)
                           t (W i) (F i j) (D i j))
                      (seq 0 K))
               times)).
Proof.
  unfold fourier_integral_inf_correction, pair_trailing. cbn [t_shape t_data].
  destruct (list_eq_dec Nat.eq_dec shp shp) as [_|Hne]; [|contradiction].
  cbn [bind]. f_equal. f_equal. apply map_ext; intros t.
  rewrite combine_map_map, map_map. apply map_ext; intros j.
  cbn [fst snd]. apply correction_element.
Qed.

Lemma fourier_integral_closed (pos neg : bool) :
  (1 <= N)%nat ->
  complex_pchip pchip_interpolate omegas
    (map (fun i => map (F i) (seq 0 K)) (seq 0 N)) omegas 1 0
  = Ok (map (fun i => map (D i) (seq 0 K)) (seq 0 N)) ->
  fourier_integral_fixed_sampling_pchip pchip_interpolate times frequencies
    (mk_ndarray shp (map (fun i => map (F i) (seq 0 K)) (seq 0 N))) pos neg
  = match kernel_passes (concat (kernel_arguments times N W)),
          kernel_passes (concat (map (map Ropp) (kernel_arguments times N W))) with
    | Some (np, nq), Some (np', nq') =>
        Ok (mk_ndarray shp
              (map (fun t =>
                      map (integral_at frequencies F D pos neg np nq np' nq' t)
                          (seq 0 K))
                   times))
    | _, _ => Raise phi_psi_error
    end.
Proof.
  intros HN Hpchip.
  unfold fourier_integral_fixed_sampling_pchip. cbv zeta.
  cbn [rows trailing]. fold omegas K. rewrite Hpchip. cbn [bind].
  unfold omegas. rewrite omegas_index. fold N W.
  rewrite !get_last_map_seq, !get_first_map_seq by assumption.
  rewrite filon_sum_closed.
  assert (Hpos :
    (if pos then
       omega_end <- Ok (W (N - 1)) ;;
       value_end <- Ok (map (F (N - 1)%nat) (seq 0 K)) ;;
       derivative_end <- Ok (map (D (N - 1)%nat) (seq 0 K)) ;;
       corr <- fourier_integral_inf_correction times omega_end
                 (mk_trail shp value_end) (mk_trail shp derivative_end) true ;;
       Ok (iadd (mk_ndarray shp (map (fun _ => repeat C0 K) times)) corr)
     else Ok (mk_ndarray shp (map (fun _ => repeat C0 K) times)))
    = Ok (mk_ndarray shp
            (map (fun t =>
                    map (fun j =>
                           add_if pos C0
                             (correction_formula 1 t (W (N - 1))
                                (F (N - 1)%nat j) (D (N - 1)%nat j)))
                        (seq 0 K)) times))).
  { destruct pos; cbn [bind add_if].
    - rewrite correction_closed. cbn [bind]. unfold iadd. cbn [rows trailing].
      f_equal. f_equal. rewrite map2_map_map. apply map_ext; intros t.
      rewrite repeat_index, map2_map_map. reflexivity.
    - f_equal. f_equal. apply map_ext; intros t. apply repeat_index. }
  rewrite Hpos. clear Hpos. cbn [bind].
  destruct neg; cbn [bind].
  - rewrite correction_closed. cbn [bind].
    destruct (kernel_passes (concat (kernel_arguments times N W)))
      as [[np nq]|]; [|reflexivity].
    destruct (kernel_passes (concat (map (map Ropp) (kernel_arguments times N W))))
      as [[np' nq']|]; [|reflexivity].
    cbn [bind]. unfold iadd. cbn [rows trailing]. f_equal. f_equal.
    rewrite !map2_map_map. apply map_ext; intros t.
    rewrite !map2_map_map. reflexivity.
  - destruct (kernel_passes (concat (kernel_arguments times N W)))
      as [[np nq]|]; [|reflexivity].
    destruct (kernel_passes (concat (map (map Ropp) (kernel_arguments times N W))))
      as [[np' nq']|]; [|reflexivity].
    cbn [bind]. unfold iadd. cbn [rows trailing]. f_equal. f_equal.
    rewrite !map2_map_map. apply map_ext; intros t.
    rewrite !map2_map_map. reflexivity.
Qed.

End IntegralClosedForm.

(** ** Scaling a scalar sample array into a trailing block *)

Lemma correction_formula_scale (c : C) (sign t w : R) (v d : C) :
  correction_formula sign t w (c * v) (c * d)
  = (c * correction_formula sign t w v d)%C.
Proof.
  unfold correction_formula, Cscale, Cdiv_real.
  destruct (Cis (t * w)) as [e1 e2], c as [c1 c2], v as [v1 v2], d as [d1 d2].
  csimpl. unfold Rdiv. apply C_eq; ring.
Qed.

Lemma filon_contribution_scale (c : C) (t w_k w_k1 : R)
    (f_k f_k1 d_k d_k1 p q pm qm : C) :
  filon_contribution t w_k w_k1 (c * f_k) (c * f_k1) (c * d_k) (c * d_k1) p q pm qm
  = (c * filon_contribution t w_k w_k1 f_k f_k1 d_k d_k1 p q pm qm)%C.
Proof.
  unfold filon_contribution. cbv zeta.
  destruct (Cis (w_k * t)) as [a1 a2], (Cis ((w_k1 - w_k) * t)) as [b1 b2].
  destruct c, f_k, f_k1, d_k, d_k1, p, q, pm, qm.
  csimpl. apply C_eq; ring.
Qed.

Lemma Csum_scale {A : Type} (c : C) (h : A -> C) (l : list A) :
  Csum (map (fun i => c * h i)%C l) = (c * Csum (map h l))%C.
Proof.
  unfold Csum.
  assert (H : forall a, fold_left Cadd (map (fun i => c * h i)%C l) (c * a)%C
                        = (c * fold_left Cadd (map h l) a)%C).
  { induction l as [|i l IH]; intros a; [reflexivity|].
    cbn [map fold_left]. rewrite <- IH. f_equal.
    destruct c, a, (h i). cring. }
  rewrite <- H. f_equal. destruct c. cring.
Qed.

Lemma integral_at_scale (frequencies : list R) (c : C) (F D F' D' : nat -> nat -> C)
    (pos neg : bool) (np nq np' nq' : nat) (t : R) (j : nat) :
  (forall i, F' i j = (c * F i 0%nat)%C) ->
  (forall i, D' i j = (c * D i 0%nat)%C) ->
  integral_at frequencies F' D' pos neg np nq np' nq' t j
  = (c * integral_at frequencies F D pos neg np nq np' nq' t 0)%C.
Proof.
  intros HF HD. unfold integral_at.
  assert (Hsum :
    filon_sum_at (length frequencies) (fun i => 2 * PI * nth i frequencies 0)
      F' D' np nq np' nq' t j
    = Cmul c (filon_sum_at (length frequencies)
                (fun i => 2 * PI * nth i frequencies 0) F D np nq np' nq' t 0)).
  { unfold filon_sum_at. rewrite <- Csum_scale. f_equal.
    apply map_ext; intros i. cbv zeta.
    rewrite !HF, !HD. apply filon_contribution_scale. }
  rewrite Hsum, !HF, !HD, !correction_formula_scale.
  generalize (filon_sum_at (length frequencies)
                (fun i => 2 * PI * nth i frequencies 0) F D np nq np' nq' t 0).
  generalize (correction_formula 1 t
                (2 * PI * nth (length frequencies - 1) frequencies 0)
                (F (length frequencies - 1)%nat 0%nat)
                (D (length frequencies - 1)%nat 0%nat)).
  generalize (correction_formula (-1) t (2 * PI * nth 0 frequencies 0)
                (F 0%nat 0%nat) (D 0%nat 0%nat)).
  intros [a1 a2] [b1 b2] [s1 s2]. destruct c as [c1 c2].
  destruct pos, neg; unfold add_if; cring.
Qed.

Lemma scalar_rows_index (g : list C) :
  map (fun v => [v]) g
  = map (fun i => map (fun _ : nat => nth i g C0) (seq 0 (np_prod [])))
        (seq 0 (length g)).
Proof. rewrite (list_index g C0) at 1. rewrite map_map. reflexivity. Qed.

Lemma scaled_rows_index (cs g : list C) :
  map (fun v => map (fun c => c * v)%C cs) g
  = map (fun i => map (fun j => nth j cs C0 * nth i g C0)%C (seq 0 (length cs)))
        (seq 0 (length g)).
Proof.
  rewrite (list_index g C0) at 1. rewrite map_map.
  apply map_ext; intros i.
  rewrite (list_index cs C0) at 1. rewrite map_map. reflexivity.
Qed.

(** C9. Samples that are a scalar sample array [g] multiplied, position
    by position of a trailing block of shape [s] (such as [(2, 2)]), by
    constant factors [cs], with derivative estimates scaled alike: the
    integral has shape [(M, ...s...)], and its entry at each trailing
    position is the scalar-case integral for [g] multiplied by the factor
    of that position; when the scalar case raises, so does the block
    case. *)
Theorem trailing_block_scales_scalar_case (pchip_interpolate : pchip_primitive)
    (times frequencies : list R) (g d : list C) (s : list nat) (cs : list C)
    (pos neg : bool) :
  let omegas := map (fun f => 2 * PI * f) frequencies in
  let scalar_case := map (fun v => [v]) in
  let block_case := map (fun v => map (fun c => c * v)%C cs) in
  (1 <= length frequencies)%nat ->
  length g = length frequencies ->
  length d = length frequencies ->
  np_prod s = length cs ->
  complex_pchip pchip_interpolate omegas (scalar_case g) omegas 1 0
  = Ok (scalar_case d) ->
  complex_pchip pchip_interpolate omegas (block_case g) omegas 1 0
  = Ok (block_case d) ->
  match fourier_integral_fixed_sampling_pchip pchip_interpolate times frequencies
          (mk_ndarray [] (scalar_case g)) pos neg with
  | Ok r =>
      exists r',
        fourier_integral_fixed_sampling_pchip pchip_interpolate times frequencies
          (mk_ndarray s (block_case g)) pos neg = Ok r'
        /\ shape r' = length times :: s
        /\ rows r' = map (fun row => map (fun c => c * hd C0 row)%C cs) (rows r)
  | Raise e =>
      fourier_integral_fixed_sampling_pchip pchip_interpolate times frequencies
        (mk_ndarray s (block_case g)) pos neg = Raise e
  end.
Proof.
  cbv zeta. intros HN Hg Hd Hs Hscalar Hblock.
  rewrite scalar_rows_index, Hg in Hscalar |- *.
  rewrite (scalar_rows_index d), Hd in Hscalar.
  rewrite scaled_rows_index, Hg, <- Hs in Hblock |- *.
  rewrite (scaled_rows_index cs d), Hd, <- Hs in Hblock.
  rewrite (fourier_integral_closed pchip_interpolate times frequencies []
             (fun i _ => nth i g C0) (fun i _ => nth i d C0) pos neg HN Hscalar).
  rewrite (fourier_integral_closed pchip_interpolate times frequencies s
             (fun i j => nth j cs C0 * nth i g C0)%C
             (fun i j => nth j cs C0 * nth i d C0)%C pos neg HN Hblock).
  destruct (kernel_passes _) as [[np nq]|]; [|reflexivity].
  destruct (kernel_passes _) as [[np' nq']|]; [|reflexivity].
  eexists. split; [reflexivity|]. split.
  - unfold shape. cbn [rows trailing]. now rewrite length_map.
  - cbn [rows]. rewrite map_map. apply map_ext; intros t.
    cbn [np_prod fold_right seq map hd]. rewrite Hs.
    rewrite (list_index cs C0) at 2. rewrite map_map.
    apply map_ext; intros j.
    apply integral_at_scale; reflexivity.
Qed.

Lemma secant_pchip_two_rows (a b : R) (r0 r1 : list R) :
  a < b ->
  secant_pchip [a; b] [r0; r1] [a; b] 1%nat 0%nat
  = Ok [map2 (fun u v => (v - u) / (b - a)) r0 r1;
        map2 (fun u v => (v - u) / (b - a)) r0 r1].
Proof.
  intros Hab.
  unfold secant_pchip, strictly_increasing, segment_slopes, np_diff.
  cbn [length Nat.ltb Nat.leb Nat.eqb negb tl map2 forallb removelast combine
       fst snd app List.last].
  rewrite Rltb_true by lra. reflexivity.
Qed.

Lemma kernel_passes_two_nodes :
  kernel_passes
    (concat (kernel_arguments [1] 2 (fun i => 2 * PI * nth i [1; 2] 0)))
  = Some (0%nat, 0%nat)
  /\ kernel_passes
       (concat (map (map Ropp)
                  (kernel_arguments [1] 2 (fun i => 2 * PI * nth i [1; 2] 0))))
     = Some (0%nat, 0%nat).
Proof.
  pose proof two_pi_gt_1 as Hpi.
  split; apply kernel_passes_closed_only; cbn;
    intros v [<-|[]]; unfold in_taylor; apply Rltb_false.
  - rewrite Rabs_right by lra. lra.
  - rewrite Rabs_Ropp, Rabs_right by lra. lra.
Qed.

Lemma trailing_block_scales_scalar_case_witness :
  exists r r',
    fourier_integral_fixed_sampling_pchip secant_pchip [1] [1; 2]
      (mk_ndarray [] [[C1]; [Ci]]) true false = Ok r
    /\ fourier_integral_fixed_sampling_pchip secant_pchip [1] [1; 2]
         (mk_ndarray [2; 2]%nat
            [[RtoC 1 * C1; RtoC 2 * C1; RtoC 3 * C1; RtoC 4 * C1];
             [RtoC 1 * Ci; RtoC 2 * Ci; RtoC 3 * Ci; RtoC 4 * Ci]]%C)
         true false = Ok r'
    /\ shape r' = [1; 2; 2]%nat
    /\ rows r'
       = map (fun row =>
                map (fun c => c * hd C0 row)%C [RtoC 1; RtoC 2; RtoC 3; RtoC 4])
             (rows r).
Proof.
  pose proof two_pi_gt_1 as Hpi.
  assert (Hinc : 2 * PI * 1 < 2 * PI * 2) by lra.
  set (h := 2 * PI * 2 - 2 * PI * 1) in *.
  set (d0 := ((0 - 1) / h, (1 - 0) / h) : C).
  assert (Hscalar :
    complex_pchip secant_pchip [2 * PI * 1; 2 * PI * 2] [[C1]; [Ci]]
      [2 * PI * 1; 2 * PI * 2] 1 0 = Ok [[d0]; [d0]]).
  { unfold complex_pchip. cbn [map Cre Cim C1 Ci fst snd].
    rewrite !secant_pchip_two_rows by exact Hinc. cbn [bind map2]. fold h.
    repeat f_equal; unfold d0; cring. }
  assert (Hblock :
    complex_pchip secant_pchip [2 * PI * 1; 2 * PI * 2]
      (map (fun v => map (fun c => c * v)%C [RtoC 1; RtoC 2; RtoC 3; RtoC 4])
           [C1; Ci])
      [2 * PI * 1; 2 * PI * 2] 1 0
    = Ok (map (fun v => map (fun c => c * v)%C [RtoC 1; RtoC 2; RtoC 3; RtoC 4])
              [d0; d0])).
  { unfold complex_pchip. cbn [map].
    rewrite !secant_pchip_two_rows by exact Hinc. cbn [bind map2]. fold h.
    f_equal.
    repeat match goal with
           | |- _ :: _ = _ :: _ => apply f_equal2
           | |- [] = [] => reflexivity
           end;
      unfold d0; csimpl; unfold Rdiv; apply C_eq; ring. }
  pose proof (trailing_block_scales_scalar_case secant_pchip [1] [1; 2]
                [C1; Ci] [d0; d0] [2; 2]%nat [RtoC 1; RtoC 2; RtoC 3; RtoC 4]
                true false) as H.
  cbv zeta in H.
  assert (HN : (1 <= length [1; 2])%nat) by (cbn [length]; lia).
  specialize (H HN eq_refl eq_refl eq_refl Hscalar Hblock).
  cbn [map] in H.
  destruct kernel_passes_two_nodes as [Hk Hk'].
  assert (Hr := fourier_integral_closed secant_pchip [1] [1; 2] []
                  (fun i _ => nth i [C1; Ci] C0) (fun i _ => nth i [d0; d0] C0)
                  true false HN Hscalar).
  cbn [length] in Hr. rewrite Hk, Hk' in Hr.
  cbn [np_prod fold_right seq map nth] in Hr.
  rewrite Hr in H. destruct H as (r' & Hr' & Hshape & Hrows).
  do 2 eexists. split; [exact Hr|]. split; [exact Hr'|].
  split; assumption.
Defined.

Lemma get_last_nonempty {A : Type} (l : list A) :
  (1 <= length l)%nat -> exists v, get_last l = Ok v.
Proof.
  intros H. unfold get_last.
  destruct (rev l) as [|v r] eqn:Hr.
  - apply (f_equal (@length A)) in Hr. rewrite length_rev in Hr.
    cbn in Hr. lia.
  - now exists v.
Qed.

Lemma get_first_nonempty {A : Type} (l : list A) :
  (1 <= length l)%nat -> exists v, get_first l = Ok v.
Proof. destruct l as [|v l]; cbn; [lia | now exists v]. Qed.

(** ** Grids and samples the interpolation refuses *)








(** *** Running on a store: the calling store is left alone *)

Lemma replace_nth_fresh {A : Type} (s0 f : list A) (k : nat) (a : A) :
  replace_nth (length s0 + k) a (s0 ++ f) = s0 ++ replace_nth k a f.
Proof. induction s0 as [|b s0 IH]; [reflexivity | cbn; now rewrite IH]. Qed.

Lemma bind_get_fresh {B : Type} (s0 f : store) (k : nat) (K : buffer -> ST B) :
  st_bind (get (length s0 + k)) K (s0 ++ f) = K (nth k f (BReal [])) (s0 ++ f).
Proof. unfold st_bind, get. now rewrite app_nth2_plus. Qed.

Lemma bind_get_old {B : Type} (s0 f : store) (l : loc) (K : buffer -> ST B) :
  (l < length s0)%nat ->
  st_bind (get l) K (s0 ++ f) = K (nth l s0 (BReal [])) (s0 ++ f).
Proof. intros H. unfold st_bind, get. now rewrite app_nth1. Qed.

Lemma bind_put_fresh {B : Type} (s0 f : store) (k : nat) (b : buffer)
    (K : unit -> ST B) :
  st_bind (put (length s0 + k) b) K (s0 ++ f) = K tt (s0 ++ replace_nth k b f).
Proof. unfold st_bind, put. now rewrite replace_nth_fresh. Qed.

Lemma bind_alloc {B : Type} (s0 f : store) (b : buffer) (K : loc -> ST B) :
  st_bind (alloc b) K (s0 ++ f) = K (length s0 + length f)%nat (s0 ++ (f ++ [b])).
Proof. unfold st_bind, alloc. now rewrite length_app, app_assoc. Qed.

Lemma bind_get_here {B : Type} (s0 : store) (l : loc) (K : buffer -> ST B) :
  st_bind (get l) K s0 = K (nth l s0 (BReal [])) s0.
Proof. reflexivity. Qed.

Lemma bind_alloc_here {B : Type} (s0 : store) (b : buffer) (K : loc -> ST B) :
  st_bind (alloc b) K s0 = K (length s0 + 0)%nat (s0 ++ [b]).
Proof. unfold st_bind, alloc. now rewrite Nat.add_0_r. Qed.

Lemma bind_ret {A B : Type} (a : A) (K : A -> ST B) (s : store) :
  st_bind (st_ret a) K s = K a s.
Proof. reflexivity. Qed.

Lemma bind_assoc {A B D : Type} (m : ST A) (f : A -> ST B) (g : B -> ST D)
    (s : store) :
  st_bind (st_bind m f) g s = st_bind m (fun a => st_bind (f a) g) s.
Proof. unfold st_bind. destruct (m s) as [[a|e] s']; reflexivity. Qed.

Ltac st_run :=
  repeat (first [ rewrite bind_assoc | rewrite bind_get_fresh
                | rewrite bind_put_fresh | rewrite bind_alloc
                | rewrite bind_ret ];
          cbn [nth replace_nth length app as_real as_cplx as_nd]).

Section KernelSimulation.

Variables (s0 : store) (mask : list bool) (xc xt ex : list R).
Let L : nat := length s0.

Lemma st_phi_psi_body_sim (n : nat) (st : taylor_state) :
  st_phi_psi_body mask (L + 0) (L + 1) (L + 3) (L + 4) (L + 5) (L + 6) n
    (phi_converged st) (psi_converged st) (inv_factorial st)
    (s0 ++ frame_of xc xt ex st)
  = (Ok (phi_converged (phi_psi_body mask xt ex n st),
         psi_converged (phi_psi_body mask xt ex n st)),
     s0 ++ frame_of xc xt ex (phi_psi_body mask xt ex n st))
  /\ inv_factorial (phi_psi_body mask xt ex n st)
     = inv_factorial st / (INR n + 1).
Proof.
  destruct st as [p q pc qc j a invf].
  unfold st_phi_psi_body, st_accumulate, phi_psi_body, frame_of, kernel_frame, L.
  cbn [phi psi phi_converged psi_converged jx_to_n abs_x_to_n_plus_1
       inv_factorial].
  destruct pc, qc; cbn [negb]; st_run; split; reflexivity.
Qed.

Lemma st_phi_psi_loop_sim (ns : list nat) :
  forall st,
    st_phi_psi_loop mask (L + 0) (L + 1) (L + 3) (L + 4) (L + 5) (L + 6) ns
      (phi_converged st) (psi_converged st) (inv_factorial st)
      (s0 ++ frame_of xc xt ex st)
    = (Ok (phi_converged (phi_psi_loop mask xt ex ns st),
           psi_converged (phi_psi_loop mask xt ex ns st)),
       s0 ++ frame_of xc xt ex (phi_psi_loop mask xt ex ns st)).
Proof.
  induction ns as [|n ns IH]; intros st; [reflexivity|].
  cbn [st_phi_psi_loop phi_psi_loop].
  destruct (phi_converged st && psi_converged st); [reflexivity|].
  destruct (st_phi_psi_body_sim n st) as [Hbody Hinv].
  unfold st_bind at 1. rewrite Hbody. cbn [fst snd].
  rewrite <- Hinv. apply IH.
Qed.

End KernelSimulation.

(** [st_phi_and_psi] returns what [_phi_and_psi] computes from the
    contents of its argument, in new buffers behind the calling store. *)
Lemma st_phi_and_psi_sim (s0 : store) (x : loc) :
  match _phi_and_psi (as_real (nth x s0 (BReal []))) with
  | Ok (p, q) =>
      exists rest,
        st_phi_and_psi x s0
        = (Ok (length s0 + 0, length s0 + 1)%nat,
           s0 ++ BCplx p :: BCplx q :: rest)
  | Raise e => exists ext, st_phi_and_psi x s0 = (Raise e, s0 ++ ext)
  end.
Proof.
  unfold st_phi_and_psi, _phi_and_psi.
  set (xv := as_real (nth x s0 (BReal []))).
  rewrite bind_get_here. fold xv. cbv zeta.
  rewrite bind_alloc_here. st_run.
  set (mask := map (fun v => Rltb (Rabs v) 1) xv).
  set (xc := np_select (map negb mask) xv).
  set (xt := np_select mask xv).
  set (ex := map (fun v => exp (Rabs v)) xt).
  set (st0 := mk_taylor_state
                (np_put (map negb mask) (map (fun _ => C0) xv) (map phi_closed xc))
                (np_put (map negb mask)
                   (map (fun _ => C0) (map (fun _ : R => C0) xv))
                   (map psi_closed xc))
                false false (map (fun _ => C1) xt) (map Rabs xt) 1).
  pose proof (st_phi_psi_loop_sim s0 mask xc xt ex
                (seq 0 (MAX_TAYLOR_ITERATIONS + 1)) st0) as Hloop.
  unfold frame_of, kernel_frame in Hloop. cbn [phi psi phi_converged
    psi_converged jx_to_n abs_x_to_n_plus_1 inv_factorial st0] in Hloop.
  set (st := phi_psi_loop mask xt ex (seq 0 (MAX_TAYLOR_ITERATIONS + 1)) st0)
    in *.
  destruct (negb (phi_converged st && psi_converged st)) eqn:Hconv;
    unfold st_bind; rewrite Hloop; cbn [fst snd]; rewrite Hconv;
    eexists; reflexivity.
Qed.

Lemma st_filon_sum_sim (s : store) (tv ov : list R) (fv fd : list (list C))
    (k : nat) :
  exists ext, st_filon_sum tv ov fv fd k s = (filon_sum tv ov fv fd k, s ++ ext).
Proof.
  unfold st_filon_sum, filon_sum, _phi_and_psi_2d. cbv zeta.
  set (grid := kernel_argument_grid tv ov).
  rewrite bind_alloc_here.
  set (s1 := s ++ [BReal (concat grid)]).
  pose proof (st_phi_and_psi_sim s1 (length s + 0)) as H1.
  unfold s1 in H1 at 1. rewrite app_nth2_plus in H1. cbn [nth as_real] in H1.
  destruct (_phi_and_psi (concat grid)) as [[p q]|e]; cbn [bind].
  - destruct H1 as (rest & H1). unfold st_bind at 1. rewrite H1. cbn [fst snd].
    rewrite !bind_get_fresh. cbn [nth as_cplx].
    rewrite bind_alloc.
    set (f1 := BCplx p :: BCplx q :: rest).
    set (s2 := s1 ++ f1 ++ [BReal (concat (map (map Ropp) grid))]).
    pose proof (st_phi_and_psi_sim s2 (length s1 + length f1)) as H2.
    unfold s2 in H2 at 1.
    rewrite app_nth2_plus, nth_middle in H2. cbn [as_real] in H2.
    destruct (_phi_and_psi (concat (map (map Ropp) grid))) as [[pm qm]|e];
      cbn [bind].
    + destruct H2 as (rest2 & H2). unfold st_bind at 1. rewrite H2.
      cbn [fst snd]. rewrite !bind_get_fresh. cbn [nth as_cplx].
      unfold st_ret, s2, s1. rewrite <- !app_assoc.
      eexists. reflexivity.
    + destruct H2 as (ext2 & H2). unfold st_bind at 1. rewrite H2.
      unfold s2, s1. rewrite <- !app_assoc. eexists. reflexivity.
  - destruct H1 as (ext & H1). unfold st_bind at 1. rewrite H1.
    unfold s1. rewrite <- !app_assoc. eexists. reflexivity.
Qed.

Lemma bind_lift_ok {A B : Type} (a : A) (K : A -> ST B) (s : store) :
  st_bind (st_lift (Ok a)) K s = K a s.
Proof. reflexivity. Qed.

Lemma bind_lift_raise {A B : Type} (e : exn) (K : A -> ST B) (s : store) :
  st_bind (st_lift (Raise e)) K s = (Raise e, s).
Proof. reflexivity. Qed.

Ltac st_lifts :=
  repeat (first [ rewrite bind_assoc | rewrite bind_lift_ok
                | rewrite bind_lift_raise | rewrite bind_get_fresh
                | rewrite bind_put_fresh | rewrite bind_alloc
                | rewrite bind_ret ];
          cbn [nth replace_nth length app as_real as_cplx as_nd bind]).

Ltac raised :=
  eexists; split; [reflexivity | intros ? Hd; discriminate Hd].

(** One call on a store: the value is that of the function of the
    contents of the three argument buffers, returned in a new buffer (the
    second one allocated); the calling store is a prefix of the store
    left. *)
Lemma st_fourier_integral_sim (pchip_interpolate : pchip_primitive)
    (s0 : store) (times frequencies func_values : loc) (pos neg : bool) :
  (times < length s0)%nat ->
  (func_values < length s0)%nat ->
  let value :=
    fourier_integral_fixed_sampling_pchip pchip_interpolate
      (as_real (nth times s0 (BReal [])))
      (as_real (nth frequencies s0 (BReal [])))
      (as_nd (nth func_values s0 (BReal []))) pos neg in
  exists ext,
    st_fourier_integral pchip_interpolate times frequencies func_values pos neg s0
    = (match value with
       | Ok _ => Ok (length s0 + 1)%nat
       | Raise e => Raise e
       end, s0 ++ ext)
    /\ forall a, value = Ok a -> nth 1 ext (BReal []) = BNd a.
Proof.
  intros Ht Hv. cbv zeta.
  unfold st_fourier_integral, fourier_integral_fixed_sampling_pchip.
  rewrite bind_get_here, bind_alloc_here.
  rewrite !bind_get_old by assumption. cbv zeta.
  set (tv := as_real (nth times s0 (BReal []))).
  set (fv := as_nd (nth func_values s0 (BReal []))).
  set (ov := map (fun f => 2 * PI * f) (as_real (nth frequencies s0 (BReal [])))).
  st_lifts.
  destruct (complex_pchip pchip_interpolate ov (rows fv) ov 1 0) as [fd|e];
    st_lifts; [|raised].
  destruct pos; st_lifts.
  - destruct (get_last ov) as [we|e]; st_lifts; [|raised].
    destruct (get_last (rows fv)) as [ve|e]; st_lifts; [|raised].
    destruct (get_last fd) as [de|e]; st_lifts; [|raised].
    destruct (fourier_integral_inf_correction tv we _ _ true) as [cp|e];
      st_lifts; [|raised].
    destruct neg; st_lifts.
    + destruct (get_first ov) as [wf|e]; st_lifts; [|raised].
      destruct (get_first (rows fv)) as [vf|e]; st_lifts; [|raised].
      destruct (get_first fd) as [df|e]; st_lifts; [|raised].
      destruct (fourier_integral_inf_correction tv wf _ _ false) as [cn|e];
        st_lifts; [|raised].
      match goal with
      | |- context [st_bind (st_filon_sum ?a ?b ?c ?d ?k) _ ?s] =>
          destruct (st_filon_sum_sim s a b c d k) as (ext & Hsum)
      end.
      unfold st_bind at 1. rewrite Hsum.
      destruct (filon_sum tv ov (rows fv) fd _) as [base|e];
        rewrite <- app_assoc; st_lifts; [|raised].
      eexists. split; [reflexivity|].
      intros a Ha. injection Ha as <-. reflexivity.
    + match goal with
      | |- context [st_bind (st_filon_sum ?a ?b ?c ?d ?k) _ ?s] =>
          destruct (st_filon_sum_sim s a b c d k) as (ext & Hsum)
      end.
      unfold st_bind at 1. rewrite Hsum.
      destruct (filon_sum tv ov (rows fv) fd _) as [base|e];
        rewrite <- app_assoc; st_lifts; [|raised].
      eexists. split; [reflexivity|].
      intros a Ha. injection Ha as <-. reflexivity.
  - destruct neg; st_lifts.
    + destruct (get_first ov) as [wf|e]; st_lifts; [|raised].
      destruct (get_first (rows fv)) as [vf|e]; st_lifts; [|raised].
      destruct (get_first fd) as [df|e]; st_lifts; [|raised].
      destruct (fourier_integral_inf_correction tv wf _ _ false) as [cn|e];
        st_lifts; [|raised].
      match goal with
      | |- context [st_bind (st_filon_sum ?a ?b ?c ?d ?k) _ ?s] =>
          destruct (st_filon_sum_sim s a b c d k) as (ext & Hsum)
      end.
      unfold st_bind at 1. rewrite Hsum.
      destruct (filon_sum tv ov (rows fv) fd _) as [base|e];
        rewrite <- app_assoc; st_lifts; [|raised].
      eexists. split; [reflexivity|].
      intros a Ha. injection Ha as <-. reflexivity.
    + match goal with
      | |- context [st_bind (st_filon_sum ?a ?b ?c ?d ?k) _ ?s] =>
          destruct (st_filon_sum_sim s a b c d k) as (ext & Hsum)
      end.
      unfold st_bind at 1. rewrite Hsum.
      destruct (filon_sum tv ov (rows fv) fd _) as [base|e];
        rewrite <- app_assoc; st_lifts; [|raised].
      eexists. split; [reflexivity|].
      intros a Ha. injection Ha as <-. reflexivity.
Qed.

(** C8. Two calls in a row on the same argument arrays, the second
    running on the store the first one left: both return the value that
    the function of the contents of the three argument buffers gives (the
    same array contents, or the same error), each in a buffer of its own;
    no buffer that existed before the calls -- the argument arrays among
    them -- is changed by either call, and the second call leaves the
    array returned by the first as it was. *)
Theorem two_calls_same_output_inputs_intact (pchip_interpolate : pchip_primitive)
    (s0 : store) (times frequencies func_values : loc) (pos neg : bool) :
  (times < length s0)%nat ->
  (frequencies < length s0)%nat ->
  (func_values < length s0)%nat ->
  let value :=
    fourier_integral_fixed_sampling_pchip pchip_interpolate
      (as_real (nth times s0 (BReal [])))
      (as_real (nth frequencies s0 (BReal [])))
      (as_nd (nth func_values s0 (BReal []))) pos neg in
  exists r1 s1 r2 s2,
    st_fourier_integral pchip_interpolate times frequencies func_values pos neg s0
    = (r1, s1)
    /\ st_fourier_integral pchip_interpolate times frequencies func_values
         pos neg s1 = (r2, s2)
    /\ (forall l, (l < length s0)%nat ->
                  nth l s1 (BReal []) = nth l s0 (BReal [])
                  /\ nth l s2 (BReal []) = nth l s0 (BReal []))
    /\ match value with
       | Ok a =>
           exists l1 l2,
             r1 = Ok l1 /\ r2 = Ok l2 /\ l1 <> l2
             /\ nth l1 s1 (BReal []) = BNd a
             /\ nth l2 s2 (BReal []) = BNd a
             /\ nth l1 s2 (BReal []) = BNd a
       | Raise e => r1 = Raise e /\ r2 = Raise e
       end.
Proof.
  intros Ht Hf Hv. cbv zeta.
  destruct (st_fourier_integral_sim pchip_interpolate s0 times frequencies
              func_values pos neg Ht Hv) as (ext1 & Hrun1 & Hval1).
  cbv zeta in Hrun1, Hval1.
  assert (Ht1 : (times < length (s0 ++ ext1))%nat) by (rewrite length_app; lia).
  assert (Hv1 : (func_values < length (s0 ++ ext1))%nat)
    by (rewrite length_app; lia).
  destruct (st_fourier_integral_sim pchip_interpolate (s0 ++ ext1) times
              frequencies func_values pos neg Ht1 Hv1) as (ext2 & Hrun2 & Hval2).
  cbv zeta in Hrun2, Hval2.
  rewrite !(app_nth1 s0 ext1) in Hrun2, Hval2 by assumption.
  do 4 eexists. split; [exact Hrun1|]. split; [exact Hrun2|]. split.
  - intros l Hl. rewrite <- app_assoc, !app_nth1 by assumption. auto.
  - destruct (fourier_integral_fixed_sampling_pchip _ _ _ _ _ _) as [a|e];
      [|split; reflexivity].
    specialize (Hval1 a eq_refl). specialize (Hval2 a eq_refl).
    assert (Hlen1 : (1 < length ext1)%nat).
    { destruct (Nat.lt_ge_cases 1 (length ext1)) as [H|H]; [assumption|].
      rewrite nth_overflow in Hval1 by assumption. discriminate. }
    exists (length s0 + 1)%nat, (length (s0 ++ ext1) + 1)%nat.
    split; [reflexivity|]. split; [reflexivity|]. split.
    + rewrite length_app. lia.
    + rewrite !app_nth2_plus. split; [assumption|]. split; [assumption|].
      rewrite app_nth1 by (rewrite length_app; lia).
      rewrite app_nth2_plus. assumption.
Qed.

Lemma two_calls_same_output_inputs_intact_witness :
  let s0 := [BReal [1]; BReal [1; 2]; BNd (mk_ndarray [] [[C1]; [Ci]])] in
  exists r1 s1 r2 s2,
    st_fourier_integral secant_pchip 0 1 2 true true s0 = (r1, s1)
    /\ st_fourier_integral secant_pchip 0 1 2 true true s1 = (r2, s2)
    /\ (forall l, (l < 3)%nat ->
                  nth l s1 (BReal []) = nth l s0 (BReal [])
                  /\ nth l s2 (BReal []) = nth l s0 (BReal [])).
Proof.
  cbv zeta.
  destruct (two_calls_same_output_inputs_intact secant_pchip
              [BReal [1]; BReal [1; 2]; BNd (mk_ndarray [] [[C1]; [Ci]])]
              0 1 2 true true)
    as (r1 & s1 & r2 & s2 & H1 & H2 & Hsame & _);
    try (cbn [length]; lia).
  exists r1, s1, r2, s2. repeat split; try assumption; apply Hsame; assumption.
Defined.

(** * Part IV: further properties of the code *)


(** ** The kernels at a negated argument *)

Lemma Cconj_add a b : Cconj (a + b)%C = (Cconj a + Cconj b)%C.
Proof. destruct a, b. unfold Cconj. cring. Qed.

Lemma Cconj_sub a b : Cconj (a - b)%C = (Cconj a - Cconj b)%C.
Proof. destruct a, b. unfold Cconj. cring. Qed.

Lemma Cconj_mul a b : Cconj (a * b)%C = (Cconj a * Cconj b)%C.
Proof. destruct a, b. unfold Cconj. cring. Qed.

Lemma Cconj_RtoC r : Cconj (RtoC r) = RtoC r.
Proof. unfold Cconj. cring. Qed.

Lemma Cconj_div_real a r : Cconj (a / RtoC r)%C = (Cconj a / RtoC r)%C.
Proof.
  rewrite !Cdiv_RtoC. destruct a. unfold Cconj, Cdiv_real. cbn [fst snd].
  apply C_eq; unfold Rdiv; ring.
Qed.

Lemma Cexp_i_opp v : Cexp (Ci * RtoC (- v)) = Cconj (Cexp (Ci * RtoC v)).
Proof.
  rewrite !Cexp_i. unfold Cis, Cconj. cbn [fst snd].
  now rewrite cos_neg, sin_neg.
Qed.

Lemma Cpow_opp v n :
  Cpow (Ci * RtoC (- v)) n = Cconj (Cpow (Ci * RtoC v) n).
Proof.
  induction n as [|n IH]; [unfold Cconj; cring|].
  cbn [Cpow]. rewrite IH, Cconj_mul. f_equal.
  unfold Cconj. cring.
Qed.

Lemma taylor_partial_opp coef n v :
  taylor_partial coef n (- v) = Cconj (taylor_partial coef n v).
Proof.
  induction n as [|n IH]; [unfold Cconj; cring|].
  cbn [taylor_partial]. rewrite IH, Cconj_add. f_equal.
  unfold taylor_term. now rewrite Cpow_opp, !Cconj_mul, !Cconj_RtoC.
Qed.

Lemma in_taylor_opp v : in_taylor (- v) = in_taylor v.
Proof. unfold in_taylor. now rewrite Rabs_Ropp. Qed.

Lemma converged_at_opp coef bound n v :
  bound n (- v) = bound n v ->
  converged_at coef bound n (- v) = converged_at coef bound n v.
Proof.
  intros Hb. unfold converged_at. cbv zeta.
  rewrite Hb, taylor_partial_opp. unfold Cconj, Cre, Cim. cbn [fst snd].
  now rewrite Rabs_Ropp.
Qed.

Lemma phi_bound_opp n v : phi_bound n (- v) = phi_bound n v.
Proof. unfold phi_bound. now rewrite Rabs_Ropp. Qed.

Lemma psi_bound_opp n v : psi_bound n (- v) = psi_bound n v.
Proof. unfold psi_bound. now rewrite Rabs_Ropp. Qed.

Lemma lambda_bound_opp n v : lambda_bound n (- v) = lambda_bound n v.
Proof. unfold lambda_bound. now rewrite Rabs_Ropp. Qed.

Lemma phi_closed_opp v : phi_closed (- v) = Cconj (phi_closed v).
Proof.
  unfold phi_closed. cbv zeta.
  rewrite Cconj_div_real, Cconj_add, !Cconj_sub, !Cconj_mul, Cconj_add,
    Cconj_sub, !Cconj_RtoC, Cexp_i_opp.
  replace ((- v) ^ 4) with (v ^ 4) by ring. f_equal.
  destruct (Cconj (Cexp (Ci * RtoC v))) as [a b].
  unfold Cconj. cring.
Qed.

Lemma psi_closed_opp v : psi_closed (- v) = Cconj (psi_closed v).
Proof.
  unfold psi_closed. cbv zeta.
  rewrite Cconj_div_real, Cconj_sub, !Cconj_add, !Cconj_mul, Cconj_add,
    Cconj_sub, !Cconj_mul, !Cconj_RtoC, Cexp_i_opp.
  replace ((- v) ^ 4) with (v ^ 4) by ring. f_equal.
  destruct (Cconj (Cexp (Ci * RtoC v))) as [a b].
  unfold Cconj. cring.
Qed.

Lemma np_select_opp (x : list R) :
  np_select (map in_taylor (map Ropp x)) (map Ropp x)
  = map Ropp (np_select (map in_taylor x) x).
Proof.
  induction x as [|v x IH]; [reflexivity|].
  cbn [map np_select]. rewrite in_taylor_opp.
  destruct (in_taylor v); cbn [map]; now rewrite IH.
Qed.

Lemma batch_converged_opp coef bound xx n :
  (forall v, bound n (- v) = bound n v) ->
  batch_converged coef bound (map Ropp xx) n = batch_converged coef bound xx n.
Proof.
  intros Hb. unfold batch_converged.
  induction xx as [|v xx IH]; [reflexivity|].
  cbn [map forallb]. now rewrite IH, converged_at_opp.
Qed.

Lemma first_converged_opp coef bound xx ns :
  (forall n v, bound n (- v) = bound n v) ->
  first_converged coef bound (map Ropp xx) ns = first_converged coef bound xx ns.
Proof.
  intros Hb. unfold first_converged.
  induction ns as [|n ns IH]; [reflexivity|].
  cbn [find]. rewrite batch_converged_opp by (intros; apply Hb).
  now rewrite IH.
Qed.

Lemma merge_branches_opp closed coef n x :
  (forall v, closed (- v) = Cconj (closed v)) ->
  merge_branches closed (taylor_partial coef n) (map Ropp x)
  = map Cconj (merge_branches closed (taylor_partial coef n) x).
Proof.
  intros Hc. unfold merge_branches. rewrite !map_map.
  apply map_ext. intros v. rewrite in_taylor_opp.
  destruct (in_taylor v); [apply taylor_partial_opp | apply Hc].
Qed.

(** X1. [_phi_and_psi(-x)] is the complex conjugate of [_phi_and_psi(x)],
    element by element, and fails exactly when [_phi_and_psi(x)] does. *)
Theorem phi_and_psi_negated_argument (x : list R) :
  _phi_and_psi (map Ropp x)
  = match _phi_and_psi x with
    | Ok (p, q) => Ok (map Cconj p, map Cconj q)
    | Raise e => Raise e
    end.
Proof.
  rewrite !phi_and_psi_closed. unfold phi_psi_closed_form. cbv zeta.
  rewrite np_select_opp.
  rewrite !first_converged_opp
    by (intros; first [apply phi_bound_opp | apply psi_bound_opp]).
  destruct (first_converged phi_coef _ _ _) as [np|]; [|reflexivity].
  destruct (first_converged psi_coef _ _ _) as [nq|]; [|reflexivity].
  now rewrite !merge_branches_opp by (first [apply phi_closed_opp | apply psi_closed_opp]).
Qed.
(** ** Convergence of the Taylor branch away from zero *)

Lemma Cpow_step (x : R) (m : nat) :
  Cre (Cpow (Ci * RtoC x) (S m)) = - Cim (Cpow (Ci * RtoC x) m) * x
  /\ Cim (Cpow (Ci * RtoC x) (S m)) = Cre (Cpow (Ci * RtoC x) m) * x.
Proof.
  cbn [Cpow]. destruct (Cpow (Ci * RtoC x) m) as [a b].
  csimpl. split; ring.
Qed.

Lemma Cpow_components_bound (x : R) (m : nat) :
  Rabs (Cre (Cpow (Ci * RtoC x) m)) <= Rabs x ^ m
  /\ Rabs (Cim (Cpow (Ci * RtoC x) m)) <= Rabs x ^ m.
Proof.
  induction m as [|m [IHre IHim]].
  - cbn [Cpow pow]. unfold C1, Cre, Cim. cbn [fst snd].
    rewrite Rabs_R1, Rabs_R0. lra.
  - destruct (Cpow_step x m) as [-> ->].
    rewrite !Rabs_mult, Rabs_Ropp. cbn [pow].
    pose proof (Rabs_pos x).
    pose proof (Rabs_pos (Cre (Cpow (Ci * RtoC x) m))).
    pose proof (Rabs_pos (Cim (Cpow (Ci * RtoC x) m))).
    split; nra.
Qed.

Lemma taylor_term_components (coef : nat -> R) (m : nat) (x : R) :
  Cre (taylor_term coef m x)
  = coef m * Cre (Cpow (Ci * RtoC x) m) * / INR (fact m)
  /\ Cim (taylor_term coef m x)
     = coef m * Cim (Cpow (Ci * RtoC x) m) * / INR (fact m).
Proof.
  unfold taylor_term. destruct (Cpow (Ci * RtoC x) m) as [a b].
  csimpl. split; ring.
Qed.

Lemma taylor_partial_components (coef : nat -> R) (n : nat) (x : R) :
  Cre (taylor_partial coef (S n) x)
  = Cre (taylor_partial coef n x) + Cre (taylor_term coef n x)
  /\ Cim (taylor_partial coef (S n) x)
     = Cim (taylor_partial coef n x) + Cim (taylor_term coef n x).
Proof.
  cbn [taylor_partial].
  destruct (taylor_partial coef n x), (taylor_term coef n x).
  csimpl. split; reflexivity.
Qed.

Lemma pow2_le_fact (n : nat) : 2 ^ n <= INR (fact (S n)).
Proof.
  induction n as [|n IH].
  - simpl. lra.
  - change (fact (S (S n))) with (S (S n) * fact (S n))%nat.
    rewrite mult_INR, !S_INR. cbn [pow].
    pose proof (pos_INR n).
    assert (0 < 2 ^ n) by (apply pow_lt; lra).
    nra.
Qed.

Lemma pow_le_1 (a : R) (k : nat) : 0 <= a <= 1 -> 0 <= a ^ k <= 1.
Proof.
  intros Ha. induction k as [|k IH]; cbn [pow]; [lra | nra].
Qed.

(** A term of index [m = k + 2] is at most [c2 |x|^2 / 2^(k+1)]. *)
Lemma taylor_term_small (coef : nat -> R) (c2 x : R) (k : nat) :
  Rabs (coef (S (S k))) <= c2 ->
  Rabs x <= 1 ->
  Rabs (Cre (taylor_term coef (S (S k)) x)) <= c2 * Rabs x ^ 2 * / 2 ^ S k
  /\ Rabs (Cim (taylor_term coef (S (S k)) x)) <= c2 * Rabs x ^ 2 * / 2 ^ S k.
Proof.
  intros Hc Hx.
  destruct (taylor_term_components coef (S (S k)) x) as [-> ->].
  destruct (Cpow_components_bound x (S (S k))) as [Hre Him].
  pose proof (Rabs_pos x) as Hx0.
  pose proof (Rabs_pos (coef (S (S k)))) as Hc0.
  pose proof (pow2_le_fact (S k)) as Hf.
  assert (Hp : 0 < 2 ^ S k) by (apply pow_lt; lra).
  assert (Hinv : 0 < / INR (fact (S (S k))) <= / 2 ^ S k).
  { split; [apply Rinv_0_lt_compat; lra | apply Rinv_le_contravar; lra]. }
  assert (Hpow : 0 <= Rabs x ^ S (S k) <= Rabs x ^ 2).
  { replace (Rabs x ^ S (S k)) with (Rabs x ^ 2 * Rabs x ^ k)
      by (cbn [pow]; ring).
    pose proof (pow_le_1 (Rabs x) k (conj Hx0 Hx)).
    assert (0 <= Rabs x ^ 2) by (cbn [pow]; nra).
    nra. }
  assert (Hgen : forall a, Rabs a <= Rabs x ^ S (S k) ->
            Rabs (coef (S (S k)) * a * / INR (fact (S (S k))))
            <= c2 * Rabs x ^ 2 * / 2 ^ S k).
  { intros a Ha. rewrite !Rabs_mult.
    rewrite (Rabs_right (/ INR (fact (S (S k))))) by lra.
    pose proof (Rabs_pos a).
    apply Rle_trans with (c2 * Rabs x ^ 2 * / INR (fact (S (S k)))).
    - apply Rmult_le_compat_r; [lra|].
      apply Rmult_le_compat; lra.
    - apply Rmult_le_compat_l; [|lra]. nra. }
  split; apply Hgen; assumption.
Qed.

(** From the third term on the sum stays within [c2 |x|^2] of its first
    two terms [coef 0 + coef 1 * (ix)]. *)
Lemma taylor_partial_near_two_terms (coef : nat -> R) (c2 x : R) (k : nat) :
  (forall m, (2 <= m)%nat -> Rabs (coef m) <= c2) ->
  Rabs x <= 1 ->
  Rabs (Cre (taylor_partial coef (2 + k) x) - coef 0%nat)
  <= c2 * Rabs x ^ 2 * (1 - / 2 ^ k)
  /\ Rabs (Cim (taylor_partial coef (2 + k) x) - coef 1%nat * x)
     <= c2 * Rabs x ^ 2 * (1 - / 2 ^ k).
Proof.
  intros Hc Hx. induction k as [|k [IHre IHim]].
  - rewrite taylor_partial_two. unfold Cre, Cim. cbn [fst snd pow].
    rewrite !Rminus_diag, Rabs_R0, Rinv_1. lra.
  - replace (2 + S k)%nat with (S (2 + k)) by lia.
    destruct (taylor_partial_components coef (2 + k) x) as [-> ->].
    destruct (taylor_term_small coef c2 x k (Hc (S (S k)) ltac:(lia)) Hx) as [Hre Him].
    change (2 + k)%nat with (S (S k)).
    assert (Hhalf : / 2 ^ S k = / 2 ^ k - / 2 ^ S k).
    { cbn [pow]. assert (0 < 2 ^ k) by (apply pow_lt; lra). field. lra. }
    split.
    + replace (Cre (taylor_partial coef (S (S k)) x)
               + Cre (taylor_term coef (S (S k)) x) - coef 0%nat)
        with ((Cre (taylor_partial coef (2 + k) x) - coef 0%nat)
              + Cre (taylor_term coef (S (S k)) x)) by (simpl; ring).
      eapply Rle_trans; [apply Rabs_triang|].
      replace (1 - / 2 ^ S k) with ((1 - / 2 ^ k) + / 2 ^ S k) by lra.
      lra.
    + replace (Cim (taylor_partial coef (S (S k)) x)
               + Cim (taylor_term coef (S (S k)) x) - coef 1%nat * x)
        with ((Cim (taylor_partial coef (2 + k) x) - coef 1%nat * x)
              + Cim (taylor_term coef (S (S k)) x)) by (simpl; ring).
      eapply Rle_trans; [apply Rabs_triang|].
      replace (1 - / 2 ^ S k) with ((1 - / 2 ^ k) + / 2 ^ S k) by lra.
      lra.
Qed.

(** So both components of the sum stay away from zero. *)
Lemma taylor_partial_min_component (coef : nat -> R) (c2 x : R) (n : nat) :
  (forall m, (2 <= m)%nat -> Rabs (coef m) <= c2) ->
  Rabs (coef 1%nat) <= Rabs (coef 0%nat) ->
  0 <= c2 <= Rabs (coef 1%nat) ->
  Rabs x < 1 ->
  (2 <= n)%nat ->
  (Rabs (coef 1%nat) - c2) * Rabs x
  <= Rmin (Rabs (Cre (taylor_partial coef n x)))
          (Rabs (Cim (taylor_partial coef n x))).
Proof.
  intros Hc H01 Hc2 Hx Hn.
  replace n with (2 + (n - 2))%nat by lia.
  destruct (taylor_partial_near_two_terms coef c2 x (n - 2) Hc ltac:(lra))
    as [Hre Him].
  set (P := taylor_partial coef (2 + (n - 2)) x) in *.
  pose proof (Rabs_pos x) as Hx0.
  assert (Hk : 0 < / 2 ^ (n - 2) <= 1).
  { assert (1 <= 2 ^ (n - 2)) by (apply pow_R1_Rle; lra).
    split; [apply Rinv_0_lt_compat; lra|].
    rewrite <- Rinv_1. apply Rinv_le_contravar; lra. }
  assert (Hsq : 0 <= Rabs x ^ 2 <= Rabs x) by (cbn [pow]; nra).
  assert (Hcx : 0 <= c2 * Rabs x ^ 2) by (apply Rmult_le_pos; lra).
  assert (Hdev : c2 * Rabs x ^ 2 * (1 - / 2 ^ (n - 2)) <= c2 * Rabs x ^ 2) by nra.
  assert (HRe : Rabs (coef 0%nat) - c2 * Rabs x ^ 2 <= Rabs (Cre P)).
  { pose proof (Rabs_triang_inv (coef 0%nat) (coef 0%nat - Cre P)) as Ht.
    replace (coef 0%nat - (coef 0%nat - Cre P)) with (Cre P) in Ht by ring.
    rewrite (Rabs_minus_sym (coef 0%nat)) in Ht. lra. }
  assert (HIm : Rabs (coef 1%nat) * Rabs x - c2 * Rabs x ^ 2 <= Rabs (Cim P)).
  { pose proof (Rabs_triang_inv (coef 1%nat * x) (coef 1%nat * x - Cim P)) as Ht.
    replace (coef 1%nat * x - (coef 1%nat * x - Cim P)) with (Cim P) in Ht by ring.
    rewrite (Rabs_minus_sym (coef 1%nat * x)), Rabs_mult in Ht. lra. }
  apply Rmin_glb; nra.
Qed.

(** Every pass from the 64th on passes the test of an element with
    [0 < |x| < 1]. *)
Lemma converges_from_pass_64 (coef : nat -> R) (bound : nat -> R -> R)
    (c2 x : R) (n : nat) :
  (forall m, (2 <= m)%nat -> Rabs (coef m) <= c2) ->
  Rabs (coef 1%nat) <= Rabs (coef 0%nat) ->
  0 <= c2 ->
  / 60 <= Rabs (coef 1%nat) - c2 ->
  bound n x <= 2 * Rabs x ^ S n * exp (Rabs x) * / INR (fact n) ->
  x <> 0 ->
  Rabs x < 1 ->
  (64 <= n)%nat ->
  converged_at coef bound n x = true.
Proof.
  intros Hc H01 Hc2 Hk Hb Hx0 Hx1 Hn.
  unfold converged_at. cbv zeta. apply Rltb_true.
  pose proof (taylor_partial_min_component coef c2 x (S n) Hc H01
                ltac:(lra) Hx1 ltac:(lia)) as Hmin.
  assert (Hx : 0 < Rabs x) by now apply Rabs_pos_lt.
  assert (He : 0 < exp (Rabs x) <= 3).
  { split; [apply exp_pos|].
    apply Rle_trans with (exp 1); [|apply exp_le_3].
    destruct (Rle_lt_or_eq_dec (Rabs x) 1 ltac:(lra)) as [Hlt| ->]; [|lra].
    left. now apply exp_increasing. }
  assert (Hpow : 0 <= Rabs x ^ n <= 1) by (apply pow_le_1; lra).
  assert (Hfact : 0 < / INR (fact n) <= / 2 ^ 63).
  { assert (H63 : 0 < 2 ^ 63) by (apply pow_lt; lra).
    assert (Hle : 2 ^ 63 <= 2 ^ (n - 1)) by (apply Rle_pow; [lra | lia]).
    pose proof (pow2_le_fact (n - 1)) as Hf.
    replace (S (n - 1)) with n in Hf by lia.
    split; [apply Rinv_0_lt_compat; lra | apply Rinv_le_contravar; lra]. }
  assert (H63 : / 2 ^ 63 = float64_eps * / 2048).
  { unfold float64_eps. change 63%nat with (52 + 11)%nat.
    rewrite pow_add, Rinv_mult. f_equal. f_equal. simpl. lra. }
  pose proof float64_eps_bounds as [Heps _].
  set (m := Rmin _ _) in *.
  assert (Hbound : bound n x <= 6 * Rabs x * / 2 ^ 63).
  { eapply Rle_trans; [exact Hb|]. cbn [pow].
    assert (H1 : 0 <= Rabs x * Rabs x ^ n <= Rabs x) by nra.
    assert (H2 : 0 <= 2 * (Rabs x * Rabs x ^ n) * exp (Rabs x) <= 6 * Rabs x) by nra.
    apply Rmult_le_compat; lra. }
  rewrite H63 in Hbound.
  assert (Hm : / 60 * Rabs x <= m) by nra.
  assert (Hprod : 0 < float64_eps * Rabs x) by (apply Rmult_lt_0_compat; lra).
  nra.
Qed.

Lemma find_within (f : nat -> bool) (len a n0 : nat) :
  (a <= n0 < a + len)%nat ->
  f n0 = true ->
  exists k, find f (seq a len) = Some k /\ (k <= n0)%nat.
Proof.
  revert a. induction len as [|len IH]; intros a Hn Hf; [lia|].
  cbn [seq find]. destruct (f a) eqn:Ha.
  - exists a. split; [reflexivity | lia].
  - assert (a <> n0) by (intros ->; congruence).
    apply IH; [lia | assumption].
Qed.

Lemma phi_coef_facts :
  (forall m, (2 <= m)%nat -> Rabs (phi_coef m) <= 4 / 15)
  /\ Rabs (phi_coef 0) = 1 / 2 /\ Rabs (phi_coef 1) = 7 / 20.
Proof.
  split; [|split].
  - intros m Hm. unfold phi_coef.
    assert (H2 : 2 <= INR m) by (apply (le_INR 2); assumption).
    assert (Hd : 0 < (INR m + 3) * (INR m + 4)) by nra.
    rewrite Rabs_right.
    + apply (Rmult_le_reg_r ((INR m + 3) * (INR m + 4))); [assumption|].
      unfold Rdiv. rewrite Rmult_assoc, Rinv_l by lra. nra.
    + apply Rle_ge. apply Rmult_le_pos; [lra|].
      left. apply Rinv_0_lt_compat. assumption.
  - unfold phi_coef. simpl. rewrite Rabs_right; lra.
  - unfold phi_coef. simpl. rewrite Rabs_right; lra.
Qed.

Lemma psi_coef_facts :
  (forall m, (2 <= m)%nat -> Rabs (psi_coef m) <= 1 / 30)
  /\ Rabs (psi_coef 0) = 1 / 12 /\ Rabs (psi_coef 1) = 1 / 20.
Proof.
  split; [|split].
  - intros m Hm. unfold psi_coef.
    assert (H2 : 2 <= INR m) by (apply (le_INR 2); assumption).
    assert (Hd : 0 < (INR m + 3) * (INR m + 4)) by nra.
    replace (- 1 / ((INR m + 3) * (INR m + 4)))
      with (- (1 / ((INR m + 3) * (INR m + 4)))) by (field; lra).
    rewrite Rabs_Ropp, Rabs_right.
    + apply (Rmult_le_reg_r ((INR m + 3) * (INR m + 4))); [assumption|].
      unfold Rdiv. rewrite Rmult_assoc, Rinv_l by lra. nra.
    + apply Rle_ge. apply Rmult_le_pos; [lra|].
      left. apply Rinv_0_lt_compat. assumption.
  - unfold psi_coef. simpl.
    replace (-1 / ((0 + 3) * (0 + 4))) with (- (1 / 12)) by lra.
    rewrite Rabs_Ropp, Rabs_right; lra.
  - unfold psi_coef. simpl.
    replace (-1 / ((1 + 3) * (1 + 4))) with (- (1 / 20)) by lra.
    rewrite Rabs_Ropp, Rabs_right; lra.
Qed.

Lemma lambda_coef_facts :
  (forall m, (2 <= m)%nat -> Rabs (lambda_coef m) <= 1 / 4)
  /\ Rabs (lambda_coef 0) = 1 / 2 /\ Rabs (lambda_coef 1) = 1 / 3.
Proof.
  split; [|split].
  - intros m Hm. unfold lambda_coef.
    assert (H2 : 2 <= INR m) by (apply (le_INR 2); assumption).
    rewrite Rabs_right.
    + apply (Rmult_le_reg_r (INR m + 2)); [lra|].
      unfold Rdiv. rewrite Rmult_assoc, Rinv_l by lra. lra.
    + apply Rle_ge. apply Rmult_le_pos; [lra|].
      left. apply Rinv_0_lt_compat. lra.
  - unfold lambda_coef. simpl. rewrite Rabs_right; lra.
  - unfold lambda_coef. simpl. rewrite Rabs_right; lra.
Qed.

(** The three remaining-term bounds are at most [2 |x|^(n+1) e^|x| / n!]. *)
Lemma bounds_dominated (n : nat) (x : R) :
  let b := 2 * Rabs x ^ S n * exp (Rabs x) * / INR (fact n) in
  phi_bound n x <= b /\ psi_bound n x <= b /\ lambda_bound n x <= b.
Proof.
  cbv zeta.
  pose proof (pos_INR n) as Hn.
  assert (Hx : 0 <= Rabs x ^ S n) by (apply pow_le, Rabs_pos).
  pose proof (exp_pos (Rabs x)) as He.
  assert (Hf : 0 < / INR (fact n)) by (apply Rinv_0_lt_compat, INR_fact_lt_0).
  set (t := Rabs x ^ S n * exp (Rabs x) * / INR (fact n)).
  assert (Ht : 0 <= t).
  { unfold t. apply Rmult_le_pos; [apply Rmult_le_pos|]; lra. }
  assert (Hdiv : forall d, 1 <= d -> forall a, 0 <= a -> a / d <= a).
  { intros d Hd a Ha. apply (Rmult_le_reg_r d); [lra|].
    unfold Rdiv. rewrite Rmult_assoc, Rinv_l by lra. nra. }
  unfold phi_bound, psi_bound, lambda_bound. fold t.
  replace (2 * Rabs x ^ S n * exp (Rabs x) * / INR (fact n)) with (2 * t)
    by (unfold t; ring).
  split; [|split].
  - apply Hdiv; nra.
  - apply Rle_trans with t; [apply Hdiv; nra | lra].
  - replace (t * 1) with t by ring.
    apply Rle_trans with t; [apply Hdiv; nra | lra].
Qed.

Lemma kernels_converge_from_pass_64 (x : R) (n : nat) :
  x <> 0 -> Rabs x < 1 -> (64 <= n)%nat ->
  converged_at phi_coef phi_bound n x = true
  /\ converged_at psi_coef psi_bound n x = true
  /\ converged_at lambda_coef lambda_bound n x = true.
Proof.
  intros Hx0 Hx1 Hn.
  destruct (bounds_dominated n x) as (Hbp & Hbq & Hbl).
  destruct phi_coef_facts as (Hp2 & Hp0 & Hp1).
  destruct psi_coef_facts as (Hq2 & Hq0 & Hq1).
  destruct lambda_coef_facts as (Hl2 & Hl0 & Hl1).
  split; [|split].
  - apply (converges_from_pass_64 phi_coef phi_bound (4 / 15)); try assumption;
      rewrite ?Hp0, ?Hp1; lra.
  - apply (converges_from_pass_64 psi_coef psi_bound (1 / 30)); try assumption;
      rewrite ?Hq0, ?Hq1; lra.
  - apply (converges_from_pass_64 lambda_coef lambda_bound (1 / 4)); try assumption;
      rewrite ?Hl0, ?Hl1; lra.
Qed.

Lemma Rltb_lt (a b : R) : Rltb a b = true -> a < b.
Proof. unfold Rltb. destruct (Rlt_dec a b); [trivial | discriminate]. Qed.

Lemma lambda_bound_zero n : lambda_bound n 0 = 0.
Proof. unfold lambda_bound. rewrite Rabs_R0. simpl. unfold Rdiv. ring. Qed.

Lemma in_taylor_lt (v : R) : in_taylor v = true -> Rabs v < 1.
Proof. apply Rltb_lt. Qed.

(** The batch test of a sub-batch without zero passes within 65 passes. *)
Lemma batch_converges_within_64 (x : list R) :
  ~ In 0 x ->
  let xx := np_select (map in_taylor x) x in
  let ns := seq 0 (MAX_TAYLOR_ITERATIONS + 1) in
  exists np nq,
    first_converged phi_coef phi_bound xx ns = Some np
    /\ first_converged psi_coef psi_bound xx ns = Some nq
    /\ (np <= 64)%nat /\ (nq <= 64)%nat.
Proof.
  intros H0. cbv zeta.
  assert (Hall : forall v, In v (np_select (map in_taylor x) x) ->
            v <> 0 /\ Rabs v < 1).
  { intros v Hv. apply np_select_In in Hv. destruct Hv as [Hin Ht].
    split; [intros -> ; contradiction | now apply in_taylor_lt]. }
  destruct (find_within (batch_converged phi_coef phi_bound
                           (np_select (map in_taylor x) x))
              (MAX_TAYLOR_ITERATIONS + 1) 0 64) as (np & Hnp & Hle).
  { unfold MAX_TAYLOR_ITERATIONS. lia. }
  { unfold batch_converged. apply forallb_forall. intros v Hv.
    destruct (Hall v Hv) as [Hv0 Hv1].
    now apply kernels_converge_from_pass_64. }
  destruct (find_within (batch_converged psi_coef psi_bound
                           (np_select (map in_taylor x) x))
              (MAX_TAYLOR_ITERATIONS + 1) 0 64) as (nq & Hnq & Hle').
  { unfold MAX_TAYLOR_ITERATIONS. lia. }
  { unfold batch_converged. apply forallb_forall. intros v Hv.
    destruct (Hall v Hv) as [Hv0 Hv1].
    now apply kernels_converge_from_pass_64. }
  exists np, nq. unfold first_converged. auto.
Qed.

Lemma batch_never_converges_with_zero (coef : nat -> R) (bound : nat -> R -> R)
    (x : list R) (ns : list nat) :
  (forall n, bound n 0 = 0) ->
  In 0 x ->
  first_converged coef bound (np_select (map in_taylor x) x) ns = None.
Proof.
  intros Hb H0. unfold first_converged. apply find_none_all. intros n.
  unfold batch_converged. apply forallb_false_in with (v := 0).
  - apply np_select_In. split; [assumption | apply in_taylor_0].
  - apply never_converged_at_zero, Hb.
Qed.

(** X2. [_phi_and_psi] returns exactly on the arrays without an element
    equal to [0]. *)
Theorem phi_and_psi_returns_iff_no_zero (x : list R) :
  (exists p q, _phi_and_psi x = Ok (p, q)) <-> ~ In 0 x.
Proof.
  rewrite phi_and_psi_closed. unfold phi_psi_closed_form. cbv zeta. split.
  - intros (p & q & H) H0.
    rewrite (batch_never_converges_with_zero phi_coef phi_bound x _
               phi_bound_zero H0) in H.
    discriminate.
  - intros H0.
    destruct (batch_converges_within_64 x H0) as (np & nq & -> & -> & _).
    do 2 eexists. reflexivity.
Qed.

(** X3. When [_phi_and_psi] returns, both batch tests passed within 65
    passes; the two arrays have the length of the input, hold the closed
    forms where [|x| >= 1] and elsewhere the Taylor sums through the pass
    at which the batch converged; and every element of the Taylor branch
    satisfies the inequality that was tested: its remaining-term bound is
    below [eps] times the smaller of [|Re|] and [|Im|] of its sum. *)
Theorem phi_and_psi_postcondition (x : list R) (p q : list C) :
  _phi_and_psi x = Ok (p, q) ->
  exists np nq,
    (np <= 64)%nat /\ (nq <= 64)%nat
    /\ p = merge_branches phi_closed (taylor_partial phi_coef (S np)) x
    /\ q = merge_branches psi_closed (taylor_partial psi_coef (S nq)) x
    /\ length p = length x /\ length q = length x
    /\ forall v, In v x -> Rabs v < 1 ->
         phi_bound np v
         < float64_eps * Rmin (Rabs (Cre (taylor_partial phi_coef (S np) v)))
                              (Rabs (Cim (taylor_partial phi_coef (S np) v)))
         /\ psi_bound nq v
            < float64_eps * Rmin (Rabs (Cre (taylor_partial psi_coef (S nq) v)))
                                 (Rabs (Cim (taylor_partial psi_coef (S nq) v))).
Proof.
  intros H.
  assert (H0 : ~ In 0 x).
  { intros H0. rewrite phi_and_psi_closed in H.
    unfold phi_psi_closed_form in H. cbv zeta in H.
    rewrite (batch_never_converges_with_zero phi_coef phi_bound x _
               phi_bound_zero H0) in H.
    discriminate. }
  destruct (batch_converges_within_64 x H0) as (np & nq & Hp & Hq & Hle & Hle').
  rewrite phi_and_psi_closed in H. unfold phi_psi_closed_form in H.
  cbv zeta in H. rewrite Hp, Hq in H. injection H as <- <-.
  exists np, nq. repeat (split; [first [assumption | reflexivity]|]).
  split; [unfold merge_branches; apply length_map|].
  split; [unfold merge_branches; apply length_map|].
  intros v Hin Hv.
  assert (Hsel : In v (np_select (map in_taylor x) x)).
  { apply np_select_In. split; [assumption|]. now apply Rltb_true. }
  apply find_some in Hp, Hq.
  destruct Hp as [_ Hp], Hq as [_ Hq].
  unfold batch_converged in Hp, Hq.
  rewrite forallb_forall in Hp, Hq.
  split; apply Rltb_lt; [apply (Hp v Hsel) | apply (Hq v Hsel)].
Qed.

Lemma phi_and_psi_postcondition_witness :
  exists p q,
    _phi_and_psi [/ 2; 2] = Ok (p, q)
    /\ length p = 2%nat /\ length q = 2%nat.
Proof.
  assert (H0 : ~ In 0 [/ 2; 2]) by (intros [H|[H|[]]]; lra).
  destruct (batch_converges_within_64 _ H0) as (np & nq & Hp & Hq & _).
  pose proof (phi_and_psi_closed [/ 2; 2]) as Hc.
  unfold phi_psi_closed_form in Hc. cbv zeta in Hc. rewrite Hp, Hq in Hc.
  do 2 eexists. split; [exact Hc|].
  destruct (phi_and_psi_postcondition _ _ _ Hc)
    as (np' & nq' & _ & _ & _ & _ & Hlp & Hlq & _).
  split; assumption.
Defined.

(** ** Arrays that mix the two branches *)

Lemma underflow_threshold_pos : 0 < / 2 ^ 500.
Proof. apply Rinv_0_lt_compat, pow_lt. lra. Qed.

Lemma underflow_threshold_le (k : nat) :
  (k <= 500)%nat -> / 2 ^ 500 <= / 2 ^ k.
Proof.
  intros Hk. apply Rinv_le_contravar; [apply pow_lt; lra|].
  apply Rle_pow; [lra | exact Hk].
Qed.

Lemma clear_of_underflow_no_zero (x : list R) :
  clear_of_underflow x -> ~ In 0 x.
Proof.
  intros Hx H0. pose proof underflow_threshold_pos as Hpos.
  specialize (Hx 0 H0). rewrite Rabs_R0 in Hx. lra.
Qed.

(** C3. On an array that mixes elements of [|x| < 1] with elements of
    [|x| >= 1] (the small ones of magnitude [2^-500] at least, floats
    idealised as reals): [_phi_and_psi] evaluates the former by the Taylor
    branch and the latter by the closed forms in one call and returns the
    merged arrays, of the length of the input; [_lambda] does so only when
    exactly one element is in the Taylor branch, and raises [ValueError]
    instead of returning as soon as two or more are. *)
Theorem mixed_array_in_the_kernels (x : list R) :
  mixes_branches x ->
  clear_of_underflow x ->
  let xx := np_select (map in_taylor x) x in
  (exists p q np nq,
      _phi_and_psi x = Ok (p, q)
      /\ p = merge_branches phi_closed (taylor_partial phi_coef (S np)) x
      /\ q = merge_branches psi_closed (taylor_partial psi_coef (S nq)) x
      /\ length p = length x /\ length q = length x
      /\ (np <= 64)%nat /\ (nq <= 64)%nat)
  /\ ((2 <= length xx)%nat ->
      _lambda x
      = Raise (mk_exn ValueError
                 "The truth value of an array with more than one element is ambiguous. Use a.any() or a.all()"))
  /\ (forall v, xx = [v] ->
        exists n,
          (n <= 64)%nat
          /\ _lambda x
             = Ok (merge_branches lambda_closed
                     (taylor_partial lambda_coef (S n)) x)).
Proof.
  intros _ Hclear. cbv zeta.
  pose proof (clear_of_underflow_no_zero x Hclear) as H0.
  split; [|split].
  - destruct (batch_converges_within_64 x H0) as (np & nq & Hp & Hq & Hnp & Hnq).
    cbv zeta in Hp, Hq.
    exists (merge_branches phi_closed (taylor_partial phi_coef (S np)) x),
      (merge_branches psi_closed (taylor_partial psi_coef (S nq)) x), np, nq.
    rewrite phi_and_psi_closed. unfold phi_psi_closed_form. cbv zeta.
    rewrite Hp, Hq. unfold merge_branches. rewrite !length_map. auto 10.
  - intros Hlen. rewrite lambda_closed_form_correct. unfold lambda_closed_form.
    destruct (np_select (map in_taylor x) x) as [|u [|v r]];
      cbn [length] in Hlen; try lia.
    reflexivity.
  - intros v Hsel. rewrite lambda_closed_form_correct.
    unfold lambda_closed_form. rewrite Hsel.
    assert (Hin : In v x /\ in_taylor v = true).
    { apply (np_select_In in_taylor x v). rewrite Hsel. now left. }
    destruct Hin as [Hin Ht].
    assert (Hv : v <> 0) by (intros ->; contradiction).
    destruct (find_within (fun n => converged_at lambda_coef lambda_bound n v)
                (MAX_TAYLOR_ITERATIONS + 1) 0 64) as (k & -> & Hk).
    { unfold MAX_TAYLOR_ITERATIONS. lia. }
    { apply kernels_converge_from_pass_64;
        [assumption | now apply in_taylor_lt | lia]. }
    destruct (Nat.eqb_spec k MAX_TAYLOR_ITERATIONS) as [->|_].
    + unfold MAX_TAYLOR_ITERATIONS in Hk. lia.
    + exists k. split; [assumption | reflexivity].
Qed.

Lemma in_taylor_half : in_taylor (/ 2) = true.
Proof. unfold in_taylor. apply Rltb_true. rewrite Rabs_right; lra. Qed.

Lemma in_taylor_quarter : in_taylor (/ 4) = true.
Proof. unfold in_taylor. apply Rltb_true. rewrite Rabs_right; lra. Qed.

Lemma clear_of_underflow_sample : clear_of_underflow [/ 2; / 4; 2].
Proof.
  intros v [<-|[<-|[<-|[]]]] Hv.
  - rewrite Rabs_right by lra.
    replace (/ 2) with (/ 2 ^ 1) by (simpl; f_equal; lra).
    apply underflow_threshold_le. lia.
  - rewrite Rabs_right by lra.
    replace (/ 4) with (/ 2 ^ 2) by (simpl; f_equal; lra).
    apply underflow_threshold_le. lia.
  - rewrite Rabs_right in Hv; lra.
Qed.

Lemma mixed_array_in_the_kernels_witness :
  mixes_branches [/ 2; / 4; 2]
  /\ (exists p q,
        _phi_and_psi [/ 2; / 4; 2] = Ok (p, q) /\ length p = 3%nat)
  /\ _lambda [/ 2; / 4; 2]
     = Raise (mk_exn ValueError
                "The truth value of an array with more than one element is ambiguous. Use a.any() or a.all()").
Proof.
  assert (Hmix : mixes_branches [/ 2; / 4; 2]).
  { split; [exists (/ 2) | exists 2]; simpl.
    - split; [auto | apply in_taylor_half].
    - split; [auto | apply in_taylor_2]. }
  destruct (mixed_array_in_the_kernels [/ 2; / 4; 2] Hmix
              clear_of_underflow_sample) as (Hphi & Hlam & _).
  split; [exact Hmix|]. split.
  - destruct Hphi as (p & q & np & nq & Hpq & _ & _ & Hlen & _).
    exists p, q. split; assumption.
  - apply Hlam. cbn [map np_select].
    rewrite in_taylor_half, in_taylor_quarter, in_taylor_2. cbn [length]. lia.
Defined.

(** X4. An array with two or more elements of [|x| < 1] makes [_lambda]
    raise [ValueError]: the [if] of its first pass asks for the truth value
    of a comparison array of that many elements. *)
Theorem lambda_raises_on_several_small_elements (x : list R) :
  (2 <= length (np_select (map in_taylor x) x))%nat ->
  _lambda x
  = Raise (mk_exn ValueError
             "The truth value of an array with more than one element is ambiguous. Use a.any() or a.all()").
Proof.
  intros H. rewrite lambda_closed_form_correct. unfold lambda_closed_form.
  destruct (np_select (map in_taylor x) x) as [|u [|v r]];
    cbn [length] in H; try lia.
  reflexivity.
Qed.

Lemma lambda_raises_on_several_small_elements_witness :
  _lambda [0; 2; 0]
  = Raise (mk_exn ValueError
             "The truth value of an array with more than one element is ambiguous. Use a.any() or a.all()").
Proof.
  apply (lambda_raises_on_several_small_elements [0; 2; 0]).
  cbn [map np_select]. rewrite in_taylor_0, in_taylor_2. cbn [length]. lia.
Defined.

(** X5. [_lambda] returns only on an array with exactly one element
    of [|x| < 1], that element not being [0]; and on such an array it does
    return when the element has a magnitude of [2^-500] at least (floats
    idealised as reals). *)
Theorem lambda_returns_for_one_small_element (x : list R) :
  let xx := np_select (map in_taylor x) x in
  ((exists r, _lambda x = Ok r) -> exists v, xx = [v] /\ v <> 0)
  /\ (clear_of_underflow x ->
      forall v, xx = [v] -> exists r, _lambda x = Ok r).
Proof.
  cbv zeta. rewrite lambda_closed_form_correct. unfold lambda_closed_form.
  split.
  - intros (r & H).
    destruct (np_select (map in_taylor x) x) as [|v [|w l]]; try discriminate.
    exists v. split; [reflexivity|]. intros ->.
    rewrite find_none_all in H; [discriminate|].
    intros n. apply never_converged_at_zero, lambda_bound_zero.
  - intros Hclear v Hsel. rewrite Hsel.
    assert (Hin : In v x /\ in_taylor v = true).
    { apply (np_select_In in_taylor x v). rewrite Hsel. now left. }
    destruct Hin as [Hin Ht].
    assert (Hv : v <> 0).
    { intros ->. now apply (clear_of_underflow_no_zero x Hclear). }
    destruct (find_within (fun n => converged_at lambda_coef lambda_bound n v)
                (MAX_TAYLOR_ITERATIONS + 1) 0 64) as (k & -> & Hk).
    { unfold MAX_TAYLOR_ITERATIONS. lia. }
    { apply kernels_converge_from_pass_64;
        [assumption | now apply in_taylor_lt | lia]. }
    destruct (Nat.eqb_spec k MAX_TAYLOR_ITERATIONS) as [->|_].
    + unfold MAX_TAYLOR_ITERATIONS in Hk. lia.
    + eexists. reflexivity.
Qed.

Lemma lambda_returns_for_one_small_element_witness :
  exists r, _lambda [/ 2; 2] = Ok r.
Proof.
  apply (proj2 (lambda_returns_for_one_small_element [/ 2; 2])) with (v := / 2).
  - intros v [<-|[<-|[]]] Hv.
    + rewrite Rabs_right by lra.
      replace (/ 2) with (/ 2 ^ 1) by (simpl; f_equal; lra).
      apply underflow_threshold_le. lia.
    + rewrite Rabs_right in Hv; lra.
  - cbn [map np_select]. rewrite in_taylor_half, in_taylor_2. reflexivity.
Defined.

(** ** Batches evaluated in one or two passes *)

Lemma merge_branches_closed_only (closed taylor : R -> C) (x : list R) :
  (forall v, In v x -> in_taylor v = false) ->
  merge_branches closed taylor x = map closed x.
Proof.
  intros H. unfold merge_branches. apply map_ext_in.
  intros v Hv. now rewrite (H v Hv).
Qed.

Lemma not_in_taylor (v : R) : 1 <= Rabs v -> in_taylor v = false.
Proof. intros H. apply Rltb_false. lra. Qed.

(** X6. On an array without element of [|x| < 1] -- the empty array
    among them -- [_phi_and_psi] returns the closed forms: the test of
    its first pass is [np.all] of an empty comparison. *)
Theorem phi_and_psi_without_small_elements (x : list R) :
  (forall v, In v x -> 1 <= Rabs v) ->
  _phi_and_psi x = Ok (map phi_closed x, map psi_closed x).
Proof.
  intros H.
  assert (Hno : forall v, In v x -> in_taylor v = false)
    by (intros v Hv; apply not_in_taylor, H, Hv).
  rewrite phi_and_psi_closed. unfold phi_psi_closed_form. cbv zeta.
  rewrite (np_select_none in_taylor x Hno), passes_from_zero.
  cbn [first_converged find batch_converged forallb].
  now rewrite !merge_branches_closed_only.
Qed.

Lemma phi_and_psi_without_small_elements_witness :
  _phi_and_psi [2; -3] = Ok ([phi_closed 2; phi_closed (-3)],
                            [psi_closed 2; psi_closed (-3)]).
Proof.
  apply (phi_and_psi_without_small_elements [2; -3]).
  intros v [<-|[<-|[]]].
  - rewrite Rabs_right; lra.
  - rewrite Rabs_left; lra.
Defined.

Lemma second_pass_converged_abs (coef : nat -> R) (bound : nat -> R -> R) (v : R) :
  v <> 0 ->
  Rabs (coef 1%nat) * Rabs v <= Rabs (coef 0%nat) ->
  bound 1%nat v < float64_eps * (Rabs (coef 1%nat) * Rabs v) ->
  converged_at coef bound 1 v = true.
Proof.
  intros Hv Hmin Hb. unfold converged_at. cbv zeta.
  rewrite taylor_partial_two. unfold Cre, Cim. cbn [fst snd].
  rewrite Rabs_mult, Rmin_right by assumption.
  apply Rltb_true. assumption.
Qed.

(** Below [eps / 2] the tests pass at the second pass. *)
Lemma converges_at_second_pass (v : R) :
  v <> 0 -> Rabs v <= float64_eps / 2 ->
  (converged_at phi_coef phi_bound 0 v = false
   /\ converged_at phi_coef phi_bound 1 v = true)
  /\ (converged_at psi_coef psi_bound 0 v = false
      /\ converged_at psi_coef psi_bound 1 v = true).
Proof.
  intros Hv0 Hv.
  pose proof float64_eps_bounds as [He0 He1].
  assert (Ha : 0 < Rabs v) by now apply Rabs_pos_lt.
  assert (Hexp : 0 < exp (Rabs v) < 3).
  { split; [apply exp_pos|].
    apply Rlt_le_trans with (exp 1); [apply exp_increasing; lra | apply exp_le_3]. }
  destruct phi_coef_facts as (_ & Hp0 & Hp1).
  destruct psi_coef_facts as (_ & Hq0 & Hq1).
  assert (Hsq : 0 < Rabs v * Rabs v) by nra.
  assert (Hprod : Rabs v * exp (Rabs v) < 3 / 2 * float64_eps) by nra.
  split; split.
  - apply first_pass_not_converged. unfold phi_bound. simpl. rewrite Rinv_1.
    apply Rmult_le_pos; [|lra]. nra.
  - apply second_pass_converged_abs; [assumption | rewrite Hp0, Hp1; lra |].
    rewrite Hp1. unfold phi_bound. simpl. rewrite Rinv_1. nra.
  - apply first_pass_not_converged. unfold psi_bound. simpl. rewrite Rinv_1.
    apply Rmult_le_pos; [|lra]. nra.
  - apply second_pass_converged_abs; [assumption | rewrite Hq0, Hq1; lra |].
    rewrite Hq1. unfold psi_bound. simpl. rewrite Rinv_1. nra.
Qed.

Lemma first_converged_second_pass (coef : nat -> R) (bound : nat -> R -> R)
    (u : R) (xx : list R) :
  (forall v, In v (u :: xx) ->
     converged_at coef bound 0 v = false /\ converged_at coef bound 1 v = true) ->
  first_converged coef bound (u :: xx) (seq 0 (MAX_TAYLOR_ITERATIONS + 1))
  = Some 1%nat.
Proof.
  intros H. rewrite passes_from_zero. unfold first_converged.
  apply find_second.
  - unfold batch_converged. apply forallb_false_in with (v := u);
      [now left | apply H; now left].
  - unfold batch_converged. apply forallb_forall. intros v Hv. now apply H.
Qed.

(** X7. When every element of [|x| < 1] has a magnitude between
    [2^-500] and [eps / 2], the Taylor branch stops after two terms: these
    elements hold [1/2 + (7/20) i x] in Phi and [-1/12 - (1/20) i x] in
    Psi (floats idealised as reals). *)
Theorem phi_and_psi_tiny_arguments (x : list R) :
  (forall v, In v x -> Rabs v < 1 ->
             / 2 ^ 500 <= Rabs v <= float64_eps / 2) ->
  _phi_and_psi x
  = Ok (map (fun v => if in_taylor v then (1 / 2, 7 / 20 * v) else phi_closed v) x,
        map (fun v => if in_taylor v then (- (1 / 12), - (1 / 20) * v)
                      else psi_closed v) x).
Proof.
  intros H.
  assert (Hsel : forall v, In v (np_select (map in_taylor x) x) ->
            v <> 0 /\ Rabs v <= float64_eps / 2).
  { intros v Hv. apply np_select_In in Hv. destruct Hv as [Hin Ht].
    destruct (H v Hin (in_taylor_lt v Ht)) as [Hlo Hhi].
    pose proof underflow_threshold_pos as Hpos.
    split; [|exact Hhi]. intros ->. rewrite Rabs_R0 in Hlo. lra. }
  rewrite phi_and_psi_closed. unfold phi_psi_closed_form. cbv zeta.
  destruct (np_select (map in_taylor x) x) as [|u xx] eqn:Hxx.
  - assert (Hno : forall v, In v x -> in_taylor v = false).
    { intros v Hv. destruct (in_taylor v) eqn:Ht; [|reflexivity].
      assert (Hin : In v (np_select (map in_taylor x) x))
        by (apply np_select_In; auto).
      rewrite Hxx in Hin. destruct Hin. }
    rewrite passes_from_zero.
    cbn [first_converged find batch_converged forallb].
    rewrite !merge_branches_closed_only by assumption.
    f_equal. f_equal; apply map_ext_in; intros v Hv; now rewrite (Hno v Hv).
  - rewrite !first_converged_second_pass.
    + unfold merge_branches. f_equal. f_equal; apply map_ext; intros v;
        destruct (in_taylor v); try reflexivity; rewrite taylor_partial_two.
      * unfold phi_coef. simpl. apply C_eq; field.
      * unfold psi_coef. simpl. apply C_eq; field.
    + intros v Hv. destruct (Hsel v Hv) as [Hv0 Hve].
      apply (converges_at_second_pass v Hv0 Hve).
    + intros v Hv. destruct (Hsel v Hv) as [Hv0 Hve].
      apply (converges_at_second_pass v Hv0 Hve).
Qed.

Lemma phi_and_psi_tiny_arguments_witness :
  _phi_and_psi [tiny; 2]
  = Ok ([(1 / 2, 7 / 20 * tiny); phi_closed 2],
        [(- (1 / 12), - (1 / 20) * tiny); psi_closed 2]).
Proof.
  pose proof (phi_and_psi_tiny_arguments [tiny; 2]) as H.
  cbn [map] in H. rewrite in_taylor_tiny, in_taylor_2 in H.
  apply H. intros v [<-|[<-|[]]] Hv.
  - destruct tiny_facts as (Ht & Habs & _).
    pose proof float64_eps_bounds. rewrite Habs. split.
    + replace tiny with (/ 2 ^ 60); [apply underflow_threshold_le; lia|].
      unfold tiny, float64_eps. change 60%nat with (52 + 8)%nat.
      rewrite pow_add, Rinv_mult. unfold Rdiv. f_equal. f_equal. simpl. lra.
    + unfold tiny. lra.
  - rewrite Rabs_right in Hv; lra.
Defined.

(** ** Further properties of the asymptotic correction *)

Lemma correction_formula_opp (t w : R) (v d : C) :
  correction_formula (-1) t w v d = (- correction_formula 1 t w v d)%C.
Proof.
  unfold correction_formula, Cscale.
  destruct (Cis (t * w) * (Cdiv_real (Ci * v) t - Cdiv_real d (t * t)))%C.
  unfold Copp. cbn [fst snd]. apply C_eq; ring.
Qed.

(** X8. The correction towards [-inf] is the opposite of the correction
    towards [+inf] computed from the same end point, and fails when it
    does. *)
Theorem inf_correction_negative_is_opposite (times : list R) (omega_end : R)
    (func_value_end func_derivative_end : trail) :
  ~ In 0 times ->
  fourier_integral_inf_correction times omega_end func_value_end
    func_derivative_end false
  = match fourier_integral_inf_correction times omega_end func_value_end
            func_derivative_end true with
    | Ok a => Ok (mk_ndarray (trailing a) (map (map Copp) (rows a)))
    | Raise e => Raise e
    end.
Proof.
  intros _. unfold fourier_integral_inf_correction.
  destruct (pair_trailing func_value_end func_derivative_end) as [vd|e];
    [|reflexivity].
  cbn [bind trailing rows]. f_equal. f_equal.
  rewrite map_map. apply map_ext; intros t.
  rewrite map_map. apply map_ext; intros [v d]. cbn [fst snd].
  rewrite !correction_element. apply correction_formula_opp.
Qed.

Lemma inf_correction_negative_is_opposite_witness :
  fourier_integral_inf_correction [1; 2] 3 (mk_trail [2]%nat [C1; Ci])
    (mk_trail [2]%nat [Ci; C1]) false
  = match fourier_integral_inf_correction [1; 2] 3 (mk_trail [2]%nat [C1; Ci])
            (mk_trail [2]%nat [Ci; C1]) true with
    | Ok a => Ok (mk_ndarray (trailing a) (map (map Copp) (rows a)))
    | Raise e => Raise e
    end.
Proof.
  apply (inf_correction_negative_is_opposite [1; 2] 3).
  intros [H|[H|[]]]; lra.
Defined.

(** X9. A derivative given as a 0-d array (the default [0.] is one) is
    used at every trailing position: the result has the shape
    [(M, ...trailing...)] of the value block and holds
    [sign e^{i t w} (i v_j / t - d0 / t^2)]. *)
Theorem inf_correction_scalar_derivative (times : list R) (omega_end : R)
    (func_value_end : trail) (d0 : C) (positive_inf : bool) :
  ~ In 0 times ->
  length (t_data func_value_end) = np_prod (t_shape func_value_end) ->
  fourier_integral_inf_correction times omega_end func_value_end
    (mk_trail [] [d0]) positive_inf
  = Ok (mk_ndarray (t_shape func_value_end)
          (map (fun t =>
                  map (fun v =>
                         correction_formula (if positive_inf then 1 else -1)
                           t omega_end v d0)
                      (t_data func_value_end))
               times)).
Proof.
  intros _ Hlen. unfold fourier_integral_inf_correction, pair_trailing.
  cbn [t_shape t_data].
  destruct (list_eq_dec Nat.eq_dec (t_shape func_value_end) []) as [Hs|Hs].
  - rewrite Hs in Hlen. cbn in Hlen.
    destruct (t_data func_value_end) as [|v [|v' l]]; try discriminate.
    cbn [bind combine map]. rewrite Hs. f_equal. f_equal.
    apply map_ext; intros t. cbn [fst snd]. now rewrite correction_element.
  - cbn [bind]. f_equal. f_equal. apply map_ext; intros t.
    rewrite map_map. apply map_ext; intros v. cbn [fst snd].
    apply correction_element.
Qed.

Lemma inf_correction_scalar_derivative_witness :
  fourier_integral_inf_correction [1; 2] 3 (mk_trail [2]%nat [C1; Ci])
    (mk_trail [] [C0]) true
  = Ok (mk_ndarray [2]%nat
          [[correction_formula 1 1 3 C1 C0; correction_formula 1 1 3 Ci C0];
           [correction_formula 1 2 3 C1 C0; correction_formula 1 2 3 Ci C0]]).
Proof.
  apply (inf_correction_scalar_derivative [1; 2] 3 (mk_trail [2]%nat [C1; Ci])
           C0 true).
  - intros [H|[H|[]]]; lra.
  - reflexivity.
Defined.

Lemma correction_formula_add (sign t w : R) (v1 v2 d1 d2 : C) :
  correction_formula sign t w (v1 + v2) (d1 + d2)
  = (correction_formula sign t w v1 d1 + correction_formula sign t w v2 d2)%C.
Proof.
  unfold correction_formula, Cscale, Cis, Cdiv_real.
  destruct v1, v2, d1, d2. csimpl. apply C_eq; unfold Rdiv; ring.
Qed.

Lemma correction_rows_add (sign t w : R) (v1 v2 d1 d2 : list C) :
  map2 (correction_formula sign t w) (map2 Cadd v1 v2) (map2 Cadd d1 d2)
  = map2 Cadd (map2 (correction_formula sign t w) v1 d1)
              (map2 (correction_formula sign t w) v2 d2).
Proof.
  revert v2 d1 d2.
  induction v1 as [|a v1 IH]; intros [|b v2] [|c d1] [|e d2];
    cbn [map2]; try reflexivity.
  now rewrite correction_formula_add, IH.
Qed.

Lemma correction_same_shape (times : list R) (w : R) (s : list nat)
    (v d : list C) (positive_inf : bool) :
  fourier_integral_inf_correction times w (mk_trail s v) (mk_trail s d)
    positive_inf
  = Ok (mk_ndarray s
          (map (fun t =>
                  map2 (correction_formula (if positive_inf then 1 else -1) t w)
                       v d)
               times)).
Proof.
  unfold fourier_integral_inf_correction, pair_trailing. cbn [t_shape t_data].
  destruct (list_eq_dec Nat.eq_dec s s) as [_|Hne]; [|contradiction].
  cbn [bind]. f_equal. f_equal. apply map_ext; intros t.
  rewrite <- map_combine_map2. apply map_ext; intros p.
  apply correction_element.
Qed.

(** X10. The correction is additive in the end values: for blocks of one
    shape, the correction of the sums of two values and of two derivatives
    is the sum of the two corrections. *)
Theorem inf_correction_superposition (times : list R) (omega_end : R)
    (s : list nat) (v1 v2 d1 d2 : list C) (positive_inf : bool) :
  ~ In 0 times ->
  exists a1 a2,
    fourier_integral_inf_correction times omega_end (mk_trail s v1)
      (mk_trail s d1) positive_inf = Ok a1
    /\ fourier_integral_inf_correction times omega_end (mk_trail s v2)
         (mk_trail s d2) positive_inf = Ok a2
    /\ fourier_integral_inf_correction times omega_end
         (mk_trail s (map2 Cadd v1 v2)) (mk_trail s (map2 Cadd d1 d2))
         positive_inf
       = Ok (iadd a1 a2).
Proof.
  intros _. rewrite !correction_same_shape. do 2 eexists.
  split; [reflexivity|]. split; [reflexivity|].
  unfold iadd. cbn [trailing rows]. f_equal. f_equal.
  rewrite map2_map_map. apply map_ext; intros t.
  apply correction_rows_add.
Qed.

Lemma inf_correction_superposition_witness :
  exists a1 a2,
    fourier_integral_inf_correction [1; 2] 3 (mk_trail [2]%nat [C1; Ci])
      (mk_trail [2]%nat [Ci; C1]) true = Ok a1
    /\ fourier_integral_inf_correction [1; 2] 3 (mk_trail [2]%nat [Ci; Ci])
         (mk_trail [2]%nat [C1; C1]) true = Ok a2
    /\ fourier_integral_inf_correction [1; 2] 3
         (mk_trail [2]%nat [C1 + Ci; Ci + Ci]%C)
         (mk_trail [2]%nat [Ci + C1; C1 + C1]%C) true
       = Ok (iadd a1 a2).
Proof.
  apply (inf_correction_superposition [1; 2] 3 [2]%nat [C1; Ci] [Ci; Ci]
           [Ci; C1] [C1; C1] true).
  intros [H|[H|[]]]; lra.
Defined.

(** ** The integral as a whole: when it returns and when it raises *)

Lemma kernel_passes_zero (x : list R) : In 0 x -> kernel_passes x = None.
Proof.
  intros H0. unfold kernel_passes. cbv zeta.
  now rewrite (batch_never_converges_with_zero phi_coef phi_bound x _
                 phi_bound_zero H0).
Qed.

Lemma kernel_passes_nonzero (x : list R) :
  ~ In 0 x ->
  exists np nq,
    kernel_passes x = Some (np, nq) /\ (np <= 64)%nat /\ (nq <= 64)%nat.
Proof.
  intros H0. unfold kernel_passes.
  destruct (batch_converges_within_64 x H0) as (np & nq & Hp & Hq & Hle).
  cbv zeta in Hp, Hq |- *. rewrite Hp, Hq. now exists np, nq.
Qed.

Lemma kernel_passes_opp (x : list R) :
  kernel_passes (map Ropp x) = kernel_passes x.
Proof.
  unfold kernel_passes. cbv zeta. rewrite np_select_opp.
  now rewrite !first_converged_opp
    by (intros; first [apply phi_bound_opp | apply psi_bound_opp]).
Qed.

Lemma np_diff_nonempty (a : list R) :
  (2 <= length a)%nat -> exists d l, np_diff a = d :: l.
Proof.
  destruct a as [|u [|v a]]; cbn [length]; try lia.
  intros _. unfold np_diff. cbn [tl map2]. eauto.
Qed.

Lemma zero_time_in_grid (times omegas : list R) :
  (2 <= length omegas)%nat ->
  In 0 times ->
  In 0 (concat (kernel_argument_grid times omegas)).
Proof.
  intros Hlen H0. destruct (np_diff_nonempty omegas Hlen) as (d & l & Hd).
  apply in_concat.
  exists (map (fun dw => dw * 0) (np_diff omegas)). split.
  - unfold kernel_argument_grid.
    apply (in_map (fun t => map (fun dw => dw * t) (np_diff omegas))).
    assumption.
  - rewrite Hd. cbn [map]. left. ring.
Qed.

(** X11. A time equal to [0] on a grid of two or more frequencies makes
    the whole call raise the non-convergence error of the kernels, for
    every other time as well: its kernel arguments [dw * 0] are zero. *)
Theorem integral_raises_at_time_zero (pchip_interpolate : pchip_primitive)
    (times frequencies : list R) (func_values : ndarray) (pos neg : bool)
    (fd : list (list C)) :
  let omegas := map (fun f => 2 * PI * f) frequencies in
  complex_pchip pchip_interpolate omegas (rows func_values) omegas 1 0 = Ok fd ->
  (2 <= length frequencies)%nat ->
  (1 <= length (rows func_values))%nat ->
  (1 <= length fd)%nat ->
  In 0 times ->
  fourier_integral_fixed_sampling_pchip pchip_interpolate times frequencies
    func_values pos neg
  = Raise (mk_exn RuntimeError
             "Phi and Psi calculation failed to converge after 1000 iterations").
Proof.
  cbv zeta. intros Hfd Hf Hv Hd H0.
  unfold fourier_integral_fixed_sampling_pchip. cbv zeta.
  rewrite Hfd. cbn [bind].
  assert (Hw : (1 <= length (map (fun f => (2 * PI * f)%R) frequencies))%nat)
    by (rewrite length_map; lia).
  destruct (get_last_nonempty _ Hw) as (wl & ->).
  destruct (get_last_nonempty _ Hv) as (vl & ->).
  destruct (get_last_nonempty _ Hd) as (dl & ->).
  destruct (get_first_nonempty _ Hw) as (wf & ->).
  destruct (get_first_nonempty _ Hv) as (vf & ->).
  destruct (get_first_nonempty _ Hd) as (df & ->).
  assert (Hsum : forall k,
             filon_sum times (map (fun f => 2 * PI * f) frequencies)
               (rows func_values) fd k = Raise phi_psi_error).
  { intros k. unfold filon_sum. cbv zeta.
    rewrite phi_and_psi_2d_closed, kernel_passes_zero; [reflexivity|].
    apply zero_time_in_grid; [rewrite length_map; lia | assumption]. }
  rewrite <- phi_psi_error_message.
  destruct pos, neg; cbn [bind]; rewrite ?correction_same_shape; cbn [bind];
    rewrite ?correction_same_shape; cbn [bind]; rewrite Hsum; reflexivity.
Qed.

Lemma integral_raises_at_time_zero_witness :
  fourier_integral_fixed_sampling_pchip secant_pchip [1; 0] [1; 2]
    (mk_ndarray [] [[C1]; [Ci]]) true true
  = Raise (mk_exn RuntimeError
             "Phi and Psi calculation failed to converge after 1000 iterations").
Proof.
  eapply (integral_raises_at_time_zero secant_pchip [1; 0] [1; 2]
            (mk_ndarray [] [[C1]; [Ci]]) true true).
  - unfold complex_pchip. cbn [rows map Cre Cim C1 Ci fst snd].
    assert (H : 2 * PI * 1 < 2 * PI * 2) by (pose proof PI_RGT_0; lra).
    rewrite !secant_pchip_two_nodes by exact H. reflexivity.
  - cbn [length]. lia.
  - cbn [rows length]. lia.
  - cbn. lia.
  - cbn. auto.
Defined.

(** X12. With no time to evaluate, the call returns the empty array of
    shape [(0, ...trailing...)] as soon as the interpolation primitive
    accepts the grid; a correction flag needs the end points [[-1]] and
    [[0]] to exist. *)
Theorem integral_of_no_times (pchip_interpolate : pchip_primitive)
    (frequencies : list R) (func_values : ndarray) (pos neg : bool)
    (fd : list (list C)) :
  let omegas := map (fun f => 2 * PI * f) frequencies in
  complex_pchip pchip_interpolate omegas (rows func_values) omegas 1 0 = Ok fd ->
  (pos = true \/ neg = true ->
   (1 <= length frequencies)%nat /\ (1 <= length (rows func_values))%nat
   /\ (1 <= length fd)%nat) ->
  exists r,
    fourier_integral_fixed_sampling_pchip pchip_interpolate [] frequencies
      func_values pos neg = Ok r
    /\ shape r = 0%nat :: trailing func_values
    /\ rows r = [].
Proof.
  cbv zeta. intros Hfd Hne.
  unfold fourier_integral_fixed_sampling_pchip. cbv zeta.
  rewrite Hfd. cbn [bind].
  assert (Hsum : forall k,
             filon_sum [] (map (fun f => 2 * PI * f) frequencies)
               (rows func_values) fd k = Ok []).
  { intros k. unfold filon_sum. cbv zeta. cbn [kernel_argument_grid map].
    rewrite phi_and_psi_2d_closed. cbn [concat].
    rewrite (kernel_passes_closed_only []) by (intros v []).
    reflexivity. }
  destruct pos, neg; cbn [bind].
  - destruct Hne as (Hf & Hv & Hd); [now left|].
    assert (Hw : (1 <= length (map (fun f => (2 * PI * f)%R) frequencies))%nat)
      by (rewrite length_map; lia).
    destruct (get_last_nonempty _ Hw) as (wl & ->).
    destruct (get_last_nonempty _ Hv) as (vl & ->).
    destruct (get_last_nonempty _ Hd) as (dl & ->).
    destruct (get_first_nonempty _ Hw) as (wf & ->).
    destruct (get_first_nonempty _ Hv) as (vf & ->).
    destruct (get_first_nonempty _ Hd) as (df & ->).
    cbn [bind]. rewrite !correction_same_shape. cbn [bind].
    rewrite Hsum. cbn [bind]. eexists. split; [reflexivity|]. split; reflexivity.
  - destruct Hne as (Hf & Hv & Hd); [now left|].
    assert (Hw : (1 <= length (map (fun f => (2 * PI * f)%R) frequencies))%nat)
      by (rewrite length_map; lia).
    destruct (get_last_nonempty _ Hw) as (wl & ->).
    destruct (get_last_nonempty _ Hv) as (vl & ->).
    destruct (get_last_nonempty _ Hd) as (dl & ->).
    cbn [bind]. rewrite !correction_same_shape. cbn [bind].
    rewrite Hsum. cbn [bind]. eexists. split; [reflexivity|]. split; reflexivity.
  - destruct Hne as (Hf & Hv & Hd); [now right|].
    assert (Hw : (1 <= length (map (fun f => (2 * PI * f)%R) frequencies))%nat)
      by (rewrite length_map; lia).
    destruct (get_first_nonempty _ Hw) as (wf & ->).
    destruct (get_first_nonempty _ Hv) as (vf & ->).
    destruct (get_first_nonempty _ Hd) as (df & ->).
    cbn [bind]. rewrite !correction_same_shape. cbn [bind].
    rewrite Hsum. cbn [bind]. eexists. split; [reflexivity|]. split; reflexivity.
  - rewrite Hsum. cbn [bind]. eexists. split; [reflexivity|]. split; reflexivity.
Qed.

Lemma integral_of_no_times_witness :
  exists r,
    fourier_integral_fixed_sampling_pchip secant_pchip [] [1; 2]
      (mk_ndarray [] [[C1]; [Ci]]) true true = Ok r
    /\ shape r = [0%nat]
    /\ rows r = [].
Proof.
  eapply (integral_of_no_times secant_pchip [1; 2]
            (mk_ndarray [] [[C1]; [Ci]]) true true).
  - unfold complex_pchip. cbn [rows map Cre Cim C1 Ci fst snd].
    assert (H : 2 * PI * 1 < 2 * PI * 2) by (pose proof PI_RGT_0; lra).
    rewrite !secant_pchip_two_nodes by exact H. reflexivity.
  - intros _. cbn. lia.
Defined.

Lemma strictly_increasing_steps (frequencies : list R) (i : nat) :
  strictly_increasing frequencies = true ->
  (i < length frequencies - 1)%nat ->
  nth i frequencies 0 < nth (S i) frequencies 0.
Proof.
  unfold strictly_increasing. rewrite np_diff_index, forallb_forall.
  intros H Hi.
  specialize (H (nth (S i) frequencies 0 - nth i frequencies 0)).
  assert (Hin : In (nth (S i) frequencies 0 - nth i frequencies 0)
                  (map (fun k => nth (S k) frequencies 0 - nth k frequencies 0)
                       (seq 0 (length frequencies - 1)))).
  { apply (in_map (fun k => nth (S k) frequencies 0 - nth k frequencies 0)).
    apply in_seq. lia. }
  apply H, Rltb_lt in Hin. lra.
Qed.

Lemma no_zero_kernel_argument (times frequencies : list R) :
  strictly_increasing frequencies = true ->
  ~ In 0 times ->
  ~ In 0 (concat (kernel_arguments times (length frequencies)
                    (fun i => 2 * PI * nth i frequencies 0))).
Proof.
  intros Hinc Ht H0. apply in_concat in H0. destruct H0 as (row & Hrow & H0).
  unfold kernel_arguments in Hrow. apply in_map_iff in Hrow.
  destruct Hrow as (t & <- & Htin).
  apply in_map_iff in H0. destruct H0 as (i & Hi & Hiin).
  apply in_seq in Hiin.
  pose proof (strictly_increasing_steps frequencies i Hinc ltac:(lia)) as Hstep.
  pose proof PI_RGT_0 as Hpi.
  assert (Hdw : 0 < 2 * PI * nth (S i) frequencies 0 - 2 * PI * nth i frequencies 0)
    by nra.
  assert (Ht0 : t = 0) by nra.
  subst t. contradiction.
Qed.

(** X13. On a strictly increasing grid and times that are all non-zero,
    with kernel arguments [dw * t] of magnitude [2^-500] at least where
    they are below 1, the call returns as soon as the interpolation
    primitive has returned derivatives of the shape of the samples: both
    kernel batches converge within 65 passes, at the same passes for [x]
    and for [-x], and the entry for time [t] and trailing position [j] is
    the correction terms asked for plus the sum over the sub-intervals
    (floats idealised as reals). *)
Theorem integral_returns_on_increasing_grid (pchip_interpolate : pchip_primitive)
    (times frequencies : list R) (func_values : ndarray)
    (func_derivatives : list (list C)) (pos neg : bool) :
  let N := length frequencies in
  let K := np_prod (trailing func_values) in
  let omegas := map (fun f => 2 * PI * f) frequencies in
  let f := fun i j => nth j (nth i (rows func_values) []) C0 in
  let f' := fun i j => nth j (nth i func_derivatives []) C0 in
  (1 <= N)%nat ->
  strictly_increasing frequencies = true ->
  ~ In 0 times ->
  clear_of_underflow (concat (kernel_argument_grid times omegas)) ->
  length (rows func_values) = N ->
  well_shaped K (rows func_values) ->
  complex_pchip pchip_interpolate omegas (rows func_values) omegas 1 0
  = Ok func_derivatives ->
  length func_derivatives = N ->
  well_shaped K func_derivatives ->
  exists np nq,
    (np <= 64)%nat /\ (nq <= 64)%nat
    /\ fourier_integral_fixed_sampling_pchip pchip_interpolate times frequencies
         func_values pos neg
       = Ok (mk_ndarray (trailing func_values)
               (map (fun t =>
                       map (integral_at frequencies f f' pos neg np nq np nq t)
                           (seq 0 K))
                    times)).
Proof.
  cbv zeta. intros HN Hinc Ht _ Hlen Hw Hpchip Hdlen Hdw.
  destruct (kernel_passes_nonzero _ (no_zero_kernel_argument times frequencies
                                       Hinc Ht))
    as (np & nq & Hk & Hnp & Hnq).
  exists np, nq. split; [assumption|]. split; [assumption|].
  destruct func_values as [shp r]. cbn [rows trailing] in *.
  pose proof (rows_index_full _ _ Hw) as Er. rewrite Hlen in Er.
  pose proof (rows_index_full _ _ Hdw) as Ed. rewrite Hdlen in Ed.
  pose proof (fourier_integral_closed pchip_interpolate times frequencies shp
                (fun i j => nth j (nth i r []) C0)
                (fun i j => nth j (nth i func_derivatives []) C0)
                pos neg HN) as Hclosed.
  cbv beta in Hclosed. rewrite <- Er, <- Ed in Hclosed.
  rewrite (Hclosed Hpchip).
  now rewrite <- concat_map, kernel_passes_opp, Hk.
Qed.

Lemma integral_returns_on_increasing_grid_witness :
  exists r,
    fourier_integral_fixed_sampling_pchip secant_pchip [1; / 8] [1; 2]
      (mk_ndarray [] [[C1]; [Ci]]) true true = Ok r
    /\ shape r = [2%nat].
Proof.
  assert (Hpi : 2 * PI * 1 < 2 * PI * 2) by (pose proof PI_RGT_0; lra).
  set (d := (0 - 1) / (2 * PI * 2 - 2 * PI * 1)).
  set (e := (1 - 0) / (2 * PI * 2 - 2 * PI * 1)).
  destruct (integral_returns_on_increasing_grid secant_pchip [1; / 8] [1; 2]
              (mk_ndarray [] [[C1]; [Ci]])
              [[(RtoC d + Ci * RtoC e)%C]; [(RtoC d + Ci * RtoC e)%C]]
              true true)
    as (np & nq & _ & _ & H).
  - cbn [length]. lia.
  - unfold strictly_increasing, np_diff. cbn [tl map2 forallb].
    rewrite Rltb_true by lra. reflexivity.
  - intros [H|[H|[]]]; lra.
  - unfold kernel_argument_grid, np_diff. cbn [map tl map2 concat app].
    pose proof PI2_3_2 as Hpi3.
    intros v [<-|[<-|[]]] Hv.
    + rewrite Rabs_right in Hv by lra. lra.
    + rewrite Rabs_right by lra.
      apply Rle_trans with (/ 2 ^ 1); [apply underflow_threshold_le; lia|].
      simpl. lra.
  - reflexivity.
  - repeat constructor.
  - unfold complex_pchip. cbn [rows map Cre Cim C1 Ci fst snd].
    rewrite !secant_pchip_two_nodes by exact Hpi. reflexivity.
  - reflexivity.
  - repeat constructor.
  - eexists. split; [exact H | reflexivity].
Defined.

(** ** The Taylor branch against the closed form *)

Lemma Cpow_parity (x : R) (m : nat) :
  Cpow (Ci * RtoC x) (2 * m) = ((-1) ^ m * x ^ (2 * m), 0)
  /\ Cpow (Ci * RtoC x) (2 * m + 1) = (0, (-1) ^ m * x ^ (2 * m + 1)).
Proof.
  induction m as [|m [IHe IHo]].
  - cbn [Nat.mul Nat.add Cpow pow]. split; cring.
  - assert (He : Cpow (Ci * RtoC x) (2 * S m)
                 = ((-1) ^ S m * x ^ (2 * S m), 0)).
    { replace (2 * S m)%nat with (S (2 * m + 1)) by lia.
      destruct (Cpow_step x (2 * m + 1)) as [Hre Him].
      rewrite IHo in Hre, Him. unfold Cre, Cim in Hre, Him. cbn [fst snd] in Hre, Him.
      rewrite (surjective_pairing (Cpow (Ci * RtoC x) (S (2 * m + 1)))).
      unfold Cre, Cim in *. rewrite Hre, Him.
      replace (S (2 * m + 1)) with (S (2 * m + 1))%nat by reflexivity.
      apply C_eq; [|ring].
      replace (2 * m + 1)%nat with (S (2 * m)) by lia. cbn [pow]. ring. }
    split; [exact He|].
    replace (2 * S m + 1)%nat with (S (2 * S m)) by lia.
    destruct (Cpow_step x (2 * S m)) as [Hre Him].
    rewrite He in Hre, Him. unfold Cre, Cim in Hre, Him. cbn [fst snd] in Hre, Him.
    rewrite (surjective_pairing (Cpow (Ci * RtoC x) (S (2 * S m)))).
    unfold Cre, Cim in *. rewrite Hre, Him.
    apply C_eq; [ring|]. cbn [pow]. ring.
Qed.

Lemma exp_partial_S (M : nat) (x : R) :
  exp_partial (S M) x
  = (Cre (exp_partial M x) + Cre (Cpow (Ci * RtoC x) M) * / INR (fact M),
     Cim (exp_partial M x) + Cim (Cpow (Ci * RtoC x) M) * / INR (fact M)).
Proof.
  unfold exp_partial.
  destruct (taylor_partial_components (fun _ => 1) M x) as [Hre Him].
  destruct (taylor_term_components (fun _ => 1) M x) as [Tre Tim].
  rewrite (surjective_pairing (taylor_partial _ (S M) x)).
  unfold Cre, Cim in *. rewrite Hre, Him, Tre, Tim. apply C_eq; ring.
Qed.

(** The partial sums of the exponential series at [ix] are those of the
    cosine and the sine. *)
Lemma exp_partial_trig (x : R) (k : nat) :
  exp_partial (2 * k + 2) x = (cos_approx x k, sin_approx x k)
  /\ exp_partial (2 * k + 3) x = (cos_approx x (S k), sin_approx x k).
Proof.
  assert (Hstep : forall k,
             exp_partial (2 * k + 2) x = (cos_approx x k, sin_approx x k) ->
             exp_partial (2 * k + 3) x = (cos_approx x (S k), sin_approx x k)).
  { intros j Hj. replace (2 * j + 3)%nat with (S (2 * j + 2)) by lia.
    rewrite exp_partial_S, Hj.
    replace (2 * j + 2)%nat with (2 * S j)%nat by lia.
    destruct (Cpow_parity x (S j)) as [-> _].
    unfold Cre, Cim. cbn [fst snd].
    unfold cos_approx. rewrite tech5. unfold cos_term.
    apply C_eq; unfold Rdiv; ring. }
  induction k as [|k [IHe IHo]].
  - assert (H2 : exp_partial 2 x = (cos_approx x 0, sin_approx x 0)).
    { unfold exp_partial. rewrite taylor_partial_two.
      unfold cos_approx, sin_approx, cos_term, sin_term.
      cbn [sum_f_R0 Nat.mul Nat.add pow fact INR].
      apply C_eq; field. }
    split; [exact H2 | apply (Hstep 0%nat H2)].
  - assert (He : exp_partial (2 * S k + 2) x
                 = (cos_approx x (S k), sin_approx x (S k))).
    { replace (2 * S k + 2)%nat with (S (2 * k + 3)) by lia.
      rewrite exp_partial_S, IHo.
      replace (2 * k + 3)%nat with (2 * S k + 1)%nat by lia.
      destruct (Cpow_parity x (S k)) as [_ ->].
      unfold Cre, Cim. cbn [fst snd].
      unfold sin_approx. rewrite tech5. unfold sin_term.
      apply C_eq; unfold Rdiv; ring. }
    split; [exact He | apply (Hstep (S k) He)].
Qed.

Lemma pow_minus_one_even (n : nat) : (-1) ^ (2 * n) = 1.
Proof. apply pow_1_even. Qed.

Lemma pow_minus_one_odd (n : nat) : (-1) ^ (2 * n + 1) = -1.
Proof. replace (2 * n + 1)%nat with (S (2 * n)) by lia. apply pow_1_odd. Qed.

Lemma term_nonneg (x : R) (m : nat) : 0 <= x -> 0 <= x ^ m / INR (fact m).
Proof.
  intros Hx. apply Rmult_le_pos; [now apply pow_le|].
  left. apply Rinv_0_lt_compat, INR_fact_lt_0.
Qed.

(** The cosine and the sine within the next term of their partial
    sums. *)
Lemma cos_approx_error (x : R) (j : nat) :
  0 <= x <= 1 ->
  Rabs (cos x - cos_approx x j) <= x ^ (2 * j + 2) / INR (fact (2 * j + 2)).
Proof.
  intros Hx.
  pose proof (term_nonneg x (2 * j + 2) (proj1 Hx)) as Hpos.
  assert (Hnext : cos_approx x (S j) = cos_approx x j + cos_term x (S j))
    by (unfold cos_approx; apply tech5).
  unfold cos_term in Hnext.
  replace (2 * S j)%nat with (2 * j + 2)%nat in Hnext by lia.
  destruct (Nat.Even_or_Odd j) as [[n Hn]|[n Hn]].
  - (* j even: cos_approx (j+1) <= cos <= cos_approx j *)
    assert (Hup : cos x <= cos_approx x j).
    { destruct n as [|n].
      - subst j. unfold cos_approx, cos_term. simpl.
        pose proof (COS_bound x). lra.
      - pose proof (pre_cos_bound x n ltac:(lra) ltac:(lra)) as [_ H].
        replace (2 * (n + 1))%nat with j in H by lia. exact H. }
    assert (Hlo : cos_approx x (S j) <= cos x).
    { pose proof (pre_cos_bound x n ltac:(lra) ltac:(lra)) as [H _].
      replace (2 * n + 1)%nat with (S j) in H by lia. exact H. }
    assert (Hs : (-1) ^ S j = -1).
    { replace (S j) with (2 * n + 1)%nat by lia. apply pow_minus_one_odd. }
    rewrite Hnext, Hs in Hlo. apply Rabs_le. lra.
  - (* j odd: cos_approx j <= cos <= cos_approx (j+1) *)
    pose proof (pre_cos_bound x n ltac:(lra) ltac:(lra)) as [Hlo Hup].
    replace (2 * n + 1)%nat with j in Hlo by lia.
    replace (2 * (n + 1))%nat with (S j) in Hup by lia.
    assert (Hs : (-1) ^ S j = 1).
    { replace (S j) with (2 * (n + 1))%nat by lia. apply pow_minus_one_even. }
    rewrite Hnext, Hs in Hup. apply Rabs_le. lra.
Qed.

Lemma sin_approx_error (x : R) (j : nat) :
  0 <= x <= 1 ->
  Rabs (sin x - sin_approx x j) <= x ^ (2 * j + 3) / INR (fact (2 * j + 3)).
Proof.
  intros Hx.
  pose proof (term_nonneg x (2 * j + 3) (proj1 Hx)) as Hpos.
  assert (Hnext : sin_approx x (S j) = sin_approx x j + sin_term x (S j))
    by (unfold sin_approx; apply tech5).
  unfold sin_term in Hnext.
  replace (2 * S j + 1)%nat with (2 * j + 3)%nat in Hnext by lia.
  destruct (Nat.Even_or_Odd j) as [[n Hn]|[n Hn]].
  - assert (Hup : sin x <= sin_approx x j).
    { destruct n as [|n].
      - subst j. unfold sin_approx, sin_term. simpl.
        destruct (Req_dec x 0) as [->|Hx0]; [rewrite sin_0; lra|].
        pose proof (sin_lt_x x ltac:(lra)). lra.
      - pose proof (pre_sin_bound x n ltac:(lra) ltac:(lra)) as [_ H].
        replace (2 * (n + 1))%nat with j in H by lia. exact H. }
    assert (Hlo : sin_approx x (S j) <= sin x).
    { pose proof (pre_sin_bound x n ltac:(lra) ltac:(lra)) as [H _].
      replace (2 * n + 1)%nat with (S j) in H by lia. exact H. }
    assert (Hs : (-1) ^ S j = -1).
    { replace (S j) with (2 * n + 1)%nat by lia. apply pow_minus_one_odd. }
    rewrite Hnext, Hs in Hlo. apply Rabs_le. lra.
  - pose proof (pre_sin_bound x n ltac:(lra) ltac:(lra)) as [Hlo Hup].
    replace (2 * n + 1)%nat with j in Hlo by lia.
    replace (2 * (n + 1))%nat with (S j) in Hup by lia.
    assert (Hs : (-1) ^ S j = 1).
    { replace (S j) with (2 * (n + 1))%nat by lia. apply pow_minus_one_even. }
    rewrite Hnext, Hs in Hup. apply Rabs_le. lra.
Qed.

Lemma next_term_smaller (x : R) (m : nat) :
  0 <= x <= 1 ->
  x ^ S m / INR (fact (S m)) <= x ^ m / INR (fact m).
Proof.
  intros Hx.
  pose proof (term_nonneg x m (proj1 Hx)) as Ht.
  unfold Rdiv at 1. rewrite <- inv_fact_step. cbn [pow].
  pose proof (pos_INR m) as Hm.
  assert (Hinv : 0 < / (INR m + 1) <= 1).
  { split; [apply Rinv_0_lt_compat; lra|].
    rewrite <- Rinv_1. apply Rinv_le_contravar; lra. }
  unfold Rdiv in *.
  replace (x * x ^ m * (/ INR (fact m) * / (INR m + 1)))
    with ((x ^ m * / INR (fact m)) * (x * / (INR m + 1))) by ring.
  assert (0 <= x * / (INR m + 1) <= 1) by nra.
  nra.
Qed.

(** The exponential [e^{ix}] within the next term of its partial sums,
    component by component. *)
Lemma exp_partial_error (x : R) (M : nat) :
  0 <= x <= 1 ->
  (2 <= M)%nat ->
  Rabs (cos x - Cre (exp_partial M x)) <= x ^ M / INR (fact M)
  /\ Rabs (sin x - Cim (exp_partial M x)) <= x ^ M / INR (fact M).
Proof.
  intros Hx HM.
  destruct (Nat.Even_or_Odd M) as [[k Hk]|[k Hk]].
  - replace M with (2 * (k - 1) + 2)%nat by lia.
    destruct (exp_partial_trig x (k - 1)) as [-> _].
    unfold Cre, Cim. cbn [fst snd]. split.
    + apply cos_approx_error, Hx.
    + eapply Rle_trans; [apply sin_approx_error, Hx|].
      replace (2 * (k - 1) + 3)%nat with (S (2 * (k - 1) + 2)) by lia.
      apply next_term_smaller, Hx.
  - replace M with (2 * (k - 1) + 3)%nat by lia.
    destruct (exp_partial_trig x (k - 1)) as [_ ->].
    unfold Cre, Cim. cbn [fst snd]. split.
    + eapply Rle_trans; [apply cos_approx_error, Hx|].
      replace (2 * S (k - 1) + 2)%nat with (S (2 * (k - 1) + 3)) by lia.
      apply next_term_smaller, Hx.
    + apply sin_approx_error, Hx.
Qed.

Lemma closed_forms_by_numerator (x : R) :
  phi_closed x
  = (phi_numerator x (Cis x) (Cis x) (Cis x) / RtoC (x ^ 4))%C
  /\ psi_closed x
     = (psi_numerator x (Cis x) (Cis x) (Cis x) / RtoC (x ^ 4))%C.
Proof.
  unfold phi_closed, psi_closed, phi_numerator, psi_numerator. cbv zeta.
  rewrite Cexp_i. split; reflexivity.
Qed.

Lemma inv_fact_shift (N : nat) :
  / INR (fact (S N)) = / INR (fact N) * / (INR N + 1)
  /\ / INR (fact (S (S N))) = / INR (fact N) * / ((INR N + 1) * (INR N + 2))
  /\ / INR (fact (S (S (S N))))
     = / INR (fact N) * / ((INR N + 1) * (INR N + 2) * (INR N + 3))
  /\ / INR (fact (S (S (S (S N)))))
     = / INR (fact N)
       * / ((INR N + 1) * (INR N + 2) * (INR N + 3) * (INR N + 4)).
Proof.
  pose proof (pos_INR N) as HN. pose proof (INR_fact_neq_0 N) as Hf.
  rewrite <- !inv_fact_step, !S_INR. repeat split; field; repeat split; lra.
Qed.

Lemma Cpow_shift (x : R) (N : nat) :
  let a := Cre (Cpow (Ci * RtoC x) N) in
  let b := Cim (Cpow (Ci * RtoC x) N) in
  Cpow (Ci * RtoC x) (S N) = (- b * x, a * x)
  /\ Cpow (Ci * RtoC x) (S (S N)) = (- a * x ^ 2, - b * x ^ 2)
  /\ Cpow (Ci * RtoC x) (S (S (S N))) = (b * x ^ 3, - a * x ^ 3)
  /\ Cpow (Ci * RtoC x) (S (S (S (S N)))) = (a * x ^ 4, b * x ^ 4).
Proof.
  cbv zeta. cbn [Cpow]. destruct (Cpow (Ci * RtoC x) N) as [a b].
  csimpl. repeat split; apply C_eq; ring.
Qed.

Lemma exp_term (x : R) (M : nat) :
  taylor_term (fun _ => 1) M x
  = (Cre (Cpow (Ci * RtoC x) M) * / INR (fact M),
     Cim (Cpow (Ci * RtoC x) M) * / INR (fact M)).
Proof.
  destruct (taylor_term_components (fun _ => 1) M x) as [Hre Him].
  rewrite (surjective_pairing (taylor_term _ M x)).
  unfold Cre, Cim in *. rewrite Hre, Him. apply C_eq; ring.
Qed.

Lemma phi_numerator_add (x : R) (e1 e2 e3 d1 d2 d3 : C) :
  phi_numerator x (e1 + d1) (e2 + d2) (e3 + d3)
  = (phi_numerator x e1 e2 e3
     + ((- Ci) * RtoC (x ^ 3) * d1 - (0, 6) * RtoC x * d2 + RtoC 12 * d3))%C.
Proof.
  unfold phi_numerator. destruct e1, e2, e3, d1, d2, d3. cring.
Qed.

Lemma psi_numerator_add (x : R) (e1 e2 e3 d1 d2 d3 : C) :
  psi_numerator x (e1 + d1) (e2 + d2) (e3 + d3)
  = (psi_numerator x e1 e2 e3
     + (RtoC (x ^ 2) * d1 + (0, 4) * RtoC x * d2 - RtoC 6 * d3))%C.
Proof.
  unfold psi_numerator. destruct e1, e2, e3, d1, d2, d3. cring.
Qed.

(** [x^4] times the term of index [N] of Phi (of Psi) is the combination
    of the terms of the exponential series its closed form makes. *)
Lemma phi_term_identity (x : R) (N : nat) :
  (RtoC (x ^ 4) * taylor_term phi_coef N x)%C
  = ((- Ci) * RtoC (x ^ 3) * taylor_term (fun _ => 1) (S N) x
     - (0, 6) * RtoC x * taylor_term (fun _ => 1) (S (S (S N))) x
     + RtoC 12 * taylor_term (fun _ => 1) (S (S (S (S N)))) x)%C.
Proof.
  rewrite !exp_term.
  destruct (Cpow_shift x N) as (-> & _ & -> & ->).
  destruct (inv_fact_shift N) as (-> & _ & -> & ->).
  destruct (taylor_term_components phi_coef N x) as [Hre Him].
  rewrite (surjective_pairing (taylor_term phi_coef N x)).
  unfold Cre, Cim in *. rewrite Hre, Him.
  set (a := fst (Cpow (Ci * RtoC x) N)). set (b := snd (Cpow (Ci * RtoC x) N)).
  set (f := / INR (fact N)).
  pose proof (pos_INR N) as HN. unfold phi_coef.
  csimpl. apply C_eq; field; repeat split; lra.
Qed.

Lemma psi_term_identity (x : R) (N : nat) :
  (RtoC (x ^ 4) * taylor_term psi_coef N x)%C
  = (RtoC (x ^ 2) * taylor_term (fun _ => 1) (S (S N)) x
     + (0, 4) * RtoC x * taylor_term (fun _ => 1) (S (S (S N))) x
     - RtoC 6 * taylor_term (fun _ => 1) (S (S (S (S N)))) x)%C.
Proof.
  rewrite !exp_term.
  destruct (Cpow_shift x N) as (_ & -> & -> & ->).
  destruct (inv_fact_shift N) as (_ & -> & -> & ->).
  destruct (taylor_term_components psi_coef N x) as [Hre Him].
  rewrite (surjective_pairing (taylor_term psi_coef N x)).
  unfold Cre, Cim in *. rewrite Hre, Him.
  set (a := fst (Cpow (Ci * RtoC x) N)). set (b := snd (Cpow (Ci * RtoC x) N)).
  set (f := / INR (fact N)).
  pose proof (pos_INR N) as HN. unfold psi_coef.
  csimpl. apply C_eq; field; repeat split; lra.
Qed.

Lemma Cmul_add_distr (z a b : C) : (z * (a + b) = z * a + z * b)%C.
Proof. destruct z, a, b. cring. Qed.

(** The partial sums of Phi and Psi are the numerators of the closed
    forms at partial sums of the exponential. *)
Lemma phi_partial_identity (x : R) (N : nat) :
  (RtoC (x ^ 4) * taylor_partial phi_coef N x)%C
  = phi_numerator x (exp_partial (S N) x) (exp_partial (S (S (S N))) x)
      (exp_partial (S (S (S (S N)))) x).
Proof.
  induction N as [|N IH].
  - unfold exp_partial, phi_numerator. cbn [taylor_partial].
    rewrite !exp_term. cbn [Cpow fact Nat.mul Nat.add INR].
    csimpl. apply C_eq; field.
  - cbn [taylor_partial]. rewrite Cmul_add_distr, IH, phi_term_identity.
    unfold exp_partial at 4 5 6. cbn [taylor_partial]. fold (exp_partial (S N) x).
    symmetry. apply phi_numerator_add.
Qed.

Lemma psi_partial_identity (x : R) (N : nat) :
  (RtoC (x ^ 4) * taylor_partial psi_coef N x)%C
  = psi_numerator x (exp_partial (S (S N)) x) (exp_partial (S (S (S N))) x)
      (exp_partial (S (S (S (S N)))) x).
Proof.
  induction N as [|N IH].
  - unfold exp_partial, psi_numerator. cbn [taylor_partial].
    rewrite !exp_term. cbn [Cpow fact Nat.mul Nat.add INR].
    csimpl. apply C_eq; field.
  - cbn [taylor_partial]. rewrite Cmul_add_distr, IH, psi_term_identity.
    unfold exp_partial at 4 5 6. cbn [taylor_partial]. fold (exp_partial (S N) x).
    symmetry. apply psi_numerator_add.
Qed.

Lemma taylor_term_abs (coef : nat -> R) (m : nat) (x : R) :
  Rabs (Cre (taylor_term coef m x)) <= Rabs (coef m) * Rabs x ^ m / INR (fact m)
  /\ Rabs (Cim (taylor_term coef m x))
     <= Rabs (coef m) * Rabs x ^ m / INR (fact m).
Proof.
  destruct (taylor_term_components coef m x) as [-> ->].
  destruct (Cpow_components_bound x m) as [Hre Him].
  assert (Hf : 0 < / INR (fact m)) by (apply Rinv_0_lt_compat, INR_fact_lt_0).
  pose proof (Rabs_pos (coef m)) as Hc.
  rewrite !Rabs_mult, (Rabs_right (/ INR (fact m))) by lra.
  unfold Rdiv. split; apply Rmult_le_compat_r; try lra;
    apply Rmult_le_compat_l; assumption.
Qed.

Lemma Cdiv_real_cancel (z : C) (r : R) :
  r <> 0 -> Cdiv_real (RtoC r * z) r = z.
Proof.
  intros Hr. destruct z as [a b]. unfold Cdiv_real. csimpl.
  apply C_eq; field; assumption.
Qed.

Lemma Cdiv_real_sub (a b : C) (r : R) :
  (Cdiv_real a r - Cdiv_real b r)%C = Cdiv_real (a - b) r.
Proof. destruct a, b. unfold Cdiv_real. csimpl. apply C_eq; unfold Rdiv; ring. Qed.

Lemma Cadd_sub_cancel (e E : C) : (E + (e - E))%C = e.
Proof. destruct e, E. cring. Qed.

(** The difference between the closed form and a partial sum, as the
    closed form makes it from the remainders of the exponential. *)
Lemma phi_remainder (x : R) (N : nat) :
  x <> 0 ->
  let d := fun M => (Cis x - exp_partial M x)%C in
  (phi_closed x - taylor_partial phi_coef N x)%C
  = Cdiv_real ((- Ci) * RtoC (x ^ 3) * d (S N)
               - (0, 6) * RtoC x * d (S (S (S N)))
               + RtoC 12 * d (S (S (S (S N)))))%C (x ^ 4).
Proof.
  intros Hx. cbv zeta.
  assert (Hx4 : x ^ 4 <> 0) by now apply pow_nonzero.
  destruct (closed_forms_by_numerator x) as [-> _].
  rewrite Cdiv_RtoC.
  rewrite <- (Cdiv_real_cancel (taylor_partial phi_coef N x) (x ^ 4) Hx4) at 1.
  rewrite phi_partial_identity, Cdiv_real_sub. f_equal.
  rewrite <- (Cadd_sub_cancel (Cis x) (exp_partial (S N) x)) at 1.
  rewrite <- (Cadd_sub_cancel (Cis x) (exp_partial (S (S (S N))) x)) at 2.
  rewrite <- (Cadd_sub_cancel (Cis x) (exp_partial (S (S (S (S N)))) x)) at 3.
  rewrite phi_numerator_add.
  destruct (phi_numerator x _ _ _), (Cis x - exp_partial (S N) x)%C,
    (Cis x - exp_partial (S (S (S N))) x)%C,
    (Cis x - exp_partial (S (S (S (S N)))) x)%C.
  cring.
Qed.

Lemma exp_remainder_bound (x : R) (M : nat) :
  0 <= x <= 1 -> (2 <= M)%nat ->
  Rabs (Cre (Cis x - exp_partial M x)%C) <= x ^ M / INR (fact M)
  /\ Rabs (Cim (Cis x - exp_partial M x)%C) <= x ^ M / INR (fact M).
Proof.
  intros Hx HM. destruct (exp_partial_error x M Hx HM) as [Hre Him].
  destruct (exp_partial M x) as [a b]. unfold Cis. csimpl. split; assumption.
Qed.

Lemma inv_product_bounds (m : R) :
  2 <= m ->
  0 < / ((m + 1) * (m + 2)) <= / 12
  /\ 0 < / ((m + 1) * (m + 2) * (m + 3)) <= / 60
  /\ 0 < / (m + 1) <= / 3.
Proof.
  intros Hm.
  assert (H12 : 12 <= (m + 1) * (m + 2)) by nra.
  assert (H60 : 60 <= (m + 1) * (m + 2) * (m + 3)) by nra.
  repeat split; try (apply Rinv_0_lt_compat; lra);
    apply Rinv_le_contravar; lra.
Qed.

(** A first bound of the truncation error of Phi after [N >= 1] terms:
    twice the size [x^N / (N+1)!]. *)
Lemma phi_error_crude (x : R) (N : nat) :
  0 < x <= 1 -> (1 <= N)%nat ->
  Rabs (Cre (phi_closed x - taylor_partial phi_coef N x)%C)
  <= 2 * x ^ N / INR (fact (S N))
  /\ Rabs (Cim (phi_closed x - taylor_partial phi_coef N x)%C)
     <= 2 * x ^ N / INR (fact (S N)).
Proof.
  intros Hx HN. rewrite phi_remainder by lra. cbv zeta.
  destruct (exp_remainder_bound x (S N) ltac:(lra) ltac:(lia)) as [Ha1 Hb1].
  destruct (exp_remainder_bound x (S (S (S N))) ltac:(lra) ltac:(lia))
    as [Ha3 Hb3].
  destruct (exp_remainder_bound x (S (S (S (S N)))) ltac:(lra) ltac:(lia))
    as [Ha4 Hb4].
  destruct (Cis x - exp_partial (S N) x)%C as [a1 b1].
  destruct (Cis x - exp_partial (S (S (S N))) x)%C as [a3 b3].
  destruct (Cis x - exp_partial (S (S (S (S N)))) x)%C as [a4 b4].
  unfold Cre, Cim in *. cbn [fst snd] in *.
  destruct (inv_fact_shift (S N)) as (_ & E3 & E4 & _).
  unfold Rdiv in *. rewrite E3 in Ha3, Hb3. rewrite E4 in Ha4, Hb4.
  set (g := / INR (fact (S N))) in *.
  assert (Hg : 0 < g) by (apply Rinv_0_lt_compat, INR_fact_lt_0).
  assert (Hm : 2 <= INR (S N)) by (apply (le_INR 2); lia).
  destruct (inv_product_bounds (INR (S N)) Hm) as ((Hu0 & Hu) & (Hv0 & Hv) & _).
  set (u := / ((INR (S N) + 1) * (INR (S N) + 2))) in *.
  set (v := / ((INR (S N) + 1) * (INR (S N) + 2) * (INR (S N) + 3))) in *.
  assert (HxN : 0 < x ^ N) by (apply pow_lt; lra).
  cbn [pow] in Ha1, Hb1, Ha3, Hb3, Ha4, Hb4.
  set (y := x ^ N) in *.
  assert (Hx4 : 0 < x ^ 4) by (apply pow_lt; lra).
  assert (Hi : 0 < / x ^ 4) by now apply Rinv_0_lt_compat.
  assert (Hcombine : forall p q r,
             Rabs p <= x * y * g -> Rabs q <= x * (x * (x * y)) * (g * u) ->
             Rabs r <= x * (x * (x * (x * y))) * (g * v) ->
             Rabs ((x ^ 3 * p + 6 * x * q + 12 * r) * / x ^ 4) <= 2 * y * g).
  { intros p q r Hp Hq Hr.
    rewrite Rabs_mult, (Rabs_right (/ x ^ 4)) by lra.
    apply (Rmult_le_reg_r (x ^ 4)); [assumption|].
    rewrite Rmult_assoc, Rinv_l, Rmult_1_r by lra.
    eapply Rle_trans; [apply Rabs_triang|].
    eapply Rle_trans;
      [apply Rplus_le_compat; [apply Rabs_triang | apply Rle_refl]|].
    rewrite !Rabs_mult, (Rabs_right (x ^ 3)), (Rabs_right 6), (Rabs_right x),
      (Rabs_right 12) by (try apply Rle_ge; try (left; apply pow_lt); lra).
    assert (H3 : 0 < x ^ 3) by (apply pow_lt; lra).
    assert (Hyg : 0 < y * g) by (apply Rmult_lt_0_compat; assumption).
    assert (T1 : x ^ 3 * Rabs p <= x ^ 4 * (y * g)).
    { replace (x ^ 4 * (y * g)) with (x ^ 3 * (x * y * g)) by ring.
      apply Rmult_le_compat_l; lra. }
    assert (T2 : 6 * x * Rabs q <= x ^ 4 * (y * g) * (6 * u)).
    { replace (x ^ 4 * (y * g) * (6 * u))
        with (6 * x * (x * (x * (x * y)) * (g * u))) by ring.
      apply Rmult_le_compat_l; lra. }
    assert (T3 : 12 * Rabs r <= x ^ 4 * (y * g) * (12 * v)).
    { replace (x ^ 4 * (y * g) * (12 * v))
        with (12 * (x * (x * (x * (x * y))) * (g * v))) by ring.
      apply Rmult_le_compat_l; lra. }
    assert (Hw : 0 < x ^ 4 * (y * g)) by (apply Rmult_lt_0_compat; assumption).
    nra. }
  split.
  - replace (fst (Cdiv_real ((- Ci) * RtoC (x ^ 3) * (a1, b1)
                             - (0, 6) * RtoC x * (a3, b3)
                             + RtoC 12 * (a4, b4))%C (x ^ 4)))
      with ((x ^ 3 * b1 + 6 * x * b3 + 12 * a4) * / x ^ 4)
      by (unfold Cdiv_real; csimpl; unfold Rdiv; ring).
    apply Hcombine; assumption.
  - replace (snd (Cdiv_real ((- Ci) * RtoC (x ^ 3) * (a1, b1)
                             - (0, 6) * RtoC x * (a3, b3)
                             + RtoC 12 * (a4, b4))%C (x ^ 4)))
      with ((x ^ 3 * (- a1) + 6 * x * (- a3) + 12 * b4) * / x ^ 4)
      by (unfold Cdiv_real; csimpl; unfold Rdiv; ring).
    apply Hcombine; rewrite ?Rabs_Ropp; assumption.
Qed.

Lemma psi_remainder (x : R) (N : nat) :
  x <> 0 ->
  let d := fun M => (Cis x - exp_partial M x)%C in
  (psi_closed x - taylor_partial psi_coef N x)%C
  = Cdiv_real (RtoC (x ^ 2) * d (S (S N))
               + (0, 4) * RtoC x * d (S (S (S N)))
               - RtoC 6 * d (S (S (S (S N)))))%C (x ^ 4).
Proof.
  intros Hx. cbv zeta.
  assert (Hx4 : x ^ 4 <> 0) by now apply pow_nonzero.
  destruct (closed_forms_by_numerator x) as [_ ->].
  rewrite Cdiv_RtoC.
  rewrite <- (Cdiv_real_cancel (taylor_partial psi_coef N x) (x ^ 4) Hx4) at 1.
  rewrite psi_partial_identity, Cdiv_real_sub. f_equal.
  rewrite <- (Cadd_sub_cancel (Cis x) (exp_partial (S (S N)) x)) at 1.
  rewrite <- (Cadd_sub_cancel (Cis x) (exp_partial (S (S (S N))) x)) at 2.
  rewrite <- (Cadd_sub_cancel (Cis x) (exp_partial (S (S (S (S N)))) x)) at 3.
  rewrite psi_numerator_add.
  destruct (psi_numerator x _ _ _), (Cis x - exp_partial (S (S N)) x)%C,
    (Cis x - exp_partial (S (S (S N))) x)%C,
    (Cis x - exp_partial (S (S (S (S N)))) x)%C.
  cring.
Qed.

(** A first bound of the truncation error of Psi after [N >= 1] terms:
    three times the size [x^N / (N+2)!]. *)
Lemma psi_error_crude (x : R) (N : nat) :
  0 < x <= 1 -> (1 <= N)%nat ->
  Rabs (Cre (psi_closed x - taylor_partial psi_coef N x)%C)
  <= 3 * x ^ N / INR (fact (S (S N)))
  /\ Rabs (Cim (psi_closed x - taylor_partial psi_coef N x)%C)
     <= 3 * x ^ N / INR (fact (S (S N))).
Proof.
  intros Hx HN. rewrite psi_remainder by lra. cbv zeta.
  destruct (exp_remainder_bound x (S (S N)) ltac:(lra) ltac:(lia)) as [Ha2 Hb2].
  destruct (exp_remainder_bound x (S (S (S N))) ltac:(lra) ltac:(lia))
    as [Ha3 Hb3].
  destruct (exp_remainder_bound x (S (S (S (S N)))) ltac:(lra) ltac:(lia))
    as [Ha4 Hb4].
  destruct (Cis x - exp_partial (S (S N)) x)%C as [a2 b2].
  destruct (Cis x - exp_partial (S (S (S N))) x)%C as [a3 b3].
  destruct (Cis x - exp_partial (S (S (S (S N)))) x)%C as [a4 b4].
  unfold Cre, Cim in *. cbn [fst snd] in *.
  destruct (inv_fact_shift (S (S N))) as (E3 & E4 & _).
  unfold Rdiv in *. rewrite E3 in Ha3, Hb3. rewrite E4 in Ha4, Hb4.
  set (g := / INR (fact (S (S N)))) in *.
  assert (Hg : 0 < g) by (apply Rinv_0_lt_compat, INR_fact_lt_0).
  assert (Hm : 2 <= INR (S (S N))) by (apply (le_INR 2); lia).
  destruct (inv_product_bounds (INR (S (S N))) Hm)
    as ((Hv0 & Hv) & _ & (Hu0 & Hu)).
  set (u := / (INR (S (S N)) + 1)) in *.
  set (v := / ((INR (S (S N)) + 1) * (INR (S (S N)) + 2))) in *.
  assert (HxN : 0 < x ^ N) by (apply pow_lt; lra).
  cbn [pow] in Ha2, Hb2, Ha3, Hb3, Ha4, Hb4.
  set (y := x ^ N) in *.
  assert (Hx4 : 0 < x ^ 4) by (apply pow_lt; lra).
  assert (Hi : 0 < / x ^ 4) by now apply Rinv_0_lt_compat.
  assert (Hcombine : forall p q r,
             Rabs p <= x * (x * y) * g -> Rabs q <= x * (x * (x * y)) * (g * u) ->
             Rabs r <= x * (x * (x * (x * y))) * (g * v) ->
             Rabs ((x ^ 2 * p + 4 * x * q + 6 * r) * / x ^ 4) <= 3 * y * g).
  { intros p q r Hp Hq Hr.
    rewrite Rabs_mult, (Rabs_right (/ x ^ 4)) by lra.
    apply (Rmult_le_reg_r (x ^ 4)); [assumption|].
    rewrite Rmult_assoc, Rinv_l, Rmult_1_r by lra.
    eapply Rle_trans; [apply Rabs_triang|].
    eapply Rle_trans;
      [apply Rplus_le_compat; [apply Rabs_triang | apply Rle_refl]|].
    rewrite !Rabs_mult, (Rabs_right (x ^ 2)), (Rabs_right 4), (Rabs_right x),
      (Rabs_right 6) by (try apply Rle_ge; try (left; apply pow_lt); lra).
    assert (H2 : 0 < x ^ 2) by (apply pow_lt; lra).
    assert (Hyg : 0 < y * g) by (apply Rmult_lt_0_compat; assumption).
    assert (T1 : x ^ 2 * Rabs p <= x ^ 4 * (y * g)).
    { replace (x ^ 4 * (y * g)) with (x ^ 2 * (x * (x * y) * g)) by ring.
      apply Rmult_le_compat_l; lra. }
    assert (T2 : 4 * x * Rabs q <= x ^ 4 * (y * g) * (4 * u)).
    { replace (x ^ 4 * (y * g) * (4 * u))
        with (4 * x * (x * (x * (x * y)) * (g * u))) by ring.
      apply Rmult_le_compat_l; lra. }
    assert (T3 : 6 * Rabs r <= x ^ 4 * (y * g) * (6 * v)).
    { replace (x ^ 4 * (y * g) * (6 * v))
        with (6 * (x * (x * (x * (x * y))) * (g * v))) by ring.
      apply Rmult_le_compat_l; lra. }
    assert (Hw : 0 < x ^ 4 * (y * g)) by (apply Rmult_lt_0_compat; assumption).
    nra. }
  split.
  - replace (fst (Cdiv_real (RtoC (x ^ 2) * (a2, b2)
                             + (0, 4) * RtoC x * (a3, b3)
                             - RtoC 6 * (a4, b4))%C (x ^ 4)))
      with ((x ^ 2 * a2 + 4 * x * (- b3) + 6 * (- a4)) * / x ^ 4)
      by (unfold Cdiv_real; csimpl; unfold Rdiv; ring).
    apply Hcombine; rewrite ?Rabs_Ropp; assumption.
  - replace (snd (Cdiv_real (RtoC (x ^ 2) * (a2, b2)
                             + (0, 4) * RtoC x * (a3, b3)
                             - RtoC 6 * (a4, b4))%C (x ^ 4)))
      with ((x ^ 2 * b2 + 4 * x * a3 + 6 * (- b4)) * / x ^ 4)
      by (unfold Cdiv_real; csimpl; unfold Rdiv; ring).
    apply Hcombine; rewrite ?Rabs_Ropp; assumption.
Qed.

Lemma div_le_div (a b c d : R) :
  0 < b -> 0 < d -> a * d <= c * b -> a / b <= c / d.
Proof.
  intros Hb Hd H. apply (Rmult_le_reg_r (b * d)); [nra|].
  replace (a / b * (b * d)) with (a * d) by (field; lra).
  replace (c / d * (b * d)) with (c * b) by (field; lra).
  assumption.
Qed.

Lemma split_two_terms (coef : nat -> R) (closed : C) (n : nat) (x : R) :
  (closed - taylor_partial coef (S n) x)%C
  = (taylor_term coef (S n) x + taylor_term coef (S (S n)) x
     + (closed - taylor_partial coef (S (S (S n))) x))%C.
Proof.
  cbn [taylor_partial].
  destruct closed, (taylor_partial coef n x), (taylor_term coef n x),
    (taylor_term coef (S n) x), (taylor_term coef (S (S n)) x).
  cring.
Qed.

Lemma three_parts_abs (t1 t2 r : C) (b1 b2 b3 : R) :
  Rabs (Cre t1) <= b1 /\ Rabs (Cim t1) <= b1 ->
  Rabs (Cre t2) <= b2 /\ Rabs (Cim t2) <= b2 ->
  Rabs (Cre r) <= b3 /\ Rabs (Cim r) <= b3 ->
  Rabs (Cre (t1 + t2 + r)%C) <= b1 + b2 + b3
  /\ Rabs (Cim (t1 + t2 + r)%C) <= b1 + b2 + b3.
Proof.
  destruct t1, t2, r. csimpl. intros [H1 H1'] [H2 H2'] [H3 H3'].
  split; (eapply Rle_trans; [apply Rabs_triang|]);
    (eapply Rle_trans;
       [apply Rplus_le_compat; [apply Rabs_triang | apply Rle_refl]|]); lra.
Qed.

(** The remaining-term bound of the Phi loop bounds the truncation error
    of the sum it is tested against. *)
Lemma phi_error_within_bound_pos (x : R) (n : nat) :
  0 < x <= 1 ->
  Rabs (Cre (phi_closed x - taylor_partial phi_coef (S n) x)%C) <= phi_bound n x
  /\ Rabs (Cim (phi_closed x - taylor_partial phi_coef (S n) x)%C)
     <= phi_bound n x.
Proof.
  intros Hx. rewrite split_two_terms.
  pose proof (pos_INR n) as Hm.
  assert (Hf : 0 < / INR (fact n)) by (apply Rinv_0_lt_compat, INR_fact_lt_0).
  assert (HxS : 0 < x ^ S n) by (apply pow_lt; lra).
  set (W := x ^ S n * / INR (fact n) * / ((INR n + 1) * (INR n + 5))).
  assert (HW : 0 < W).
  { unfold W. apply Rmult_lt_0_compat; [apply Rmult_lt_0_compat; assumption|].
    apply Rinv_0_lt_compat. nra. }
  assert (Hbound : 2 * W * (1 + x) <= phi_bound n x).
  { unfold phi_bound. rewrite Rabs_right by lra.
    replace (2 * x ^ S n * exp x * / INR (fact n) / ((INR n + 1) * (INR n + 5)))
      with (2 * W * exp x) by (unfold W, Rdiv; ring).
    pose proof (exp_ineq1_le x). nra. }
  assert (Hbase : x ^ S n * / INR (fact n) * / (INR n + 1)
                  = W * (INR n + 5)).
  { unfold W. field. repeat split; try lra; apply INR_fact_neq_0. }
  destruct (inv_fact_shift n) as (E1 & E2 & _ & E4).
  assert (Hc : forall k, Rabs (phi_coef k) = phi_coef k).
  { intros k. apply Rabs_right, Rle_ge. unfold phi_coef.
    pose proof (pos_INR k). apply Rmult_le_pos; [lra|].
    left. apply Rinv_0_lt_compat. nra. }
  assert (T1 : Rabs (phi_coef (S n)) * Rabs x ^ S n / INR (fact (S n)) <= 2 * W).
  { rewrite Hc, Rabs_right by lra. unfold Rdiv. rewrite E1.
    replace (phi_coef (S n) * x ^ S n * (/ INR (fact n) * / (INR n + 1)))
      with (W * (INR n + 5) * phi_coef (S n)) by (rewrite <- Hbase; ring).
    assert (HK : (INR n + 5) * phi_coef (S n) <= 2).
    { unfold phi_coef. rewrite S_INR.
      replace ((INR n + 5)
               * ((INR n + 1 + 6) / ((INR n + 1 + 3) * (INR n + 1 + 4))))
        with ((INR n + 7) / (INR n + 4)) by (field; lra).
      replace 2 with (2 / 1) by lra. apply div_le_div; lra. }
    rewrite Rmult_assoc, (Rmult_comm 2 W).
    apply Rmult_le_compat_l; [lra | exact HK]. }
  assert (T2 : Rabs (phi_coef (S (S n))) * Rabs x ^ S (S n) / INR (fact (S (S n)))
               <= W * x).
  { rewrite Hc, Rabs_right by lra. unfold Rdiv. rewrite E2.
    replace (phi_coef (S (S n)) * x ^ S (S n)
             * (/ INR (fact n) * / ((INR n + 1) * (INR n + 2))))
      with (W * x * ((INR n + 5) * phi_coef (S (S n)) * / (INR n + 2)))
      by (unfold W, phi_coef; rewrite ?S_INR; cbn [pow]; field;
          repeat split; try lra; apply INR_fact_neq_0).
    assert (HK : (INR n + 5) * phi_coef (S (S n)) * / (INR n + 2) <= 1).
    { unfold phi_coef. rewrite !S_INR.
      replace ((INR n + 5)
               * ((INR n + 1 + 1 + 6)
                  / ((INR n + 1 + 1 + 3) * (INR n + 1 + 1 + 4)))
               * / (INR n + 2))
        with ((INR n + 8) / ((INR n + 6) * (INR n + 2))) by (field; lra).
      replace 1 with (1 / 1) by lra. apply div_le_div; nra. }
    rewrite <- (Rmult_1_r (W * x)) at 2.
    apply Rmult_le_compat_l; [nra | exact HK]. }
  assert (T3 : 2 * x ^ S (S (S n)) / INR (fact (S (S (S (S n))))) <= W * x).
  { unfold Rdiv. rewrite E4.
    replace (2 * x ^ S (S (S n))
             * (/ INR (fact n)
                * / ((INR n + 1) * (INR n + 2) * (INR n + 3) * (INR n + 4))))
      with (W * x * (x * (2 * (INR n + 5)
                          / ((INR n + 2) * (INR n + 3) * (INR n + 4)))))
      by (unfold W, phi_coef; rewrite ?S_INR; cbn [pow]; field;
          repeat split; try lra; apply INR_fact_neq_0).
    assert (2 * (INR n + 5) / ((INR n + 2) * (INR n + 3) * (INR n + 4)) <= 1).
    { replace 1 with (1 / 1) by lra. apply div_le_div; nra. }
    assert (0 <= 2 * (INR n + 5) / ((INR n + 2) * (INR n + 3) * (INR n + 4))).
    { apply Rmult_le_pos; [lra|]. left. apply Rinv_0_lt_compat. nra. }
    assert (HK : x * (2 * (INR n + 5)
                      / ((INR n + 2) * (INR n + 3) * (INR n + 4))) <= 1) by nra.
    rewrite <- (Rmult_1_r (W * x)) at 2.
    apply Rmult_le_compat_l; [nra | exact HK]. }
  pose proof (three_parts_abs _ _ _ _ _ _
                (taylor_term_abs phi_coef (S n) x)
                (taylor_term_abs phi_coef (S (S n)) x)
                (phi_error_crude x (S (S (S n))) Hx ltac:(lia))) as [Hre Him].
  split; lra.
Qed.

Lemma psi_coef_abs (k : nat) :
  Rabs (psi_coef k) = / ((INR k + 3) * (INR k + 4)).
Proof.
  pose proof (pos_INR k) as Hk. unfold psi_coef.
  assert (Hd : 0 < / ((INR k + 3) * (INR k + 4)))
    by (apply Rinv_0_lt_compat; nra).
  replace (- 1 / ((INR k + 3) * (INR k + 4)))
    with (- / ((INR k + 3) * (INR k + 4))) by (unfold Rdiv; ring).
  rewrite Rabs_Ropp. apply Rabs_right. lra.
Qed.

(** The remaining-term bound of the Psi loop bounds the truncation error
    of the sum it is tested against. *)
Lemma psi_error_within_bound_pos (x : R) (n : nat) :
  0 < x <= 1 ->
  Rabs (Cre (psi_closed x - taylor_partial psi_coef (S n) x)%C) <= psi_bound n x
  /\ Rabs (Cim (psi_closed x - taylor_partial psi_coef (S n) x)%C)
     <= psi_bound n x.
Proof.
  intros Hx. rewrite split_two_terms.
  pose proof (pos_INR n) as Hm.
  assert (Hf : 0 < / INR (fact n)) by (apply Rinv_0_lt_compat, INR_fact_lt_0).
  assert (HxS : 0 < x ^ S n) by (apply pow_lt; lra).
  set (W := x ^ S n * / INR (fact n)
            * / ((INR n + 1) * (INR n + 4) * (INR n + 5))).
  assert (HW : 0 < W).
  { unfold W. apply Rmult_lt_0_compat; [apply Rmult_lt_0_compat; assumption|].
    apply Rinv_0_lt_compat. nra. }
  assert (Hbound : W * (1 + x) <= psi_bound n x).
  { unfold psi_bound. rewrite Rabs_right by lra.
    replace (x ^ S n * exp x * / INR (fact n)
             / ((INR n + 1) * (INR n + 4) * (INR n + 5)))
      with (W * exp x) by (unfold W, Rdiv; ring).
    pose proof (exp_ineq1_le x). nra. }
  destruct (inv_fact_shift n) as (E1 & E2 & _ & _).
  destruct (inv_fact_shift (S n)) as (_ & _ & _ & E5).
  rewrite E1, S_INR in E5.
  assert (T1 : Rabs (psi_coef (S n)) * Rabs x ^ S n / INR (fact (S n)) <= W).
  { rewrite psi_coef_abs, Rabs_right by lra. unfold Rdiv. rewrite E1, S_INR.
    right. unfold W. field. repeat split; try lra; apply INR_fact_neq_0. }
  assert (T2 : Rabs (psi_coef (S (S n))) * Rabs x ^ S (S n) / INR (fact (S (S n)))
               <= W * x * (/ 3)).
  { rewrite psi_coef_abs, Rabs_right by lra. unfold Rdiv. rewrite E2, !S_INR.
    replace (/ ((INR n + 1 + 1 + 3) * (INR n + 1 + 1 + 4)) * x ^ S (S n)
             * (/ INR (fact n) * / ((INR n + 1) * (INR n + 2))))
      with (W * x * ((INR n + 4) / ((INR n + 2) * (INR n + 6))))
      by (unfold W; cbn [pow]; field;
          repeat split; try lra; apply INR_fact_neq_0).
    apply Rmult_le_compat_l; [nra|].
    replace (/ 3) with (1 / 3) by lra. apply div_le_div; nra. }
  assert (T3 : 3 * x ^ S (S (S n)) / INR (fact (S (S (S (S (S n)))))) 
               <= W * x * (/ 2)).
  { unfold Rdiv. rewrite E5.
    replace (3 * x ^ S (S (S n))
             * (/ INR (fact n) * / (INR n + 1)
                * / ((INR n + 1 + 1) * (INR n + 1 + 2) * (INR n + 1 + 3)
                     * (INR n + 1 + 4))))
      with (W * x * (x * (3 / ((INR n + 2) * (INR n + 3)))))
      by (unfold W; cbn [pow]; field;
          repeat split; try lra; apply INR_fact_neq_0).
    apply Rmult_le_compat_l; [nra|].
    assert (HK : 3 / ((INR n + 2) * (INR n + 3)) <= / 2).
    { replace (/ 2) with (1 / 2) by lra. apply div_le_div; nra. }
    assert (0 <= 3 / ((INR n + 2) * (INR n + 3))).
    { apply Rmult_le_pos; [lra|]. left. apply Rinv_0_lt_compat. nra. }
    nra. }
  pose proof (three_parts_abs _ _ _ _ _ _
                (taylor_term_abs psi_coef (S n) x)
                (taylor_term_abs psi_coef (S (S n)) x)
                (psi_error_crude x (S (S (S n))) Hx ltac:(lia))) as [Hre Him].
  assert (0 < W * x) by nra.
  split; lra.
Qed.

Lemma Cconj_components_abs (z : C) :
  Rabs (Cre (Cconj z)) = Rabs (Cre z) /\ Rabs (Cim (Cconj z)) = Rabs (Cim z).
Proof.
  destruct z. unfold Cconj, Cre, Cim. cbn [fst snd]. now rewrite Rabs_Ropp.
Qed.

(** The truncation errors of both kernels against their bounds, for the
    proofs about the arrays returned. *)
Lemma truncation_errors_within_bounds (x : R) (n : nat) :
  x <> 0 -> Rabs x <= 1 ->
  let dphi := (phi_closed x - taylor_partial phi_coef (S n) x)%C in
  let dpsi := (psi_closed x - taylor_partial psi_coef (S n) x)%C in
  (Rabs (Cre dphi) <= phi_bound n x /\ Rabs (Cim dphi) <= phi_bound n x)
  /\ (Rabs (Cre dpsi) <= psi_bound n x /\ Rabs (Cim dpsi) <= psi_bound n x).
Proof.
  intros Hx0 Hx1. cbv zeta.
  destruct (Rlt_le_dec 0 x) as [Hpos|Hneg].
  - rewrite Rabs_right in Hx1 by lra.
    split; [apply phi_error_within_bound_pos | apply psi_error_within_bound_pos];
      lra.
  - assert (Hy : 0 < - x <= 1) by (rewrite Rabs_left in Hx1 by lra; lra).
    remember (- x) as y eqn:Heqy.
    assert (Hxy : x = - y) by lra. clear Heqy Hx0 Hx1 Hneg. subst x.
    rewrite phi_closed_opp, psi_closed_opp, !taylor_partial_opp, <- !Cconj_sub.
    rewrite phi_bound_opp, psi_bound_opp.
    destruct (Cconj_components_abs
                (phi_closed y - taylor_partial phi_coef (S n) y)%C)
      as [-> ->].
    destruct (Cconj_components_abs
                (psi_closed y - taylor_partial psi_coef (S n) y)%C)
      as [-> ->].
    split; [apply phi_error_within_bound_pos | apply psi_error_within_bound_pos];
      assumption.
Qed.

(** X14. The remaining-term bounds the convergence tests of
    [_phi_and_psi] use are sound: for [0 < |x| <= 1] and every pass [n],
    the sum of the terms [0..n] of the Taylor branch differs from the
    closed form of Phi (of Psi) by at most the bound of that pass, in the
    real and in the imaginary part. *)
Theorem remaining_term_bounds_are_sound (x : R) (n : nat) :
  x <> 0 -> Rabs x <= 1 ->
  let dphi := (phi_closed x - taylor_partial phi_coef (S n) x)%C in
  let dpsi := (psi_closed x - taylor_partial psi_coef (S n) x)%C in
  (Rabs (Cre dphi) <= phi_bound n x /\ Rabs (Cim dphi) <= phi_bound n x)
  /\ (Rabs (Cre dpsi) <= psi_bound n x /\ Rabs (Cim dpsi) <= psi_bound n x).
Proof.
  intros Hx0 Hx1. cbv zeta.
  destruct (Rlt_le_dec 0 x) as [Hpos|Hneg].
  - rewrite Rabs_right in Hx1 by lra.
    split; [apply phi_error_within_bound_pos | apply psi_error_within_bound_pos];
      lra.
  - assert (Hy : 0 < - x <= 1) by (rewrite Rabs_left in Hx1 by lra; lra).
    remember (- x) as y eqn:Heqy.
    assert (Hxy : x = - y) by lra. clear Heqy Hx0 Hx1 Hneg. subst x.
    rewrite phi_closed_opp, psi_closed_opp, !taylor_partial_opp, <- !Cconj_sub.
    rewrite phi_bound_opp, psi_bound_opp.
    destruct (Cconj_components_abs
                (phi_closed y - taylor_partial phi_coef (S n) y)%C)
      as [-> ->].
    destruct (Cconj_components_abs
                (psi_closed y - taylor_partial psi_coef (S n) y)%C)
      as [-> ->].
    split; [apply phi_error_within_bound_pos | apply psi_error_within_bound_pos];
      assumption.
Qed.

Lemma remaining_term_bounds_are_sound_witness :
  Rabs (Cre (phi_closed (/ 2) - taylor_partial phi_coef 4 (/ 2))%C)
  <= phi_bound 3 (/ 2)
  /\ Rabs (Cim (psi_closed (/ 2) - taylor_partial psi_coef 4 (/ 2))%C)
     <= psi_bound 3 (/ 2).
Proof.
  destruct (remaining_term_bounds_are_sound (/ 2) 3) as [[H1 _] [_ H2]].
  - lra.
  - rewrite Rabs_right; lra.
  - split; assumption.
Defined.

Lemma nth_map_in_range {A B : Type} (f : A -> B) (l : list A) (i : nat)
    (d : A) (d' : B) :
  (i < length l)%nat -> nth i (map f l) d' = f (nth i l d).
Proof.
  intros Hi. rewrite (nth_indep _ d' (f d)) by now rewrite length_map.
  apply map_nth.
Qed.

Lemma zero_difference_within (z : C) (tol : R) :
  0 <= tol ->
  Rabs (Cre (z - z)%C) <= tol /\ Rabs (Cim (z - z)%C) <= tol.
Proof.
  intros Ht. destruct z. csimpl. rewrite !Rminus_diag, Rabs_R0. split; lra.
Qed.

(** X15. Every element of the arrays [_phi_and_psi] returns agrees with
    the closed form of Phi (of Psi) at that element up to the relative
    tolerance of the loop: real and imaginary parts differ from it by at
    most [eps] times the smaller of the two components of the value
    returned (and not at all where [|x| >= 1]). *)
Theorem phi_and_psi_accuracy (x : list R) (p q : list C) (i : nat) :
  _phi_and_psi x = Ok (p, q) ->
  (i < length x)%nat ->
  let v := nth i x 0 in
  let tol := fun z : C => float64_eps * Rmin (Rabs (Cre z)) (Rabs (Cim z)) in
  (Rabs (Cre (phi_closed v - nth i p C0)%C) <= tol (nth i p C0)
   /\ Rabs (Cim (phi_closed v - nth i p C0)%C) <= tol (nth i p C0))
  /\ (Rabs (Cre (psi_closed v - nth i q C0)%C) <= tol (nth i q C0)
      /\ Rabs (Cim (psi_closed v - nth i q C0)%C) <= tol (nth i q C0)).
Proof.
  intros H Hi. cbv zeta.
  pose proof float64_eps_bounds as [Heps _].
  assert (Htol : forall z : C,
             0 <= float64_eps * Rmin (Rabs (Cre z)) (Rabs (Cim z))).
  { intros z. apply Rmult_le_pos; [lra|].
    apply Rmin_glb; apply Rabs_pos. }
  rewrite phi_and_psi_closed in H. unfold phi_psi_closed_form in H.
  cbv zeta in H.
  destruct (first_converged phi_coef _ _ _) as [np|] eqn:Hp; [|discriminate].
  destruct (first_converged psi_coef _ _ _) as [nq|] eqn:Hq; [|discriminate].
  injection H as <- <-. unfold merge_branches.
  rewrite !(nth_map_in_range _ x i 0 C0 Hi).
  set (v := nth i x 0).
  destruct (in_taylor v) eqn:Hv; [|split; apply zero_difference_within, Htol].
  assert (Hin : In v (np_select (map in_taylor x) x)).
  { apply np_select_In. split; [apply nth_In, Hi | exact Hv]. }
  assert (Hv1 : Rabs v < 1) by now apply in_taylor_lt.
  apply find_some in Hp, Hq. destruct Hp as [_ Hp], Hq as [_ Hq].
  unfold batch_converged in Hp, Hq. rewrite forallb_forall in Hp, Hq.
  pose proof (Rltb_lt _ _ (Hp v Hin)) as Hcp.
  pose proof (Rltb_lt _ _ (Hq v Hin)) as Hcq.
  assert (Hv0 : v <> 0).
  { intros Hz. pose proof (Hp v Hin) as Hc. rewrite Hz in Hc.
    rewrite never_converged_at_zero in Hc by apply phi_bound_zero.
    discriminate. }
  destruct (truncation_errors_within_bounds v np Hv0 ltac:(lra))
    as [[P1 P2] _].
  destruct (truncation_errors_within_bounds v nq Hv0 ltac:(lra))
    as [_ [Q1 Q2]].
  cbn [taylor_partial] in *. repeat split; lra.
Qed.

Lemma phi_and_psi_accuracy_witness :
  exists p q,
    _phi_and_psi [/ 2; 2] = Ok (p, q)
    /\ Rabs (Cre (phi_closed (/ 2) - nth 0 p C0)%C)
       <= float64_eps * Rmin (Rabs (Cre (nth 0 p C0))) (Rabs (Cim (nth 0 p C0))).
Proof.
  assert (H0 : ~ In 0 [/ 2; 2]) by (intros [H|[H|[]]]; lra).
  destruct (batch_converges_within_64 _ H0) as (np & nq & Hp & Hq & _).
  pose proof (phi_and_psi_closed [/ 2; 2]) as Hc.
  unfold phi_psi_closed_form in Hc. cbv zeta in Hc. rewrite Hp, Hq in Hc.
  do 2 eexists. split; [exact Hc|].
  destruct (phi_and_psi_accuracy _ _ _ 0%nat Hc) as [[H _] _].
  - cbn [length]. lia.
  - exact H.
Defined.
